(** * Spiking neurons: the charge / fire / reset state machine

    A shallow embedding of [spikingjelly/activation_based/neuron.py].

    - A tensor is the list of its elements (flattened); every operation of
      the neuron code is elementwise, and a Python scalar operand is
      broadcast to each element.  Operands are of one shape; where PyTorch
      would broadcast or raise on a shape mismatch, [map2] stops at the
      shorter operand.
    - Arithmetic is taken through the interface [Scalar], with two
      instances: IEEE binary64 ([float], the arithmetic of Python floats
      and of [torch.float64] tensors) and exact rationals ([Q]), the
      real-number reading of the same formulas.
    - Autograd is not modelled: [detach()] and [no_grad] leave forward
      values unchanged.
    - A method that mutates [self] becomes a function from the old
      attribute values to the new ones; an exception becomes [Raise]. *)

From Stdlib Require Import List ZArith QArith Floats Bool String Lia Lqa.
Import ListNotations.

Set Warnings "-inexact-float".

(** ** Scalars *)

Class Scalar (F : Type) : Type := {
  s_zero : F;                  (* 0. *)
  s_one : F;                   (* 1. *)
  s_of_int : Z -> F;           (* a Python int used as a float *)
  s_add : F -> F -> F;
  s_sub : F -> F -> F;
  s_mul : F -> F -> F;
  s_div : F -> F -> F;
  s_eq : F -> F -> bool;       (* a == b *)
  s_ge : F -> F -> bool;       (* a >= b *)
  s_gt : F -> F -> bool;       (* a > b *)
  s_le : F -> F -> bool;       (* a <= b *)
  s_lt : F -> F -> bool        (* a < b *)
}.

Declare Scope scalar_scope.
Delimit Scope scalar_scope with sc.
Infix "+" := s_add : scalar_scope.
Infix "-" := s_sub : scalar_scope.
Infix "*" := s_mul : scalar_scope.
Infix "/" := s_div : scalar_scope.
Infix "==?" := s_eq (at level 70) : scalar_scope.
Infix ">=?" := s_ge (at level 70) : scalar_scope.
Infix ">?" := s_gt (at level 70) : scalar_scope.
Infix "<=?" := s_le (at level 70) : scalar_scope.
Infix "<?" := s_lt (at level 70) : scalar_scope.

(** IEEE 754 binary64, round to nearest even: Rocq's primitive floats. *)
#[export] Instance Float64 : Scalar float := {|
  s_zero := 0%float;
  s_one := 1%float;
  s_of_int := fun z =>
    if (z <? 0)%Z then PrimFloat.opp (PrimFloat.of_uint63 (Uint63.of_Z (- z)))
    else PrimFloat.of_uint63 (Uint63.of_Z z);
  s_add := PrimFloat.add;
  s_sub := PrimFloat.sub;
  s_mul := PrimFloat.mul;
  s_div := PrimFloat.div;
  s_eq := PrimFloat.eqb;
  s_ge := fun a b => PrimFloat.leb b a;
  s_gt := fun a b => PrimFloat.ltb b a;
  s_le := PrimFloat.leb;
  s_lt := PrimFloat.ltb
|}.

(** Exact rational arithmetic. *)
#[export] Instance Exact : Scalar Q := {|
  s_zero := 0%Q;
  s_one := 1%Q;
  s_of_int := inject_Z;
  s_add := Qplus;
  s_sub := Qminus;
  s_mul := Qmult;
  s_div := Qdiv;
  s_eq := Qeq_bool;
  s_ge := fun a b => Qle_bool b a;
  s_gt := fun a b => negb (Qle_bool a b);
  s_le := Qle_bool;
  s_lt := fun a b => negb (Qle_bool b a)
|}.

(** ** Tensors *)

Definition tensor (F : Type) : Type := list F.

Fixpoint map2 {A B C : Type} (f : A -> B -> C) (l : list A) (l' : list B) : list C :=
  match l, l' with
  | a :: t, b :: t' => f a b :: map2 f t t'
  | _, _ => []
  end.

Fixpoint map3 {A B C D : Type} (f : A -> B -> C -> D)
    (l : list A) (l' : list B) (l'' : list C) : list D :=
  match l, l', l'' with
  | a :: t, b :: t', c :: t'' => f a b c :: map3 f t t' t''
  | _, _, _ => []
  end.

(** [torch.full_like(x, c)], [torch.zeros_like(x)], [torch.ones_like(x)]. *)
Definition full_like {F : Type} (x : tensor F) (c : F) : tensor F := map (fun _ => c) x.
Definition zeros_like {F : Type} `{Scalar F} (x : tensor F) : tensor F := full_like x s_zero.
Definition ones_like {F : Type} `{Scalar F} (x : tensor F) : tensor F := full_like x s_one.

(** [b.to(x)] for a boolean [b]: [True] is [1.], [False] is [0.]. *)
Definition of_bool {F : Type} `{Scalar F} (b : bool) : F := if b then s_one else s_zero.

(** [l[t] = a] on a Python sequence that has an index [t]. *)
Fixpoint setitem {A : Type} (l : list A) (t : nat) (a : A) : list A :=
  match l, t with
  | [], _ => []
  | _ :: l', O => a :: l'
  | b :: l', S t' => b :: setitem l' t' a
  end.

(** ** Exceptions *)

Inductive exn : Type :=
  | ValueError (arg : string)
  | NotImplementedError (arg : string)
  | AssertionError
  | RuntimeError
  | IndexError.

Inductive result (A : Type) : Type :=
  | Ok (a : A)
  | Raise (e : exn).
Arguments Ok {A} a.
Arguments Raise {A} e.

Definition bind {A B : Type} (r : result A) (k : A -> result B) : result B :=
  match r with
  | Ok a => k a
  | Raise e => Raise e
  end.

Notation "x <- r ;; k" := (bind r (fun x => k))
  (at level 61, r at next level, right associativity).

(** [assert b]. *)
Definition assert (b : bool) : result unit := if b then Ok tt else Raise AssertionError.

(** ** The step mode and the backend of a module

    [self.step_mode = value] and [self.backend = value] are assignments
    through the setters of [base.MemoryModule]; [base.py] is not in this
    file. *)

Module MemoryModule.
Local Open Scope string_scope.

(** Modelled from the spec: the setter of [step_mode], of [base.py], which
    is not in this file: the step mode is "single | multi", ['s'] or
    ['m'], and "a requested ... step mode not in the variant's declared
    capability set ... fails fast with the offending mode named".  The
    assignment does not look at the backend. *)
Definition set_step_mode (value : string) : result unit :=
  if String.eqb value "s" || String.eqb value "m" then Ok tt
  else Raise (ValueError value).

(** Modelled from the spec: the setter of [backend], of [base.py], which
    is not in this file: "a neuron declares, via a fixed per-variant
    capability set, which backends it supports for which step mode;
    requesting an unsupported combination must fail fast with a
    descriptive error".  The capability set is [self.supported_backends],
    the property of the class of [self], read when the backend is
    assigned; the property may itself raise.  That the library of the
    backend (CuPy) is installed is taken for granted. *)
Definition set_backend (self_supported_backends : result (list string))
    (value : string) : result unit :=
  l <- self_supported_backends ;;
  if existsb (String.eqb value) l then Ok tt
  else Raise (NotImplementedError value).

(** Modelled from the spec: [supported_backends] of a class that declares
    no capability set of its own, which [base.MemoryModule] defines: the
    generic executor, ['torch'], alone. *)
Definition supported_backends : result (list string) := Ok ["torch"].
End MemoryModule.

(** [torch.stack(l)] along a new first axis: the sequence of the tensors of
    [l]; PyTorch refuses an empty list. *)
Definition stack {A : Type} (l : list A) : result (list A) :=
  match l with
  | [] => Raise RuntimeError
  | _ => Ok l
  end.

(** What a [forward] call does: return, raise, or hand over to a fused
    CuPy kernel of [auto_cuda] / [neuron_kernel], which this file does not
    contain (the branch also checks the dtype and caches the kernel). *)
Inductive outcome (A : Type) : Type :=
  | Returns (a : A)
  | Raises (e : exn)
  | Cupy.
Arguments Returns {A} a.
Arguments Raises {A} e.
Arguments Cupy {A}.

Definition of_result {A : Type} (r : result A) : outcome A :=
  match r with
  | Ok a => Returns a
  | Raise e => Raises e
  end.

Definition obind {A B : Type} (o : outcome A) (k : A -> outcome B) : outcome B :=
  match o with
  | Returns a => k a
  | Raises e => Raises e
  | Cupy => Cupy
  end.

Notation "x <-- o ;; k" := (obind o (fun x => k))
  (at level 61, o at next level, right associativity).

(** Modelled from the spec: the forward pass of a surrogate function of
    [surrogate.py], which is not in this file, "equal to the hard step
    function": [heaviside(x) = (x >= 0).to(x)]. *)
Definition heaviside {F : Type} `{Scalar F} (x : F) : F := of_bool (x >=? s_zero)%sc.

(** The value of an attribute such as [self.v]: the float it is registered
    with, or the tensor it becomes at the first input. *)
Inductive memory (F : Type) : Type :=
  | MFloat (c : F)
  | MTensor (t : tensor F).
Arguments MFloat {F} c.
Arguments MTensor {F} t.

(** ** BaseNode *)

Module BaseNode.
Section BaseNode.
Context {F : Type} `{Scalar F}.
Local Open Scope scalar_scope.

Record config : Type := {
  v_threshold : F;
  v_reset : option F;          (* [None]: soft reset *)
  detach_reset : bool;
  surrogate_function : F -> F;
  step_mode : string;
  backend : string;
  store_v_seq : bool;
  training : bool
}.

Record state : Type := {
  v : memory F;
  v_seq : option (list (tensor F))
}.

(** The attributes [__init__] assigns and the memory it registers: the
    [isinstance] assertions hold by typing; a module is created in
    training mode; [register_memory('v', 0. or v_reset)].  The two
    assignments [self.step_mode = step_mode] and [self.backend = backend]
    go through setters that may refuse them: [__init__of] below is
    [__init__] with these checks, and gives these attributes when it
    returns. *)
Definition __init__ (v_threshold : F) (v_reset : option F)
    (surrogate_function : F -> F) (detach_reset : bool)
    (step_mode backend : string) (store_v_seq : bool) : config * state :=
  ({| v_threshold := v_threshold; v_reset := v_reset;
      detach_reset := detach_reset; surrogate_function := surrogate_function;
      step_mode := step_mode; backend := backend;
      store_v_seq := store_v_seq; training := true |},
   {| v := MFloat match v_reset with None => s_zero | Some r => r end;
      v_seq := None |}).

(** [__init__] on an instance [self] of a subclass, as [super().__init__]
    runs it: [self.step_mode = step_mode], then [self.backend = backend]
    with the [supported_backends] of the class of [self], which reads the
    step mode just assigned. *)
Definition __init__of (self_supported_backends : config -> result (list string))
    (v_threshold : F) (v_reset : option F)
    (surrogate_function : F -> F) (detach_reset : bool)
    (step_mode backend : string) (store_v_seq : bool) : result (config * state) :=
  let node := __init__ v_threshold v_reset surrogate_function detach_reset
                step_mode backend store_v_seq in
  _ <- MemoryModule.set_step_mode step_mode ;;
  _ <- MemoryModule.set_backend (self_supported_backends (fst node)) backend ;;
  Ok node.

(** [self.step_mode = value] on a module already constructed. *)
Definition set_step_mode (c : config) (value : string) : result config :=
  _ <- MemoryModule.set_step_mode value ;;
  Ok {| v_threshold := v_threshold c; v_reset := v_reset c;
        detach_reset := detach_reset c; surrogate_function := surrogate_function c;
        step_mode := value; backend := backend c;
        store_v_seq := store_v_seq c; training := training c |}.

(** [module.eval()] and [module.train()]. *)
Definition set_training (c : config) (mode : bool) : config :=
  {| v_threshold := v_threshold c; v_reset := v_reset c;
     detach_reset := detach_reset c; surrogate_function := surrogate_function c;
     step_mode := step_mode c; backend := backend c;
     store_v_seq := store_v_seq c; training := mode |}.

Definition jit_hard_reset (v spike : tensor F) (v_reset : F) : tensor F :=
  map2 (fun v spike => (s_one - spike) * v + spike * v_reset) v spike.

Definition jit_soft_reset (v spike : tensor F) (v_threshold : F) : tensor F :=
  map2 (fun v spike => v - spike * v_threshold) v spike.

Definition neuronal_fire (c : config) (v : tensor F) : tensor F :=
  map (fun v => surrogate_function c (v - v_threshold c)) v.

Definition neuronal_reset (c : config) (v spike : tensor F) : tensor F :=
  let spike_d := spike in
  match v_reset c with
  | None => jit_soft_reset v spike_d (v_threshold c)
  | Some r => jit_hard_reset v spike_d r
  end.

Definition v_float_to_tensor (m : memory F) (x : tensor F) : tensor F :=
  match m with
  | MFloat v_init => full_like x v_init
  | MTensor t => t
  end.

(** The methods [single_step_forward] calls on [self]; a subclass
    overrides some of them. *)
Record methods : Type := {
  m_neuronal_charge : tensor F -> tensor F -> tensor F;  (* self.v, x to self.v *)
  m_neuronal_fire : tensor F -> tensor F;                (* self.v to spike *)
  m_neuronal_reset : tensor F -> tensor F -> tensor F    (* self.v, spike to self.v *)
}.

Definition single_step_forward (M : methods) (s : state) (x : tensor F)
    : tensor F * state :=
  let v0 := v_float_to_tensor (v s) x in
  let v1 := m_neuronal_charge M v0 x in
  let spike := m_neuronal_fire M v1 in
  let v2 := m_neuronal_reset M v1 spike in
  (spike, {| v := MTensor v2; v_seq := v_seq s |}).

(** [self.v_seq = v_seq]. *)
Definition set_v_seq (s : state) (v_seq : list (tensor F)) : state :=
  {| v := v s; v_seq := Some v_seq |}.

(** [multi_step_forward] calls [self.single_step_forward], which a
    subclass may override, reads [self.v] and writes [self.v_seq]: [self]
    is any module state [S] with these. *)
Section MultiStepForward.
Variable S : Type.
Variable self_single_step_forward : S -> tensor F -> outcome (tensor F * S).
Variable self_v : S -> memory F.
Variable self_set_v_seq : S -> list (tensor F) -> S.

(** The body of [for t in range(T)], over the inputs still to come, with
    the lists [y_seq] and [v_seq] built so far; [self.v] is a tensor after
    a step. *)
Fixpoint multi_step_loop (store_v_seq : bool) (s : S)
    (x_seq : list (tensor F)) (y_seq vs : list (tensor F))
    : outcome (S * list (tensor F) * list (tensor F)) :=
  match x_seq with
  | [] => Returns (s, y_seq, vs)
  | x :: x_seq' =>
      r <-- self_single_step_forward s x ;;
      let '(y, s') := r in
      let y_seq := y_seq ++ [y] in
      let vs := if store_v_seq
                then vs ++ [v_float_to_tensor (self_v s') x] else vs in
      multi_step_loop store_v_seq s' x_seq' y_seq vs
  end.

Definition multi_step_forward (store_v_seq : bool) (s : S)
    (x_seq : list (tensor F)) : outcome (list (tensor F) * S) :=
  r <-- multi_step_loop store_v_seq s x_seq [] [] ;;
  let '(s', y_seq, vs) := r in
  of_result
    (s'' <- (if store_v_seq
             then vs' <- stack vs ;; Ok (self_set_v_seq s' vs')
             else Ok s') ;;
     y <- stack y_seq ;;
     Ok (y, s'')).
End MultiStepForward.

End BaseNode.
Arguments config F : clear implicits.
Arguments state F : clear implicits.
Arguments methods F : clear implicits.
Arguments multi_step_loop {F S} self_single_step_forward self_v store_v_seq s x_seq y_seq vs.
Arguments multi_step_forward {F S} self_single_step_forward self_v self_set_v_seq
  store_v_seq s x_seq.
End BaseNode.

(** ** The loops of the [jit_eval_multi_step_forward_*] functions

    [spike_seq = torch.zeros_like(x_seq)], then for [t in range(x_seq.shape[0])]
    one step [body] on [x_seq[t]] and [v], and [spike_seq[t] = spike]
    (and [v_seq[t] = v] in the [_with_v_seq] functions). *)

Section JitLoops.
Context {F : Type} `{Scalar F}.

Variable body : tensor F -> tensor F -> tensor F * tensor F.  (* x, v to spike, v *)

Definition jit_loop (x_seq : list (tensor F)) (v : tensor F)
    : list (tensor F) * tensor F :=
  fold_left
    (fun '(spike_seq, v) t =>
       let '(spike, v) := body (nth t x_seq []) v in
       (setitem spike_seq t spike, v))
    (seq 0 (List.length x_seq))
    (map zeros_like x_seq, v).

Definition jit_loop_with_v_seq (x_seq : list (tensor F)) (v : tensor F)
    : list (tensor F) * tensor F * list (tensor F) :=
  fold_left
    (fun '(spike_seq, v, v_seq) t =>
       let '(spike, v) := body (nth t x_seq []) v in
       (setitem spike_seq t spike, v, setitem v_seq t v))
    (seq 0 (List.length x_seq))
    (map zeros_like x_seq, v, map zeros_like x_seq).
End JitLoops.

(** [x_seq[0]]. *)
Definition first_step {A : Type} (x_seq : list A) : result A :=
  match x_seq with
  | [] => Raise IndexError
  | x :: _ => Ok x
  end.

(** ** IFNode *)

Module IFNode.
Section IFNode.
Context {F : Type} `{Scalar F}.
Local Open Scope scalar_scope.
Local Open Scope string_scope.
Import BaseNode.

Definition supported_backends (c : config F) : result (list string) :=
  if String.eqb (step_mode c) "s" then Ok ["torch"; "cupy"]
  else if String.eqb (step_mode c) "m" then Ok ["torch"; "cupy"]
  else Raise (ValueError (step_mode c)).

Definition __init__ (v_threshold : F) (v_reset : option F)
    (surrogate_function : F -> F) (detach_reset : bool)
    (step_mode backend : string) (store_v_seq : bool)
    : result (config F * state F) :=
  BaseNode.__init__of supported_backends v_threshold v_reset surrogate_function
    detach_reset step_mode backend store_v_seq.

Definition neuronal_charge (v x : tensor F) : tensor F :=
  map2 (fun v x => v + x) v x.

Definition methods_of (c : config F) : methods F :=
  {| m_neuronal_charge := neuronal_charge;
     m_neuronal_fire := neuronal_fire c;
     m_neuronal_reset := neuronal_reset c |}.

Definition jit_eval_single_step_forward_hard_reset
    (v_threshold v_reset : F) (x v : tensor F) : tensor F * tensor F :=
  let v := map2 (fun v x => v + x) v x in
  let spike := map (fun v => of_bool (v >=? v_threshold)) v in
  let v := map2 (fun spike v => v_reset * spike + (s_one - spike) * v) spike v in
  (spike, v).

Definition jit_eval_single_step_forward_soft_reset
    (v_threshold : F) (x v : tensor F) : tensor F * tensor F :=
  let v := map2 (fun v x => v + x) v x in
  let spike := map (fun v => of_bool (v >=? v_threshold)) v in
  let v := map2 (fun v spike => v - spike * v_threshold) v spike in
  (spike, v).

Definition jit_eval_multi_step_forward_hard_reset
    (x_seq : list (tensor F)) (v : tensor F) (v_threshold v_reset : F) :=
  jit_loop
    (fun x v =>
       let v := map2 (fun v x => v + x) v x in
       let spike := map (fun v => of_bool (v >=? v_threshold)) v in
       let v := map2 (fun spike v => v_reset * spike + (s_one - spike) * v) spike v in
       (spike, v))
    x_seq v.

Definition jit_eval_multi_step_forward_hard_reset_with_v_seq
    (x_seq : list (tensor F)) (v : tensor F) (v_threshold v_reset : F) :=
  jit_loop_with_v_seq
    (fun x v =>
       let v := map2 (fun v x => v + x) v x in
       let spike := map (fun v => of_bool (v >=? v_threshold)) v in
       let v := map2 (fun spike v => v_reset * spike + (s_one - spike) * v) spike v in
       (spike, v))
    x_seq v.

Definition jit_eval_multi_step_forward_soft_reset
    (x_seq : list (tensor F)) (v : tensor F) (v_threshold : F) :=
  jit_loop
    (fun x v =>
       let v := map2 (fun v x => v + x) v x in
       let spike := map (fun v => of_bool (v >=? v_threshold)) v in
       let v := map2 (fun v spike => v - spike * v_threshold) v spike in
       (spike, v))
    x_seq v.

Definition jit_eval_multi_step_forward_soft_reset_with_v_seq
    (x_seq : list (tensor F)) (v : tensor F) (v_threshold : F) :=
  jit_loop_with_v_seq
    (fun x v =>
       let v := map2 (fun v x => v + x) v x in
       let spike := map (fun v => of_bool (v >=? v_threshold)) v in
       let v := map2 (fun v spike => v - spike * v_threshold) v spike in
       (spike, v))
    x_seq v.

Definition single_step_forward (c : config F) (s : state F) (x : tensor F)
    : outcome (tensor F * state F) :=
  if training c then
    if String.eqb (backend c) "torch" then
      Returns (BaseNode.single_step_forward (methods_of c) s x)
    else if String.eqb (backend c) "cupy" then Cupy
    else Raises (ValueError (backend c))
  else
    let v0 := v_float_to_tensor (v s) x in
    let '(spike, v') :=
      match v_reset c with
      | None => jit_eval_single_step_forward_soft_reset (v_threshold c) x v0
      | Some r => jit_eval_single_step_forward_hard_reset (v_threshold c) r x v0
      end in
    Returns (spike, {| v := MTensor v'; v_seq := v_seq s |}).

Definition multi_step_forward (c : config F) (s : state F) (x_seq : list (tensor F))
    : outcome (list (tensor F) * state F) :=
  if training c then
    if String.eqb (backend c) "torch" then
      BaseNode.multi_step_forward (single_step_forward c) v set_v_seq (store_v_seq c) s x_seq
    else if String.eqb (backend c) "cupy" then Cupy
    else Raises (ValueError (backend c))
  else
    of_result
      (x0 <- first_step x_seq ;;
       let v0 := v_float_to_tensor (v s) x0 in
       match v_reset c with
       | None =>
           if store_v_seq c then
             let '(spike_seq, v', vs) :=
               jit_eval_multi_step_forward_soft_reset_with_v_seq x_seq v0 (v_threshold c) in
             Ok (spike_seq, {| v := MTensor v'; v_seq := Some vs |})
           else
             let '(spike_seq, v') :=
               jit_eval_multi_step_forward_soft_reset x_seq v0 (v_threshold c) in
             Ok (spike_seq, {| v := MTensor v'; v_seq := v_seq s |})
       | Some r =>
           if store_v_seq c then
             let '(spike_seq, v', vs) :=
               jit_eval_multi_step_forward_hard_reset_with_v_seq x_seq v0 (v_threshold c) r in
             Ok (spike_seq, {| v := MTensor v'; v_seq := Some vs |})
           else
             let '(spike_seq, v') :=
               jit_eval_multi_step_forward_hard_reset x_seq v0 (v_threshold c) r in
             Ok (spike_seq, {| v := MTensor v'; v_seq := v_seq s |})
       end).

End IFNode.
End IFNode.

(** ** LIFNode *)

Module LIFNode.
Section LIFNode.
Context {F : Type} `{Scalar F}.
Local Open Scope scalar_scope.
Local Open Scope string_scope.
Import BaseNode.

Record config : Type := {
  base : BaseNode.config F;
  tau : F;
  decay_input : bool
}.

Definition supported_backends (c : config) : result (list string) :=
  if String.eqb (step_mode (base c)) "s" then Ok ["torch"; "cupy"]
  else if String.eqb (step_mode (base c)) "m" then Ok ["torch"; "cupy"]
  else Raise (ValueError (step_mode (base c))).

(** [__init__] on an instance [self] of [LIFNode] or of a subclass, whose
    [supported_backends] the backend setter reads. *)
Definition __init__of (self_supported_backends : config -> result (list string))
    (tau : F) (decay_input : bool) (v_threshold : F)
    (v_reset : option F) (surrogate_function : F -> F) (detach_reset : bool)
    (step_mode backend : string) (store_v_seq : bool)
    : result (config * state F) :=
  _ <- assert (tau >? s_one) ;;
  let self b := {| base := b; tau := tau; decay_input := decay_input |} in
  node <- BaseNode.__init__of (fun b => self_supported_backends (self b))
            v_threshold v_reset surrogate_function detach_reset step_mode backend
            store_v_seq ;;
  Ok (self (fst node), snd node).

Definition __init__ (tau : F) (decay_input : bool) (v_threshold : F)
    (v_reset : option F) (surrogate_function : F -> F) (detach_reset : bool)
    (step_mode backend : string) (store_v_seq : bool)
    : result (config * state F) :=
  __init__of supported_backends tau decay_input v_threshold v_reset
    surrogate_function detach_reset step_mode backend store_v_seq.

Definition neuronal_charge_decay_input_reset0 (x v : tensor F) (tau : F) : tensor F :=
  map2 (fun v x => v + (x - v) / tau) v x.

Definition neuronal_charge_decay_input (x v : tensor F) (v_reset tau : F) : tensor F :=
  map2 (fun v x => v + (x - (v - v_reset)) / tau) v x.

Definition neuronal_charge_no_decay_input_reset0 (x v : tensor F) (tau : F) : tensor F :=
  map2 (fun v x => v * (s_one - s_one / tau) + x) v x.

Definition neuronal_charge_no_decay_input (x v : tensor F) (v_reset tau : F) : tensor F :=
  map2 (fun v x => v - (v - v_reset) / tau + x) v x.

(** [if self.v_reset is None or self.v_reset == 0.: ... else: ...] in
    each branch of [decay_input]. *)
Definition neuronal_charge (c : config) (v x : tensor F) : tensor F :=
  if decay_input c then
    match v_reset (base c) with
    | None => neuronal_charge_decay_input_reset0 x v (tau c)
    | Some r =>
        if r ==? s_zero
        then neuronal_charge_decay_input_reset0 x v (tau c)
        else neuronal_charge_decay_input x v r (tau c)
    end
  else
    match v_reset (base c) with
    | None => neuronal_charge_no_decay_input_reset0 x v (tau c)
    | Some r =>
        if r ==? s_zero
        then neuronal_charge_no_decay_input_reset0 x v (tau c)
        else neuronal_charge_no_decay_input x v r (tau c)
    end.

Definition methods_of (c : config) : methods F :=
  {| m_neuronal_charge := neuronal_charge c;
     m_neuronal_fire := neuronal_fire (base c);
     m_neuronal_reset := neuronal_reset (base c) |}.

Definition jit_eval_single_step_forward_hard_reset_decay_input
    (v_threshold v_reset tau : F) (x v : tensor F) : tensor F * tensor F :=
  let v := map2 (fun v x => v + (x - (v - v_reset)) / tau) v x in
  let spike := map (fun v => of_bool (v >=? v_threshold)) v in
  let v := map2 (fun spike v => v_reset * spike + (s_one - spike) * v) spike v in
  (spike, v).

Definition jit_eval_single_step_forward_hard_reset_no_decay_input
    (v_threshold v_reset tau : F) (x v : tensor F) : tensor F * tensor F :=
  let v := map2 (fun v x => v - (v - v_reset) / tau + x) v x in
  let spike := map (fun v => of_bool (v >=? v_threshold)) v in
  let v := map2 (fun spike v => v_reset * spike + (s_one - spike) * v) spike v in
  (spike, v).

Definition jit_eval_single_step_forward_soft_reset_decay_input
    (v_threshold tau : F) (x v : tensor F) : tensor F * tensor F :=
  let v := map2 (fun v x => v + (x - v) / tau) v x in
  let spike := map (fun v => of_bool (v >=? v_threshold)) v in
  let v := map2 (fun v spike => v - spike * v_threshold) v spike in
  (spike, v).

Definition jit_eval_single_step_forward_soft_reset_no_decay_input
    (v_threshold tau : F) (x v : tensor F) : tensor F * tensor F :=
  let v := map2 (fun v x => v * (s_one - s_one / tau) + x) v x in
  let spike := map (fun v => of_bool (v >=? v_threshold)) v in
  let v := map2 (fun v spike => v - spike * v_threshold) v spike in
  (spike, v).

Definition jit_eval_multi_step_forward_hard_reset_decay_input
    (x_seq : list (tensor F)) (v : tensor F) (v_threshold v_reset tau : F) :=
  jit_loop
    (fun x v =>
       let v := map2 (fun v x => v + (x - (v - v_reset)) / tau) v x in
       let spike := map (fun v => of_bool (v >=? v_threshold)) v in
       let v := map2 (fun spike v => v_reset * spike + (s_one - spike) * v) spike v in
       (spike, v))
    x_seq v.

Definition jit_eval_multi_step_forward_hard_reset_decay_input_with_v_seq
    (x_seq : list (tensor F)) (v : tensor F) (v_threshold v_reset tau : F) :=
  jit_loop_with_v_seq
    (fun x v =>
       let v := map2 (fun v x => v + (x - (v - v_reset)) / tau) v x in
       let spike := map (fun v => of_bool (v >=? v_threshold)) v in
       let v := map2 (fun spike v => v_reset * spike + (s_one - spike) * v) spike v in
       (spike, v))
    x_seq v.

Definition jit_eval_multi_step_forward_hard_reset_no_decay_input
    (x_seq : list (tensor F)) (v : tensor F) (v_threshold v_reset tau : F) :=
  jit_loop
    (fun x v =>
       let v := map2 (fun v x => v - (v - v_reset) / tau + x) v x in
       let spike := map (fun v => of_bool (v >=? v_threshold)) v in
       let v := map2 (fun spike v => v_reset * spike + (s_one - spike) * v) spike v in
       (spike, v))
    x_seq v.

Definition jit_eval_multi_step_forward_hard_reset_no_decay_input_with_v_seq
    (x_seq : list (tensor F)) (v : tensor F) (v_threshold v_reset tau : F) :=
  jit_loop_with_v_seq
    (fun x v =>
       let v := map2 (fun v x => v - (v - v_reset) / tau + x) v x in
       let spike := map (fun v => of_bool (v >=? v_threshold)) v in
       let v := map2 (fun spike v => v_reset * spike + (s_one - spike) * v) spike v in
       (spike, v))
    x_seq v.

Definition jit_eval_multi_step_forward_soft_reset_decay_input
    (x_seq : list (tensor F)) (v : tensor F) (v_threshold tau : F) :=
  jit_loop
    (fun x v =>
       let v := map2 (fun v x => v + (x - v) / tau) v x in
       let spike := map (fun v => of_bool (v >=? v_threshold)) v in
       let v := map2 (fun v spike => v - spike * v_threshold) v spike in
       (spike, v))
    x_seq v.

Definition jit_eval_multi_step_forward_soft_reset_decay_input_with_v_seq
    (x_seq : list (tensor F)) (v : tensor F) (v_threshold tau : F) :=
  jit_loop_with_v_seq
    (fun x v =>
       let v := map2 (fun v x => v + (x - v) / tau) v x in
       let spike := map (fun v => of_bool (v >=? v_threshold)) v in
       let v := map2 (fun v spike => v - spike * v_threshold) v spike in
       (spike, v))
    x_seq v.

Definition jit_eval_multi_step_forward_soft_reset_no_decay_input
    (x_seq : list (tensor F)) (v : tensor F) (v_threshold tau : F) :=
  jit_loop
    (fun x v =>
       let v := map2 (fun v x => v * (s_one - s_one / tau) + x) v x in
       let spike := map (fun v => of_bool (v >=? v_threshold)) v in
       let v := map2 (fun v spike => v - spike * v_threshold) v spike in
       (spike, v))
    x_seq v.

Definition jit_eval_multi_step_forward_soft_reset_no_decay_input_with_v_seq
    (x_seq : list (tensor F)) (v : tensor F) (v_threshold tau : F) :=
  jit_loop_with_v_seq
    (fun x v =>
       let v := map2 (fun v x => v * (s_one - s_one / tau) + x) v x in
       let spike := map (fun v => of_bool (v >=? v_threshold)) v in
       let v := map2 (fun v spike => v - spike * v_threshold) v spike in
       (spike, v))
    x_seq v.

(** The evaluation branch of [single_step_forward]. *)
Definition eval_single_step (c : config) (x v0 : tensor F) : tensor F * tensor F :=
  match v_reset (base c) with
  | None =>
      if decay_input c
      then jit_eval_single_step_forward_soft_reset_decay_input
             (v_threshold (base c)) (tau c) x v0
      else jit_eval_single_step_forward_soft_reset_no_decay_input
             (v_threshold (base c)) (tau c) x v0
  | Some r =>
      if decay_input c
      then jit_eval_single_step_forward_hard_reset_decay_input
             (v_threshold (base c)) r (tau c) x v0
      else jit_eval_single_step_forward_hard_reset_no_decay_input
             (v_threshold (base c)) r (tau c) x v0
  end.

Definition single_step_forward (c : config) (s : state F) (x : tensor F)
    : outcome (tensor F * state F) :=
  if training (base c) then
    if String.eqb (backend (base c)) "torch" then
      Returns (BaseNode.single_step_forward (methods_of c) s x)
    else if String.eqb (backend (base c)) "cupy" then Cupy
    else Raises (ValueError (backend (base c)))
  else
    let v0 := v_float_to_tensor (v s) x in
    let '(spike, v') := eval_single_step c x v0 in
    Returns (spike, {| v := MTensor v'; v_seq := v_seq s |}).

(** The evaluation branch of [multi_step_forward]. *)
Definition eval_multi_step (c : config) (s : state F) (x_seq : list (tensor F))
    (v0 : tensor F) : list (tensor F) * state F :=
  let vth := v_threshold (base c) in
  match v_reset (base c) with
  | None =>
      if decay_input c then
        if store_v_seq (base c) then
          let '(spike_seq, v', vs) :=
            jit_eval_multi_step_forward_soft_reset_decay_input_with_v_seq
              x_seq v0 vth (tau c) in
          (spike_seq, {| v := MTensor v'; v_seq := Some vs |})
        else
          let '(spike_seq, v') :=
            jit_eval_multi_step_forward_soft_reset_decay_input x_seq v0 vth (tau c) in
          (spike_seq, {| v := MTensor v'; v_seq := v_seq s |})
      else
        if store_v_seq (base c) then
          let '(spike_seq, v', vs) :=
            jit_eval_multi_step_forward_soft_reset_no_decay_input_with_v_seq
              x_seq v0 vth (tau c) in
          (spike_seq, {| v := MTensor v'; v_seq := Some vs |})
        else
          let '(spike_seq, v') :=
            jit_eval_multi_step_forward_soft_reset_no_decay_input x_seq v0 vth (tau c) in
          (spike_seq, {| v := MTensor v'; v_seq := v_seq s |})
  | Some r =>
      if decay_input c then
        if store_v_seq (base c) then
          let '(spike_seq, v', vs) :=
            jit_eval_multi_step_forward_hard_reset_decay_input_with_v_seq
              x_seq v0 vth r (tau c) in
          (spike_seq, {| v := MTensor v'; v_seq := Some vs |})
        else
          let '(spike_seq, v') :=
            jit_eval_multi_step_forward_hard_reset_decay_input x_seq v0 vth r (tau c) in
          (spike_seq, {| v := MTensor v'; v_seq := v_seq s |})
      else
        if store_v_seq (base c) then
          let '(spike_seq, v', vs) :=
            jit_eval_multi_step_forward_hard_reset_no_decay_input_with_v_seq
              x_seq v0 vth r (tau c) in
          (spike_seq, {| v := MTensor v'; v_seq := Some vs |})
        else
          let '(spike_seq, v') :=
            jit_eval_multi_step_forward_hard_reset_no_decay_input x_seq v0 vth r (tau c) in
          (spike_seq, {| v := MTensor v'; v_seq := v_seq s |})
  end.

Definition multi_step_forward (c : config) (s : state F) (x_seq : list (tensor F))
    : outcome (list (tensor F) * state F) :=
  if training (base c) then
    if String.eqb (backend (base c)) "torch" then
      BaseNode.multi_step_forward (single_step_forward c) v set_v_seq
        (store_v_seq (base c)) s x_seq
    else if String.eqb (backend (base c)) "cupy" then Cupy
    else Raises (ValueError (backend (base c)))
  else
    of_result
      (x0 <- first_step x_seq ;;
       Ok (eval_multi_step c s x_seq (v_float_to_tensor (v s) x0))).

End LIFNode.
Arguments config F : clear implicits.
End LIFNode.

(** ** SimpleBaseNode and SimpleIFNode *)

Module SimpleBaseNode.
Section SimpleBaseNode.
Context {F : Type} `{Scalar F}.
Local Open Scope scalar_scope.

Record config : Type := {
  v_threshold : F;
  v_reset : option F;          (* [None]: soft reset *)
  surrogate_function : F -> F;
  detach_reset : bool;
  step_mode : string
}.

(** [register_memory(name='v', value=0.)], whatever [v_reset] is. *)
Definition __init__ (v_threshold : F) (v_reset : option F)
    (surrogate_function : F -> F) (detach_reset : bool) (step_mode : string)
    : config * memory F :=
  ({| v_threshold := v_threshold; v_reset := v_reset;
      surrogate_function := surrogate_function; detach_reset := detach_reset;
      step_mode := step_mode |},
   MFloat s_zero).

(** [raise NotImplementedError]: a subclass supplies the charge, which
    gives the new [self.v]. *)
Definition neuronal_charge (v : memory F) (x : tensor F) : result (tensor F) :=
  Raise (NotImplementedError EmptyString).

Definition neuronal_fire (c : config) (v : tensor F) : tensor F :=
  map (fun v => surrogate_function c (v - v_threshold c)) v.

Definition neuronal_reset (c : config) (v spike : tensor F) : tensor F :=
  let spike_d := spike in
  match v_reset c with
  | None => map2 (fun v spike_d => v - v_threshold c * spike_d) v spike_d
  | Some r => map2 (fun spike_d v => spike_d * r + (s_one - spike_d) * v) spike_d v
  end.

(** [single_step_forward], with the [neuronal_charge] of the class of
    [self]; there is no [v_float_to_tensor]: the charge meets [self.v] as
    the float it is registered with at the first call. *)
Definition single_step_forward
    (self_neuronal_charge : memory F -> tensor F -> result (tensor F))
    (c : config) (v : memory F) (x : tensor F) : result (tensor F * memory F) :=
  v1 <- self_neuronal_charge v x ;;
  let spike := neuronal_fire c v1 in
  Ok (spike, MTensor (neuronal_reset c v1 spike)).
End SimpleBaseNode.
Arguments config F : clear implicits.
End SimpleBaseNode.

Module SimpleIFNode.
Section SimpleIFNode.
Context {F : Type} `{Scalar F}.
Local Open Scope scalar_scope.

(** [self.v + x]: a float [self.v] is broadcast over [x]. *)
Definition neuronal_charge (v : memory F) (x : tensor F) : result (tensor F) :=
  Ok (map2 (fun v x => v + x) (BaseNode.v_float_to_tensor v x) x).

Definition single_step_forward (c : SimpleBaseNode.config F) (v : memory F)
    (x : tensor F) : result (tensor F * memory F) :=
  SimpleBaseNode.single_step_forward neuronal_charge c v x.
End SimpleIFNode.
End SimpleIFNode.

(** ** Constructors that validate their parameters, or do not *)

Module SimpleLIFNode.
Section SimpleLIFNode.
Context {F : Type} `{Scalar F}.

Record config : Type := {
  v_threshold : F;
  v_reset : F;
  surrogate_function : F -> F;
  detach_reset : bool;
  step_mode : string;
  tau : F;
  decay_input : bool
}.

(** No assertion; [register_memory('v', 0.)]. *)
Definition __init__ (tau : F) (decay_input : bool) (v_threshold v_reset : F)
    (surrogate_function : F -> F) (detach_reset : bool) (step_mode : string)
    : result (config * memory F) :=
  Ok ({| v_threshold := v_threshold; v_reset := v_reset;
         surrogate_function := surrogate_function; detach_reset := detach_reset;
         step_mode := step_mode; tau := tau; decay_input := decay_input |},
      MFloat s_zero).

(** The attributes that [SimpleBaseNode] reads. *)
Definition base (c : config) : SimpleBaseNode.config F :=
  {| SimpleBaseNode.v_threshold := v_threshold c;
     SimpleBaseNode.v_reset := Some (v_reset c);
     SimpleBaseNode.surrogate_function := surrogate_function c;
     SimpleBaseNode.detach_reset := detach_reset c;
     SimpleBaseNode.step_mode := step_mode c |}.

(** A float [self.v] is broadcast over [x]. *)
Definition neuronal_charge (c : config) (v : memory F) (x : tensor F)
    : result (tensor F) :=
  let v := BaseNode.v_float_to_tensor v x in
  Ok (if decay_input c
      then map2 (fun v x => (v + (v_reset c - v + x) / tau c)%sc) v x
      else map2 (fun v x => (v + (v_reset c - v) / tau c + x)%sc) v x).

Definition single_step_forward (c : config) (v : memory F) (x : tensor F)
    : result (tensor F * memory F) :=
  SimpleBaseNode.single_step_forward (neuronal_charge c) (base c) v x.
End SimpleLIFNode.
Arguments config F : clear implicits.
End SimpleLIFNode.

Module QIFNode.
Section QIFNode.
Context {F : Type} `{Scalar F}.
Local Open Scope scalar_scope.
Local Open Scope string_scope.
Import BaseNode.

Record config : Type := {
  base : BaseNode.config F;
  tau : F;
  v_c : F;
  v_rest : F;
  a0 : F
}.

Definition supported_backends (c : config) : result (list string) :=
  if String.eqb (step_mode (base c)) "s" then Ok ["torch"]
  else if String.eqb (step_mode (base c)) "m" then Ok ["torch"; "cupy"]
  else Raise (ValueError (step_mode (base c))).

Definition __init__ (tau v_c a0 v_threshold v_rest : F) (v_reset : option F)
    (surrogate_function : F -> F) (detach_reset : bool)
    (step_mode backend : string) (store_v_seq : bool)
    : result (config * state F) :=
  _ <- assert (tau >? s_one) ;;
  _ <- match v_reset with
       | Some r =>
           _ <- assert (v_threshold >? r) ;;
           assert (v_rest >=? r)
       | None => Ok tt
       end ;;
  _ <- assert (a0 >? s_zero) ;;
  let self b := {| base := b; tau := tau; v_c := v_c; v_rest := v_rest; a0 := a0 |} in
  node <- BaseNode.__init__of (fun b => supported_backends (self b))
            v_threshold v_reset surrogate_function detach_reset step_mode backend
            store_v_seq ;;
  Ok (self (fst node), snd node).

(** [self.step_mode = value] on a module already constructed. *)
Definition set_step_mode (c : config) (value : string) : result config :=
  b <- BaseNode.set_step_mode (base c) value ;;
  Ok {| base := b; tau := tau c; v_c := v_c c; v_rest := v_rest c; a0 := a0 c |}.

Definition neuronal_charge (c : config) (v x : tensor F) : tensor F :=
  map2 (fun v x => v + (x + a0 c * (v - v_rest c) * (v - v_c c)) / tau c) v x.

Definition methods_of (c : config) : methods F :=
  {| m_neuronal_charge := neuronal_charge c;
     m_neuronal_fire := neuronal_fire (base c);
     m_neuronal_reset := neuronal_reset (base c) |}.

(** Inherited from [BaseNode]. *)
Definition single_step_forward (c : config) (s : state F) (x : tensor F)
    : outcome (tensor F * state F) :=
  Returns (BaseNode.single_step_forward (methods_of c) s x).

Definition multi_step_forward (c : config) (s : state F) (x_seq : list (tensor F))
    : outcome (list (tensor F) * state F) :=
  if String.eqb (backend (base c)) "torch" then
    BaseNode.multi_step_forward (single_step_forward c) v set_v_seq
        (store_v_seq (base c)) s x_seq
  else if String.eqb (backend (base c)) "cupy" then Cupy
  else Raises (ValueError (backend (base c))).
End QIFNode.
Arguments config F : clear implicits.
End QIFNode.

Module EIFNode.
Section EIFNode.
Context {F : Type} `{Scalar F}.
Local Open Scope scalar_scope.
Local Open Scope string_scope.
Import BaseNode.

Record config : Type := {
  base : BaseNode.config F;
  tau : F;
  delta_T : F;
  v_rest : F;
  theta_rh : F
}.

Definition supported_backends (c : config) : result (list string) :=
  if String.eqb (step_mode (base c)) "s" then Ok ["torch"]
  else if String.eqb (step_mode (base c)) "m" then Ok ["torch"; "cupy"]
  else Raise (ValueError (step_mode (base c))).

Definition __init__ (tau delta_T theta_rh v_threshold v_rest : F) (v_reset : option F)
    (surrogate_function : F -> F) (detach_reset : bool)
    (step_mode backend : string) (store_v_seq : bool)
    : result (config * state F) :=
  _ <- assert (tau >? s_one) ;;
  _ <- match v_reset with
       | Some r =>
           _ <- assert (v_threshold >? r) ;;
           assert (v_rest >=? r)
       | None => Ok tt
       end ;;
  _ <- assert (delta_T >? s_zero) ;;
  let self b := {| base := b; tau := tau; delta_T := delta_T; v_rest := v_rest;
                   theta_rh := theta_rh |} in
  node <- BaseNode.__init__of (fun b => supported_backends (self b))
            v_threshold v_reset surrogate_function detach_reset step_mode backend
            store_v_seq ;;
  Ok (self (fst node), snd node).
End EIFNode.
End EIFNode.

Module AdaptBaseNode.
Section AdaptBaseNode.
Context {F : Type} `{Scalar F}.
Local Open Scope scalar_scope.
Import BaseNode.

Definition jit_neuronal_adaptation (w : tensor F) (tau_w a v_rest : F)
    (v : tensor F) : tensor F :=
  map2 (fun w v => w + s_one / tau_w * (a * (v - v_rest) - w)) w v.

Definition jit_hard_reset (v w spike_d : tensor F) (v_reset b : F)
    (spike : tensor F) : tensor F * tensor F :=
  let v := map3 (fun v spike_d spike => (s_one - spike_d) * v + spike * v_reset)
             v spike_d spike in
  let w := map2 (fun w spike => w + b * spike) w spike in
  (v, w).

Definition jit_soft_reset (v w spike_d : tensor F) (v_threshold b : F)
    (spike : tensor F) : tensor F * tensor F :=
  let v := map2 (fun v spike_d => v - spike_d * v_threshold) v spike_d in
  let w := map2 (fun w spike => w + b * spike) w spike in
  (v, w).

(** The new [self.v] and [self.w]. *)
Definition neuronal_reset (c : config F) (b : F) (v w spike : tensor F)
    : tensor F * tensor F :=
  let spike_d := spike in
  match v_reset c with
  | None => jit_soft_reset v w spike_d (v_threshold c) b spike
  | Some r => jit_hard_reset v w spike_d r b spike
  end.

Definition w_float_to_tensor (m : memory F) (x : tensor F) : tensor F :=
  match m with
  | MFloat w_init => full_like x w_init
  | MTensor t => t
  end.

(** [single_step_forward], with the [neuronal_charge] of the class of
    [self], which reads [self.v], [self.w] and [x] and gives the new
    [self.v]: the spike, and the new [self.v] and [self.w]. *)
Definition single_step_forward
    (self_neuronal_charge : tensor F -> tensor F -> tensor F -> tensor F)
    (c : config F) (v_rest tau_w a b : F) (v w : memory F) (x : tensor F)
    : tensor F * (tensor F * tensor F) :=
  let v0 := v_float_to_tensor v x in
  let w0 := w_float_to_tensor w x in
  let v1 := self_neuronal_charge v0 w0 x in
  let w1 := jit_neuronal_adaptation w0 tau_w a v_rest v1 in
  let spike := neuronal_fire c v1 in
  (spike, neuronal_reset c b v1 w1 spike).
End AdaptBaseNode.
End AdaptBaseNode.

Module IzhikevichNode.
Section IzhikevichNode.
Context {F : Type} `{Scalar F}.
Local Open Scope scalar_scope.
Import BaseNode.

Record config : Type := {
  base : BaseNode.config F;
  (* AdaptBaseNode *)
  w_rest : F;
  v_rest : F;
  tau_w : F;
  a : F;
  b : F;
  (* IzhikevichNode *)
  tau : F;
  v_c : F;
  a0 : F
}.

Record state : Type := {
  base_state : BaseNode.state F;
  w : memory F
}.

Definition supported_backends (c : config) : result (list string) :=
  if String.eqb (step_mode (base c)) "s" then Ok ["torch"%string]
  else if String.eqb (step_mode (base c)) "m" then Ok ["torch"%string; "cupy"%string]
  else Raise (ValueError (step_mode (base c))).

(** [AdaptBaseNode.__init__] asserts only [isinstance(_, float)], calls
    [BaseNode.__init__], then [register_memory('w', w_rest)]. *)
Definition __init__ (tau v_c a0 v_threshold : F) (v_reset : option F)
    (v_rest w_rest tau_w a b : F)
    (surrogate_function : F -> F) (detach_reset : bool)
    (step_mode backend : string) (store_v_seq : bool)
    : result (config * state) :=
  _ <- assert (tau >? s_one) ;;
  _ <- assert (a0 >? s_zero) ;;
  let self bc := {| base := bc; w_rest := w_rest; v_rest := v_rest; tau_w := tau_w;
                    a := a; b := b; tau := tau; v_c := v_c; a0 := a0 |} in
  node <- BaseNode.__init__of (fun bc => supported_backends (self bc))
            v_threshold v_reset surrogate_function detach_reset step_mode backend
            store_v_seq ;;
  Ok (self (fst node), {| base_state := snd node; w := MFloat w_rest |}).

Definition neuronal_charge (c : config) (v w x : tensor F) : tensor F :=
  map3 (fun v w x => v + (x + a0 c * (v - v_rest c) * (v - v_c c) - w) / tau c)
       v w x.

(** Inherited from [AdaptBaseNode]. *)
Definition single_step_forward (c : config) (s : state) (x : tensor F)
    : outcome (tensor F * state) :=
  let '(spike, (v', w')) :=
    AdaptBaseNode.single_step_forward (neuronal_charge c) (base c)
      (v_rest c) (tau_w c) (a c) (b c) (v (base_state s)) (w s) x in
  Returns (spike,
           {| base_state := {| v := MTensor v'; v_seq := v_seq (base_state s) |};
              w := MTensor w' |}).

(** [self.v_seq = v_seq]. *)
Definition set_v_seq (s : state) (v_seq : list (tensor F)) : state :=
  {| base_state := BaseNode.set_v_seq (base_state s) v_seq; w := w s |}.

Definition multi_step_forward (c : config) (s : state) (x_seq : list (tensor F))
    : outcome (list (tensor F) * state) :=
  if String.eqb (backend (base c)) "torch" then
    BaseNode.multi_step_forward (single_step_forward c)
      (fun s => v (base_state s)) set_v_seq (store_v_seq (base c)) s x_seq
  else if String.eqb (backend (base c)) "cupy" then Cupy
  else Raises (ValueError (backend (base c))).
End IzhikevichNode.
Arguments config F : clear implicits.
Arguments state F : clear implicits.
End IzhikevichNode.

(** ** KLIFNode *)

(** [torch.relu]. *)
Definition relu {F : Type} `{Scalar F} (x : F) : F :=
  if (x <=? s_zero)%sc then s_zero else x.

Module KLIFNode.
Section KLIFNode.
Context {F : Type} `{Scalar F}.
Local Open Scope scalar_scope.
Local Open Scope string_scope.
Import BaseNode.

Record config : Type := {
  base : BaseNode.config F;
  scale_reset : bool;
  tau : F;
  decay_input : bool;
  k : F                        (* [nn.Parameter], 1. at construction *)
}.

Definition __init__ (scale_reset : bool) (tau : F) (decay_input : bool)
    (v_threshold : F) (v_reset : option F)
    (surrogate_function : F -> F) (detach_reset : bool)
    (step_mode backend : string) (store_v_seq : bool)
    : result (config * state F) :=
  _ <- assert (tau >? s_one) ;;
  if String.eqb backend "cupy" then
    Raise (NotImplementedError
             "The CuPy backend for the KLIF neuron has not been implemented!")
  else
    node <- BaseNode.__init__of (fun _ => MemoryModule.supported_backends)
              v_threshold v_reset surrogate_function detach_reset step_mode backend
              store_v_seq ;;
    Ok ({| base := fst node; scale_reset := scale_reset; tau := tau;
           decay_input := decay_input; k := s_one |}, snd node).

Definition neuronal_charge_decay_input (x v : tensor F) (v_reset tau k : F) : tensor F :=
  let v := map2 (fun v x => v + (x - (v - v_reset)) / tau) v x in
  map (fun v => relu (k * v)) v.

Definition neuronal_charge_no_decay_input (x v : tensor F) (v_reset tau k : F) : tensor F :=
  let v := map2 (fun v x => v - (v - v_reset) / tau + x) v x in
  map (fun v => relu (k * v)) v.

Definition neuronal_charge (c : config) (v x : tensor F) : tensor F :=
  let v_reset := match v_reset (base c) with None => s_zero | Some r => r end in
  if decay_input c
  then neuronal_charge_decay_input x v v_reset (tau c) (k c)
  else neuronal_charge_no_decay_input x v v_reset (tau c) (k c).

Definition neuronal_reset (c : config) (v spike : tensor F) : tensor F :=
  let spike_d := spike in
  if scale_reset c then
    match v_reset (base c) with
    | None =>
        map (fun v => v / k c) (jit_soft_reset v spike_d (v_threshold (base c)))
    | Some r =>
        jit_hard_reset (map (fun v => v / k c) v) spike_d r
    end
  else
    match v_reset (base c) with
    | None => jit_soft_reset v spike_d (v_threshold (base c))
    | Some r => jit_hard_reset v spike_d r
    end.

Definition methods_of (c : config) : methods F :=
  {| m_neuronal_charge := neuronal_charge c;
     m_neuronal_fire := neuronal_fire (base c);
     m_neuronal_reset := neuronal_reset c |}.

(** Inherited from [BaseNode]. *)
Definition single_step_forward (c : config) (s : state F) (x : tensor F)
    : tensor F * state F :=
  BaseNode.single_step_forward (methods_of c) s x.
End KLIFNode.
Arguments config F : clear implicits.
End KLIFNode.

(** [l[t]]. *)
Definition getitem {A : Type} (l : list A) (t : nat) : result A :=
  match nth_error l t with
  | Some a => Ok a
  | None => Raise IndexError
  end.

(** ** GatedLIFNode (layer-wise parameters, [inplane = None]) *)

Module GatedLIFNode.
Section GatedLIFNode.
Context {F : Type} `{Scalar F}.
Local Open Scope scalar_scope.

(** [torch.sigmoid], of the tensor library. *)
Variable sigmoid : F -> F.

Record config : Type := {
  T : nat;
  surrogate_function : F -> F;
  alpha : F;
  beta : F;
  gamma : F;
  tau : F;
  v_threshold : F;
  linear_decay : F;
  v_subreset : F;
  conduct : list F
}.

Record state : Type := {
  v : memory F;                (* [register_memory('v', 0.)] *)
  u : memory F                 (* [register_memory('u', 0.)] *)
}.

Definition init : state := {| v := MFloat s_zero; u := MFloat s_zero |}.

(** The new [self.u]. *)
Definition neuronal_charge (c : config) (v : memory F) (x : tensor F)
    (alpha beta conduct_t : F) : tensor F :=
  let input := map (fun x => x * (s_one - beta * (s_one - sigmoid conduct_t))) x in
  map2 (fun v input =>
          ((s_one - alpha * (s_one - sigmoid (tau c))) * v
           - (s_one - alpha) * sigmoid (linear_decay c))
          + input)
       (BaseNode.v_float_to_tensor v x) input.

(** The new [self.u]. *)
Definition neuronal_reset (c : config) (u : tensor F) (v : memory F)
    (spike : tensor F) (alpha gamma : F) : tensor F :=
  map3 (fun u v spike =>
          u - (s_one - alpha * (s_one - sigmoid (tau c))) * v * gamma * spike
            - (s_one - gamma) * sigmoid (v_subreset c) * spike)
       u (BaseNode.v_float_to_tensor v u) spike.

Definition neuronal_fire (c : config) (u : tensor F) : tensor F :=
  map (fun u => surrogate_function c (u - sigmoid (v_threshold c))) u.

(** The body of [for t in range(self.T)] over the remaining indices. *)
Fixpoint loop (c : config) (x_seq : list (tensor F)) (alpha beta gamma : F)
    (ts : list nat) (s : state) (spike : tensor F) (y_seq : list (tensor F))
    : result (state * list (tensor F)) :=
  match ts with
  | [] => Ok (s, y_seq)
  | t :: ts' =>
      x <- getitem x_seq t ;;
      conduct_t <- getitem (conduct c) t ;;
      let u1 := neuronal_charge c (v s) x alpha beta conduct_t in
      let u2 := neuronal_reset c u1 (v s) spike alpha gamma in
      let spike := neuronal_fire c u2 in
      loop c x_seq alpha beta gamma ts'
        {| v := MTensor u2; u := MTensor u2 |} spike (y_seq ++ [spike])
  end.

Definition multi_step_forward (c : config) (s : state) (x_seq : list (tensor F))
    : result (list (tensor F) * state) :=
  let alpha := sigmoid (alpha c) in
  let beta := sigmoid (beta c) in
  let gamma := sigmoid (gamma c) in
  let spike := zeros_like (hd [] x_seq) in
  r <- loop c x_seq alpha beta gamma (seq 0 (T c)) s spike [] ;;
  y <- stack (snd r) ;;
  Ok (y, fst r).

(** One step in the order the specification gives: charge, fire, then
    reset by the spike just fired. *)
Definition step_charge_fire_reset (c : config) (s : state) (x : tensor F)
    (conduct_t : F) : tensor F * state :=
  let alpha := sigmoid (alpha c) in
  let beta := sigmoid (beta c) in
  let gamma := sigmoid (gamma c) in
  let u1 := neuronal_charge c (v s) x alpha beta conduct_t in
  let spike := neuronal_fire c u1 in
  let u2 := neuronal_reset c u1 (v s) spike alpha gamma in
  (spike, {| v := MTensor u2; u := MTensor u2 |}).
End GatedLIFNode.
Arguments config F : clear implicits.
Arguments state F : clear implicits.
End GatedLIFNode.

(** [-x]: the product by [-1.] changes the sign and nothing else. *)
Definition neg {F : Type} `{Scalar F} (x : F) : F := (s_of_int (-1) * x)%sc.

(** ** DSR: the rate-coded backward passes *)

(** The sum over the first axis of a [T x N] tensor, and of a vector. *)
Definition sum0 {F : Type} `{Scalar F} (rows : list (tensor F)) : tensor F :=
  match rows with
  | [] => []
  | r :: rows' => fold_left (map2 s_add) rows' r
  end.

Definition sum_all {F : Type} `{Scalar F} (t : tensor F) : F :=
  fold_left s_add t s_zero.

(** [torch.mean(t, 0)]: the sum over the first axis, from the first row
    on, divided by the number of rows.  PyTorch may sum in another order
    and rounds in the precision of the tensor: this is its value in exact
    arithmetic, and in [float] wherever the sums are exact. *)
Definition mean0 {F : Type} `{Scalar F} (rows : list (tensor F)) : tensor F :=
  map (fun a => (a / s_of_int (Z.of_nat (List.length rows)))%sc) (sum0 rows).

Module DSRIFNode.
Section DSRIFNode.
Context {F : Type} `{Scalar F}.
Local Open Scope scalar_scope.

(** [DSRIFFunction.backward] on one device: [(input_grad, v_threshold_grad)]. *)
Definition backward (inp : list (tensor F)) (T : nat) (v_threshold : F)
    (v_threshold_grad_scaling : F) (grad_output : list (tensor F))
    : list (tensor F) * F :=
  let T_ := s_of_int (Z.of_nat T) in
  let input_rate_coding := mean0 inp in
  let grad_output_coding := map (fun g => g * T_) (mean0 grad_output) in
  let input_grad :=
    map2 (fun g r => if (r <? s_zero) || (r >? v_threshold) then s_zero else g)
         grad_output_coding input_rate_coding in
  let input_grad := repeat (map (fun g => g / T_) input_grad) T in
  let v_threshold_grad :=
    map2 (fun g r => if r <=? v_threshold then s_zero else g)
         grad_output_coding input_rate_coding in
  let v_threshold_grad := sum_all v_threshold_grad * v_threshold_grad_scaling in
  (input_grad, v_threshold_grad).

Record config : Type := {
  T : nat;
  v_threshold : F;             (* a learnable tensor of one element *)
  alpha : F;
  v_threshold_lower_bound : F;
  v_threshold_grad_scaling : F;
  step_mode : string;
  backend : string
}.

(** The [isinstance] assertions hold by typing. *)
Definition __init__ (T : nat) (v_threshold alpha : F) (v_threshold_training : bool)
    (v_threshold_grad_scaling v_threshold_lower_bound : F)
    (step_mode backend : string) : result config :=
  _ <- assert (v_threshold >=? v_threshold_lower_bound) ;;
  _ <- assert ((alpha >? s_zero) && (alpha <=? s_one)) ;;
  _ <- assert (v_threshold_lower_bound >? s_zero) ;;
  _ <- assert (String.eqb step_mode "m") ;;
  Ok {| T := T; v_threshold := v_threshold; alpha := alpha;
        v_threshold_lower_bound := v_threshold_lower_bound;
        v_threshold_grad_scaling := v_threshold_grad_scaling;
        step_mode := step_mode; backend := backend |}.

(** The loop of [DSRIFFunction.forward], from the potential
    [mem_potential]: the potential left and the list [spikes].  The two
    casts [.float()] of the spike are not modelled: the spike is
    [1[m >= alpha * v_threshold] * v_threshold] in the arithmetic of [F],
    which is what the code computes on [torch.float32] data read in [F],
    and in exact arithmetic; on [torch.float64] data the code rounds the
    spike to [float32]. *)
Definition forward_loop (inp : list (tensor F)) (v_threshold alpha : F)
    (mem_potential : tensor F) : tensor F * list (tensor F) :=
  fold_left
    (fun '(mem_potential, spikes) x =>
       let mem_potential := map2 (fun m x => m + x) mem_potential x in
       let spike :=
         map (fun m => of_bool (m >=? alpha * v_threshold) * v_threshold)
             mem_potential in
       let mem_potential := map2 (fun m s => m - s) mem_potential spike in
       (mem_potential, spikes ++ [spike]))
    inp (mem_potential, []).

Definition forward (inp : list (tensor F)) (T : nat)
    (v_threshold alpha v_threshold_grad_scaling : F) : result (list (tensor F)) :=
  x0 <- first_step inp ;;
  stack (snd (forward_loop inp v_threshold alpha (zeros_like x0))).

(** [self.v_threshold.copy_(...)], then [DSRIFFunction.apply]: the output
    and the module with its threshold updated. *)
Definition multi_step_forward (c : config) (x_seq : list (tensor F))
    : result (list (tensor F) * config) :=
  let v_threshold :=
    relu (v_threshold c - v_threshold_lower_bound c) + v_threshold_lower_bound c in
  let c := {| T := T c; v_threshold := v_threshold; alpha := alpha c;
              v_threshold_lower_bound := v_threshold_lower_bound c;
              v_threshold_grad_scaling := v_threshold_grad_scaling c;
              step_mode := step_mode c; backend := backend c |} in
  y_seq <- forward x_seq (T c) v_threshold (alpha c) (v_threshold_grad_scaling c) ;;
  Ok (y_seq, c).
End DSRIFNode.
Arguments config F : clear implicits.
End DSRIFNode.

Module DSRLIFNode.
Section DSRLIFNode.
Context {F : Type} `{Scalar F}.
Local Open Scope scalar_scope.

(** [math.exp]. *)
Variable math_exp : F -> F.

(** The weights are computed in the arithmetic of [F]; the code builds
    them with [torch.tensor([...])], in [float32]. *)
Definition weight_rate_spikes (data : list (tensor F)) (tau delta_t : F) : tensor F :=
  let T := List.length data in
  let weight :=
    map (fun ii =>
           math_exp (s_of_int (-1) / tau
                     * (delta_t * s_of_int (Z.of_nat T)
                        - s_of_int (Z.of_nat ii) * delta_t)))
        (seq 1 T) in
  let weighted := map2 (fun w row => map (fun d => w * d) row) weight data in
  map (fun a => a / sum_all weight) (sum0 weighted).

(** [DSRLIFFunction.backward] on one device: [(input_grad, v_threshold_grad)]. *)
Definition backward (inp : list (tensor F)) (T : nat) (v_threshold tau delta_t : F)
    (v_threshold_grad_scaling : F) (grad_output : list (tensor F))
    : list (tensor F) * F :=
  let T_ := s_of_int (Z.of_nat T) in
  let input_rate_coding := weight_rate_spikes inp tau delta_t in
  let grad_output_coding :=
    map (fun g => g * T_) (weight_rate_spikes grad_output tau delta_t) in
  let indexes :=
    map (fun r => (r >? s_zero) && (r <? v_threshold / delta_t * tau))
        input_rate_coding in
  let input_grad :=
    map2 (fun (i : bool) g => if i then g / tau else s_zero)
         indexes grad_output_coding in
  let input_grad := repeat (map (fun g => g / T_) input_grad) T in
  let v_threshold_grad :=
    map2 (fun g r => if r <=? v_threshold / delta_t * tau then s_zero else g)
         grad_output_coding input_rate_coding in
  let v_threshold_grad :=
    sum_all v_threshold_grad * delta_t * v_threshold_grad_scaling in
  (input_grad, v_threshold_grad).

Record config : Type := {
  T : nat;
  v_threshold : F;             (* a learnable tensor of one element *)
  tau : F;
  delta_t : F;
  alpha : F;
  v_threshold_lower_bound : F;
  v_threshold_grad_scaling : F;
  step_mode : string;
  backend : string
}.

(** The [isinstance] assertions hold by typing. *)
Definition __init__ (T : nat) (v_threshold tau delta_t alpha : F)
    (v_threshold_training : bool)
    (v_threshold_grad_scaling v_threshold_lower_bound : F)
    (step_mode backend : string) : result config :=
  _ <- assert (v_threshold >=? v_threshold_lower_bound) ;;
  _ <- assert ((alpha >? s_zero) && (alpha <=? s_one)) ;;
  _ <- assert (v_threshold_lower_bound >? s_zero) ;;
  _ <- assert (String.eqb step_mode "m") ;;
  Ok {| T := T; v_threshold := v_threshold; tau := tau; delta_t := delta_t;
        alpha := alpha; v_threshold_lower_bound := v_threshold_lower_bound;
        v_threshold_grad_scaling := v_threshold_grad_scaling;
        step_mode := step_mode; backend := backend |}.

(** The loop of [DSRLIFFunction.forward], from the potential
    [mem_potential]: the potential left and the list [spikes].  As in
    [DSRIFNode.forward_loop], the casts [.float()] of the spike are not
    modelled. *)
Definition forward_loop (inp : list (tensor F)) (v_threshold tau delta_t alpha : F)
    (mem_potential : tensor F) : tensor F * list (tensor F) :=
  let beta := math_exp (neg delta_t / tau) in
  fold_left
    (fun '(mem_potential, spikes) x =>
       let mem_potential :=
         map2 (fun m x => beta * m + (s_one - beta) * x) mem_potential x in
       let spike :=
         map (fun m => of_bool (m >=? alpha * v_threshold) * v_threshold)
             mem_potential in
       let mem_potential := map2 (fun m s => m - s) mem_potential spike in
       (mem_potential, spikes ++ [map (fun s => s / delta_t) spike]))
    inp (mem_potential, []).

Definition forward (inp : list (tensor F)) (T : nat)
    (v_threshold tau delta_t alpha v_threshold_grad_scaling : F)
    : result (list (tensor F)) :=
  x0 <- first_step inp ;;
  stack (snd (forward_loop inp v_threshold tau delta_t alpha (zeros_like x0))).

(** [self.v_threshold.copy_(...)], then [DSRLIFFunction.apply]: the output
    and the module with its threshold updated. *)
Definition multi_step_forward (c : config) (x_seq : list (tensor F))
    : result (list (tensor F) * config) :=
  let v_threshold :=
    relu (v_threshold c - v_threshold_lower_bound c) + v_threshold_lower_bound c in
  let c := {| T := T c; v_threshold := v_threshold; tau := tau c;
              delta_t := delta_t c; alpha := alpha c;
              v_threshold_lower_bound := v_threshold_lower_bound c;
              v_threshold_grad_scaling := v_threshold_grad_scaling c;
              step_mode := step_mode c; backend := backend c |} in
  y_seq <- forward x_seq (T c) v_threshold (tau c) (delta_t c) (alpha c)
             (v_threshold_grad_scaling c) ;;
  Ok (y_seq, c).
End DSRLIFNode.
Arguments config F : clear implicits.
End DSRLIFNode.

(** ** Parallel spiking neurons: SlidingPSN *)

(** [l[a:b]] for [0 <= a]: the elements of index [a] to [b - 1] that [l]
    has. *)
Definition slice {A : Type} (l : list A) (a b : nat) : list A :=
  firstn (b - a) (skipn a l).

(** [row[a:b] = src] on a row of a tensor: [src] has as many elements as
    the slice, or one element, which is broadcast. *)
Definition setslice {A : Type} (row : list A) (a b : nat) (src : list A)
    : result (list A) :=
  let n := List.length (slice row a b) in
  if Nat.eqb (List.length src) n then Ok (firstn a row ++ src ++ skipn b row)
  else
    match src with
    | [s] => Ok (firstn a row ++ repeat s n ++ skipn b row)
    | _ => Raise RuntimeError
    end.

(** [weight @ x] for a matrix [weight] and the rows [x]: row [i] is the
    sum over [j] of [weight[i][j] * x[j]]; the order of the additions is
    the library's. *)
Definition matmul {F : Type} `{Scalar F} (weight : list (tensor F))
    (x : list (tensor F)) : list (tensor F) :=
  map (fun row => sum0 (map2 (fun w x_t => map (fun a => (w * a)%sc) x_t) row x))
      weight.

Module SlidingPSN.
Section SlidingPSN.
Context {F : Type} `{Scalar F}.
Local Open Scope scalar_scope.
Local Open Scope string_scope.

Record config : Type := {
  k : nat;
  weight : tensor F;           (* [nn.Parameter] of [k] elements *)
  bias : F;                    (* [nn.Parameter], [-1.] at construction *)
  surrogate_function : F -> F;
  step_mode : string;
  backend : string
}.

Definition supported_backends : list string := ["gemm"; "conv"].

(** [weight = torch.ones([k])], then [weight[i] = weight[i + 1] / 2.] for
    [i] from [k - 2] down to [0]. *)
Definition exp_init_weight (k : nat) : tensor F :=
  fold_left
    (fun weight i => setitem weight i (nth (i + 1)%nat weight s_zero / s_of_int 2))
    (rev (seq 0 (k - 1)%nat)) (repeat s_one k).

(** [__init__]; [kaiming] is the sample that [nn.init.kaiming_uniform_]
    draws when [exp_init] is false.  The queue of a new module is empty. *)
Definition __init__ (k : nat) (exp_init : bool) (kaiming : tensor F)
    (surrogate_function : F -> F) (step_mode backend : string)
    : config * list (tensor F) :=
  ({| k := k;
      weight := if exp_init then exp_init_weight k else kaiming;
      bias := s_of_int (-1);
      surrogate_function := surrogate_function;
      step_mode := step_mode; backend := backend |},
   []).

Definition gen_gemm_weight (c : config) (T : nat) : result (list (tensor F)) :=
  fold_left
    (fun acc i =>
       gemm <- acc ;;
       let end_ := (i + 1)%nat in
       let start := Nat.max 0 (i + 1 - k c)%nat in
       let length := Nat.min (end_ - start)%nat (k c) in
       row <- setslice (nth i gemm []) start end_
                (slice (weight c) (k c - length)%nat (k c)) ;;
       Ok (setitem gemm i row))
    (seq 0 T) (Ok (repeat (repeat s_zero T) T)).

(** The queue after [self.queue.append(x.flatten())] and the [pop(0)]
    that keeps it at [k] elements. *)
Definition push (c : config) (queue : list (tensor F)) (x : tensor F)
    : list (tensor F) :=
  let queue := (queue ++ [x])%list in
  if Nat.ltb (k c) (List.length queue) then tl queue else queue.

(** The state is the queue; it keeps the new element if [torch.stack]
    raises. *)
Definition single_step_forward (c : config) (queue : list (tensor F))
    (x : tensor F) : outcome (tensor F * list (tensor F)) :=
  let queue := push c queue x in
  let weight := slice (weight c) (k c - List.length queue)%nat (k c) in
  of_result
    (x_seq <- stack queue ;;
     let h := sum0 (map2 (fun w x_t => map (fun a => w * a) x_t) weight x_seq) in
     Ok (map (fun h => surrogate_function c (h + bias c)) h, queue)).

(** [F.pad(x, pad=(k - 1, 0))] along the time axis, then
    [F.conv1d(x, weight.view(1, 1, -1), stride=1)]: row [t] of the result
    is the sum over [i < k] of [weight[i]] times row [t + i] of the padded
    input; a kernel of no element is refused, and so is an input of no
    step, which is shorter after the padding than the kernel. *)
Definition pad_conv1d (c : config) (x_seq : list (tensor F))
    : result (list (tensor F)) :=
  if Nat.eqb (k c) 0 || Nat.eqb (List.length x_seq) 0 then Raise RuntimeError
  else
    let padded := (repeat (zeros_like (hd [] x_seq)) (k c - 1)%nat ++ x_seq)%list in
    Ok (map (fun t =>
               sum0 (map2 (fun w x_t => map (fun a => w * a) x_t)
                          (weight c) (skipn t padded)))
            (seq 0 (List.length x_seq))).

Definition multi_step_forward (c : config) (x_seq : list (tensor F))
    : result (list (tensor F)) :=
  if String.eqb (backend c) "gemm" then
    weight <- gen_gemm_weight c (List.length x_seq) ;;
    let h_seq := map (map (fun h => bias c + h)) (matmul weight x_seq) in
    Ok (map (map (surrogate_function c)) h_seq)
  else if String.eqb (backend c) "conv" then
    x_seq <- pad_conv1d c x_seq ;;
    Ok (map (map (fun h => surrogate_function c (h + bias c))) x_seq)
  else Raise (NotImplementedError (backend c)).
End SlidingPSN.
Arguments config F : clear implicits.
End SlidingPSN.

(** ** Parallel spiking neurons: PSN and MaskedPSN *)

(** [f i a] for every element [a] of index [i]. *)
Definition mapi {A B : Type} (f : nat -> A -> B) (l : list A) : list B :=
  map (fun '(i, a) => f i a) (combine (seq 0 (List.length l)) l).

(** [torch.tril(m)] keeps the entries [(i, j)] with [j <= i];
    [torch.triu(m, diagonal)] those with [j - i >= diagonal]; the others
    are [0]. *)
Definition tril {F : Type} `{Scalar F} (m : list (tensor F)) : list (tensor F) :=
  mapi (fun i row => mapi (fun j a => if (j <=? i)%nat then a else s_zero) row) m.

Definition triu {F : Type} `{Scalar F} (m : list (tensor F)) (diagonal : Z)
    : list (tensor F) :=
  mapi (fun i row =>
          mapi (fun j a =>
                  if (diagonal <=? Z.of_nat j - Z.of_nat i)%Z then a else s_zero)
               row)
       m.

(** [torch.addmm(bias, weight, x)] for a bias of shape [[T, 1]]: row [i]
    is [bias[i]] added to every element of row [i] of [weight @ x]. *)
Definition addmm {F : Type} `{Scalar F} (bias : tensor F)
    (weight x : list (tensor F)) : list (tensor F) :=
  map2 (fun b h => map (fun a => (b + a)%sc) h) bias (matmul weight x).

Module PSN.
Section PSN.
Context {F : Type} `{Scalar F}.
Local Open Scope scalar_scope.

Record config : Type := {
  T : nat;
  surrogate_function : F -> F;
  weight : list (tensor F);    (* [nn.Parameter] of shape [[T, T]] *)
  bias : tensor F              (* [nn.Parameter] of shape [[T, 1]] *)
}.

(** [__init__]; [kaiming] is the sample that [nn.init.kaiming_uniform_]
    draws for the weight. *)
Definition __init__ (T : nat) (surrogate_function : F -> F)
    (kaiming : list (tensor F)) : config :=
  {| T := T; surrogate_function := surrogate_function;
     weight := kaiming; bias := repeat (s_of_int (-1)) T |}.

(** The matrix product refuses an input that has not [T] steps. *)
Definition forward (c : config) (x_seq : list (tensor F)) : result (list (tensor F)) :=
  if Nat.eqb (List.length x_seq) (T c) then
    let h_seq := addmm (bias c) (weight c) x_seq in
    Ok (map (map (surrogate_function c)) h_seq)
  else Raise RuntimeError.
End PSN.
Arguments config F : clear implicits.
End PSN.

Module MaskedPSN.
Section MaskedPSN.
Context {F : Type} `{Scalar F}.
Local Open Scope scalar_scope.

Record config : Type := {
  k : nat;
  T : nat;
  lambda_ : F;                 (* the buffer [_lambda_] *)
  surrogate_function : F -> F;
  step_mode : string;
  weight : list (tensor F);    (* [nn.Parameter] of shape [[T, T]] *)
  bias : tensor F              (* [nn.Parameter] of shape [[T, 1]] *)
}.

(** The buffers [mask1] and [mask0] that [__init__] registers. *)
Definition mask1 (c : config) : list (tensor F) := repeat (repeat s_one (T c)) (T c).

Definition mask0 (c : config) : list (tensor F) :=
  map2 (map2 (fun a b => a * b))
       (tril (mask1 c)) (triu (mask1 c) (- (Z.of_nat (k c) - 1))).

Definition __init__ (k T : nat) (lambda_init : F) (surrogate_function : F -> F)
    (step_mode : string) (kaiming : list (tensor F)) : config :=
  {| k := k; T := T; lambda_ := lambda_init;
     surrogate_function := surrogate_function; step_mode := step_mode;
     weight := kaiming; bias := repeat (s_of_int (-1)) T |}.

Definition gen_masked_weight (lambda_ : F) (mask0 mask1 weight : list (tensor F))
    : list (tensor F) :=
  map3 (map3 (fun m0 m1 w => (lambda_ * m0 + (s_one - lambda_) * m1) * w))
       mask0 mask1 weight.

Definition masked_weight (c : config) : list (tensor F) :=
  if lambda_ c >=? s_one then map2 (map2 (fun w m0 => w * m0)) (weight c) (mask0 c)
  else gen_masked_weight (lambda_ c) (mask0 c) (mask1 c) (weight c).

Definition multi_step_forward (c : config) (x_seq : list (tensor F))
    : result (list (tensor F)) :=
  _ <- assert (Nat.eqb (List.length x_seq) (T c)) ;;
  let h_seq := addmm (bias c) (masked_weight c) x_seq in
  Ok (map (map (surrogate_function c)) h_seq).
End MaskedPSN.
Arguments config F : clear implicits.
End MaskedPSN.

(** ** OTTTLIFNode *)

Module OTTTLIFNode.
Section OTTTLIFNode.
Context {F : Type} `{Scalar F}.
Local Open Scope scalar_scope.
Local Open Scope string_scope.
Import BaseNode.

(** [v] and [trace] are buffers registered at the first use:
    [None] while [hasattr] is false. *)
Record state : Type := {
  v : option (tensor F);
  trace : option (tensor F)
}.

(** What [single_step_forward] returns: a tensor, or the Python list
    [[spike, self.trace]]. *)
Inductive output : Type :=
  | Spike (spike : tensor F)
  | SpikeAndTrace (spike trace : tensor F).

Definition supported_backends (c : LIFNode.config F) : result (list string) :=
  if String.eqb (step_mode (LIFNode.base c)) "s" then Ok ["torch"]
  else Raise (ValueError (step_mode (LIFNode.base c))).

Definition __init__ (tau : F) (decay_input : bool) (v_threshold : F)
    (v_reset : option F) (surrogate_function : F -> F) (detach_reset : bool)
    (step_mode backend : string) (store_v_seq : bool)
    : result (LIFNode.config F * state) :=
  r <- LIFNode.__init__of supported_backends tau decay_input v_threshold v_reset
         surrogate_function detach_reset step_mode backend store_v_seq ;;
  _ <- assert (String.eqb step_mode "s") ;;
  Ok (fst r, {| v := None; trace := None |}).

(** [self.v = self.v.detach()], then as [LIFNode.neuronal_charge]. *)
Definition neuronal_charge (c : LIFNode.config F) (v x : tensor F) : tensor F :=
  LIFNode.neuronal_charge c v x.

Definition track_trace (spike trace : tensor F) (tau : F) : tensor F :=
  map2 (fun trace spike => trace * (s_one - s_one / tau) + spike) trace spike.

Definition single_step_forward (c : LIFNode.config F) (s : state) (x : tensor F)
    : outcome (output * state) :=
  let b := LIFNode.base c in
  let v0 :=
    match v s with
    | Some v => v
    | None =>
        match v_reset b with
        | None => zeros_like x
        | Some r => map (fun o => o * r) (ones_like x)
        end
    end in
  if training b then
    let trace0 :=
      match trace s with
      | Some tr => tr
      | None => zeros_like x
      end in
    if String.eqb (backend b) "torch" then
      let v1 := neuronal_charge c v0 x in
      let spike := neuronal_fire b v1 in
      let v2 := neuronal_reset b v1 spike in
      let trace1 := track_trace spike trace0 (LIFNode.tau c) in
      Returns (SpikeAndTrace spike trace1, {| v := Some v2; trace := Some trace1 |})
    else Raises (ValueError (backend b))
  else
    let '(spike, v') := LIFNode.eval_single_step c x v0 in
    Returns (Spike spike, {| v := Some v'; trace := trace s |}).
End OTTTLIFNode.
Arguments state F : clear implicits.
Arguments output F : clear implicits.
End OTTTLIFNode.

(** ** SLTTLIFNode *)

Module SLTTLIFNode.
Section SLTTLIFNode.
Context {F : Type} `{Scalar F}.
Local Open Scope scalar_scope.
Local Open Scope string_scope.
Import BaseNode.

Definition supported_backends (c : LIFNode.config F) : result (list string) :=
  if String.eqb (step_mode (LIFNode.base c)) "s" then Ok ["torch"]
  else Raise (ValueError (step_mode (LIFNode.base c))).

(** [v] is a buffer registered at the first use: [None] while [hasattr]
    is false. *)
Definition __init__ (tau : F) (decay_input : bool) (v_threshold : F)
    (v_reset : option F) (surrogate_function : F -> F) (detach_reset : bool)
    (step_mode backend : string) (store_v_seq : bool)
    : result (LIFNode.config F * option (tensor F)) :=
  r <- LIFNode.__init__of supported_backends tau decay_input v_threshold v_reset
         surrogate_function detach_reset step_mode backend store_v_seq ;;
  _ <- assert (String.eqb step_mode "s") ;;
  Ok (fst r, None).

(** [self.v = self.v.detach()], then as [LIFNode.neuronal_charge]. *)
Definition neuronal_charge (c : LIFNode.config F) (v x : tensor F) : tensor F :=
  LIFNode.neuronal_charge c v x.

Definition single_step_forward (c : LIFNode.config F) (v : option (tensor F))
    (x : tensor F) : outcome (tensor F * option (tensor F)) :=
  let b := LIFNode.base c in
  let v0 :=
    match v with
    | Some v => v
    | None =>
        match v_reset b with
        | None => zeros_like x
        | Some r => map (fun o => o * r) (ones_like x)
        end
    end in
  if training b then
    if String.eqb (backend b) "torch" then
      let v1 := neuronal_charge c v0 x in
      let spike := neuronal_fire b v1 in
      let v2 := neuronal_reset b v1 spike in
      Returns (spike, Some v2)
    else Raises (ValueError (backend b))
  else
    let '(spike, v') := LIFNode.eval_single_step c x v0 in
    Returns (spike, Some v').
End SLTTLIFNode.
End SLTTLIFNode.

(** ** CLIFNode *)

Module CLIFNode.
Section CLIFNode.
Context {F : Type} `{Scalar F}.
Local Open Scope scalar_scope.

Record config : Type := {
  base : BaseNode.config F;
  c_decay : F;
  v_decay : F
}.

Record state : Type := {
  v : memory F;
  c : memory F                 (* [register_memory('c', 0.)] *)
}.

(** [super().__init__(v_threshold, v_reset, surrogate_function)]: the
    other arguments of [BaseNode.__init__] at their defaults. *)
Definition __init__ (c_decay v_decay v_threshold : F) (v_reset : option F)
    (surrogate_function : F -> F) : result (config * state) :=
  node <- BaseNode.__init__of (fun _ => MemoryModule.supported_backends)
            v_threshold v_reset surrogate_function false "s" "torch" false ;;
  Ok ({| base := fst node; c_decay := c_decay; v_decay := v_decay |},
      {| v := BaseNode.v (snd node); c := MFloat s_zero |}).

(** The new [self.c] and the new [self.v]. *)
Definition neuronal_charge (cfg : config) (v c x : tensor F) : tensor F * tensor F :=
  let c := map2 (fun c x => c * c_decay cfg + x) c x in
  let v := map2 (fun v c => v * v_decay cfg + c) v c in
  (c, v).

Definition c_float_to_tensor (m : memory F) (x : tensor F) : tensor F :=
  match m with
  | MFloat c_init => full_like x c_init
  | MTensor t => t
  end.

Definition single_step_forward (cfg : config) (s : state) (x : tensor F)
    : tensor F * state :=
  let v0 := BaseNode.v_float_to_tensor (v s) x in
  let c0 := c_float_to_tensor (c s) x in
  let '(c1, v1) := neuronal_charge cfg v0 c0 x in
  let spike := BaseNode.neuronal_fire (base cfg) v1 in
  let v2 := BaseNode.neuronal_reset (base cfg) v1 spike in
  (spike, {| v := MTensor v2; c := MTensor c1 |}).

(** The body of [for t in range(T)], over the inputs still to come, with
    the list [spike_seq] built so far. *)
Fixpoint multi_step_loop (cfg : config) (s : state) (x_seq : list (tensor F))
    (spike_seq : list (tensor F)) : state * list (tensor F) :=
  match x_seq with
  | [] => (s, spike_seq)
  | x :: x_seq' =>
      let '(spike, s') := single_step_forward cfg s x in
      multi_step_loop cfg s' x_seq' (spike_seq ++ [spike])
  end.

Definition multi_step_forward (cfg : config) (s : state) (x_seq : list (tensor F))
    : result (list (tensor F) * state) :=
  let '(s', spike_seq) := multi_step_loop cfg s x_seq [] in
  y <- stack spike_seq ;;
  Ok (y, s').
End CLIFNode.
Arguments config F : clear implicits.
Arguments state F : clear implicits.
End CLIFNode.

(** ** Non-spiking neurons *)

(** [torch.max] and [torch.min] of two elements of a reduction: a NaN (the
    one value that is not [==] to itself) wins; of two equal values the
    first is kept.  [x.abs()], up to the sign of a zero: the code only
    compares it. *)
Definition s_max {F : Type} `{Scalar F} (a b : F) : F :=
  if (a ==? a)%sc then if (b ==? b)%sc then if (a <? b)%sc then b else a else b
  else a.

Definition s_min {F : Type} `{Scalar F} (a b : F) : F :=
  if (a ==? a)%sc then if (b ==? b)%sc then if (b <? a)%sc then b else a else b
  else a.

Definition s_abs {F : Type} `{Scalar F} (x : F) : F :=
  if (x <? s_zero)%sc then neg x else x.

(** [torch.max(rows, 0).values] and [torch.min(rows, 0).values]. *)
Definition max0 {F : Type} `{Scalar F} (rows : list (tensor F)) : tensor F :=
  match rows with
  | [] => []
  | r :: rows' => fold_left (map2 s_max) rows' r
  end.

Definition min0 {F : Type} `{Scalar F} (rows : list (tensor F)) : tensor F :=
  match rows with
  | [] => []
  | r :: rows' => fold_left (map2 s_min) rows' r
  end.

(** [l[-1]]. *)
Definition last_item {A : Type} (l : list A) : result A :=
  match rev l with
  | [] => Raise IndexError
  | a :: _ => Ok a
  end.

Module NonSpikingBaseNode.
Section NonSpikingBaseNode.
Context {F : Type} `{Scalar F}.
Local Open Scope scalar_scope.

(** [raise NotImplementedError]: a subclass supplies the charge, which
    gives the new [self.v]. *)
Definition neuronal_charge (v x : tensor F) : result (tensor F) :=
  Raise (NotImplementedError EmptyString).

(** The body of [for t in range(T)], over the inputs still to come, with
    the list [v_seq] built so far. *)
Fixpoint charge_loop (self_neuronal_charge : tensor F -> tensor F -> result (tensor F))
    (v : tensor F) (x_seq v_seq : list (tensor F)) : result (list (tensor F)) :=
  match x_seq with
  | [] => Ok v_seq
  | x :: x_seq' =>
      v <- self_neuronal_charge v x ;;
      charge_loop self_neuronal_charge v x_seq' (v_seq ++ [v])%list
  end.

(** [forward], with the [neuronal_charge] of the class of [self];
    [self.v] is set anew at each call. *)
Definition forward (self_neuronal_charge : tensor F -> tensor F -> result (tensor F))
    (decode : string) (x_seq : list (tensor F)) : result (tensor F) :=
  x0 <- first_step x_seq ;;
  v_seq <- charge_loop self_neuronal_charge (full_like x0 s_zero) x_seq [] ;;
  if String.eqb decode "max-mem"%string then
    v_stack <- stack v_seq ;;
    Ok (max0 v_stack)
  else if String.eqb decode "max-abs-mem"%string then
    v_stack <- stack v_seq ;;
    let max_mem := max0 v_stack in
    let min_mem := min0 v_stack in
    Ok (map2 (fun max_mem min_mem =>
                max_mem * of_bool (s_abs max_mem >? s_abs min_mem)
                + min_mem * of_bool (s_abs max_mem <=? s_abs min_mem))
             max_mem min_mem)
  else if String.eqb decode "mean-mem"%string then
    v_stack <- stack v_seq ;;
    Ok (mean0 v_stack)
  else last_item v_seq.
End NonSpikingBaseNode.
End NonSpikingBaseNode.

Module NonSpikingIFNode.
Section NonSpikingIFNode.
Context {F : Type} `{Scalar F}.
Local Open Scope scalar_scope.

Definition neuronal_charge (v x : tensor F) : result (tensor F) :=
  Ok (map2 (fun v x => v + x) v x).

Definition forward (decode : string) (x_seq : list (tensor F)) : result (tensor F) :=
  NonSpikingBaseNode.forward neuronal_charge decode x_seq.
End NonSpikingIFNode.
End NonSpikingIFNode.

Module NonSpikingLIFNode.
Section NonSpikingLIFNode.
Context {F : Type} `{Scalar F}.
Local Open Scope scalar_scope.

(** [__init__] stores [tau] and checks nothing. *)
Definition neuronal_charge (tau : F) (v x : tensor F) : result (tensor F) :=
  Ok (map2 (fun v x => v + (x - v) / tau) v x).

Definition forward (tau : F) (decode : string) (x_seq : list (tensor F))
    : result (tensor F) :=
  NonSpikingBaseNode.forward (neuronal_charge tau) decode x_seq.
End NonSpikingLIFNode.
End NonSpikingLIFNode.

(** ** Vocabulary of the statements *)

(** Calls of a [single_step_forward], one per element of [x_seq], on the
    same module: the outputs in order and the state left behind. *)
Fixpoint sequential {F S : Type} (step : S -> tensor F -> outcome (tensor F * S))
    (s : S) (x_seq : list (tensor F)) : outcome (list (tensor F) * S) :=
  match x_seq with
  | [] => Returns ([], s)
  | x :: x_seq' =>
      match step s x with
      | Returns (y, s') =>
          match sequential step s' x_seq' with
          | Returns (y_seq, s'') => Returns (y :: y_seq, s'')
          | Raises e => Raises e
          | Cupy => Cupy
          end
      | Raises e => Raises e
      | Cupy => Cupy
      end
  end.

(** [IFNode(v_threshold=1.0, v_reset=0.0)] in step mode [step_mode], in
    training mode or after [eval()], and its state before any input. *)
Definition if_neuron (step_mode : string) (training : bool)
    : BaseNode.config float * BaseNode.state float :=
  let '(c, s) :=
    BaseNode.__init__ 1%float (Some 0%float) heaviside false step_mode "torch" false in
  (BaseNode.set_training c training, s).

(** The input sequence [x = [0.6, 0.6, 0.6, 0.6]], one element per step. *)
Definition x_0_6 : list (tensor float) :=
  [[0.6%float]; [0.6%float]; [0.6%float]; [0.6%float]].

(** The scenario's outcome: spikes [[0, 1, 0, 1]] and a one-element
    membrane potential [final] at the end, by one multi-step call and by
    one single-step call per step. *)
Definition if_scenario_outcome (training : bool) (final : float) : Prop :=
  (let '(c, s) := if_neuron "m" training in
   match IFNode.multi_step_forward c s x_0_6 with
   | Returns (y_seq, s') =>
       y_seq = [[0]; [1]; [0]; [1]]%float /\ BaseNode.v s' = MTensor [final]
   | _ => False
   end)
  /\
  (let '(c, s) := if_neuron "s" training in
   match sequential (IFNode.single_step_forward c) s x_0_6 with
   | Returns (y_seq, s') =>
       y_seq = [[0]; [1]; [0]; [1]]%float /\ BaseNode.v s' = MTensor [final]
   | _ => False
   end).

(** The one element of a one-element tensor held in a memory. *)
Definition the_element (m : memory float) : spec_float :=
  match m with
  | MTensor [a] => Prim2SF a
  | _ => S754_nan
  end.

(** A float that is neither infinite nor NaN; a spike that is 0. or 1.. *)
Definition finite (x : float) : Prop := is_finite x = true.


(** The steps of a sequence run one after the other, as a recursion on the
    sequence: the spikes, the last potential, and the potential after each
    step; [body x v] is one step, from the input and the potential to the
    spike and the new potential. *)
Fixpoint run_body {F : Type} (body : tensor F -> tensor F -> tensor F * tensor F)
    (x_seq : list (tensor F)) (v : tensor F)
    : list (tensor F) * tensor F * list (tensor F) :=
  match x_seq with
  | [] => ([], v, [])
  | x :: x_seq' =>
      let '(spike, v1) := body x v in
      let '(spike_seq, v_last, v_seq) := run_body body x_seq' v1 in
      (spike :: spike_seq, v_last, v1 :: v_seq)
  end.

(** One step of a method table on a materialised potential. *)
Definition step_of {F : Type} (M : BaseNode.methods F) (x v : tensor F)
    : tensor F * tensor F :=
  let v1 := BaseNode.m_neuronal_charge M v x in
  let spike := BaseNode.m_neuronal_fire M v1 in
  (spike, BaseNode.m_neuronal_reset M v1 spike).

(** Two calls agree: both return, with the same outputs and the same
    membrane potential left in the module; or both raise the same
    exception; or both reach a fused kernel. *)
Definition same_run {F S : Type} (self_v : S -> memory F)
    (o o' : outcome (list (tensor F) * S)) : Prop :=
  match o, o' with
  | Returns (y, s), Returns (y', s') => y = y' /\ self_v s = self_v s'
  | Raises e, Raises e' => e = e'
  | Cupy, Cupy => True
  | _, _ => False
  end.

(** A call returns a value: it does not raise, and runs no fused kernel. *)
Definition returns {A : Type} (o : outcome A) : Prop :=
  match o with
  | Returns _ => True
  | _ => False
  end.

(** The potentials [self.v] that sequential calls leave, one per call,
    as far as the calls return. *)
Fixpoint potentials {F S : Type} (step : S -> tensor F -> outcome (tensor F * S))
    (self_v : S -> memory F) (s : S) (x_seq : list (tensor F)) : list (tensor F) :=
  match x_seq with
  | [] => []
  | x :: x_seq' =>
      match step s x with
      | Returns (_, s') =>
          BaseNode.v_float_to_tensor (self_v s') x :: potentials step self_v s' x_seq'
      | _ => []
      end
  end.

(** The potential a step [t] of a run starts from: the initial [v0], or
    the potential the step before left. *)
Definition potential_before {F : Type} (v0 : tensor F) (traj : list (tensor F))
    (t : nat) : tensor F :=
  match t with
  | O => v0
  | S t' => nth t' traj []
  end.

(** [torch.sigmoid] at the logit [0.], where it is [1 / (1 + e^0) = 0.5]:
    every parameter of [gated_lif] below is the logit [0.]. *)
Definition sigmoid_at_0 (logit : float) : float := 0.5%float.

(** A layer-wise [GatedLIFNode] with [T = 1] and every learnable logit at
    [0.], so that every gate, decay and threshold is [0.5]. *)
Definition gated_lif : GatedLIFNode.config float :=
  {| GatedLIFNode.T := 1;
     GatedLIFNode.surrogate_function := heaviside;
     GatedLIFNode.alpha := 0%float;
     GatedLIFNode.beta := 0%float;
     GatedLIFNode.gamma := 0%float;
     GatedLIFNode.tau := 0%float;
     GatedLIFNode.v_threshold := 0%float;
     GatedLIFNode.linear_decay := 0%float;
     GatedLIFNode.v_subreset := 0%float;
     GatedLIFNode.conduct := [0%float] |}.

(** The same layer with [T = 2]. *)
Definition gated_lif_2 : GatedLIFNode.config float :=
  {| GatedLIFNode.T := 2;
     GatedLIFNode.surrogate_function := heaviside;
     GatedLIFNode.alpha := 0%float;
     GatedLIFNode.beta := 0%float;
     GatedLIFNode.gamma := 0%float;
     GatedLIFNode.tau := 0%float;
     GatedLIFNode.v_threshold := 0%float;
     GatedLIFNode.linear_decay := 0%float;
     GatedLIFNode.v_subreset := 0%float;
     GatedLIFNode.conduct := [0%float; 0%float] |}.

(** Two steps of [gated_lif_2] in the order the specification gives, each
    reset by the spike of its own step: the two spikes and the state
    left. *)
Definition gated_lif_2_by_own_spike (x_0 x_1 : tensor float)
    : list (tensor float) * GatedLIFNode.state float :=
  let '(spike_0, s_0) :=
    GatedLIFNode.step_charge_fire_reset sigmoid_at_0 gated_lif_2
      GatedLIFNode.init x_0 0%float in
  let '(spike_1, s_1) :=
    GatedLIFNode.step_charge_fire_reset sigmoid_at_0 gated_lif_2 s_0 x_1 0%float in
  ([spike_0; spike_1], s_1).

(** The membrane potential a [GatedLIFNode] call leaves, when it is a
    one-element tensor. *)
Definition gated_lif_potential
    (r : result (list (tensor float) * GatedLIFNode.state float)) : spec_float :=
  match r with
  | Ok (_, s) => the_element (GatedLIFNode.v s)
  | Raise _ => S754_nan
  end.






(** [spike = (v >= v_threshold).to(v)]. *)
Definition spike_of (v_threshold : float) (v : tensor float) : tensor float :=
  map (fun v_i => of_bool (v_i >=? v_threshold)%sc) v.

(** [QIFNode(step_mode=step_mode, backend=backend)] with its other
    defaults: what the constructor returns or raises. *)
Definition qif_node (step_mode backend : string)
    : result (QIFNode.config float * BaseNode.state float) :=
  QIFNode.__init__ 2%float 0.8%float 1%float 1%float 0%float (Some (-0.1)%float)
    heaviside false step_mode backend false.

(** [LIFNode(tau=2.0)] with its other defaults, in multi-step mode, after
    [eval()]. *)
Definition lif_eval : LIFNode.config float :=
  {| LIFNode.base := fst (if_neuron "m" false);
     LIFNode.tau := 2%float;
     LIFNode.decay_input := true |}.

(** [OTTTLIFNode()] with its defaults ([tau = 2.], [decay_input = False],
    [v_threshold = 1.], soft reset, [detach_reset = True]), in training
    mode or after [eval()]. *)
Definition ottt_lif (training : bool) : LIFNode.config float :=
  {| LIFNode.base :=
       BaseNode.set_training
         (fst (BaseNode.__init__ 1%float None heaviside true "s" "torch" false))
         training;
     LIFNode.tau := 2%float;
     LIFNode.decay_input := false |}.


(** ** Vocabulary of the further properties *)

(** A spike value: [0.] or [1.]. *)
Definition zero_or_one {F : Type} `{Scalar F} (a : F) : Prop :=
  a = s_zero \/ a = s_one.

(** One step of an [IFNode] on a materialised potential: the training step
    on the torch backend, or the evaluation step. *)
Definition if_step {F : Type} `{Scalar F} (c : BaseNode.config F)
    : tensor F -> tensor F -> tensor F * tensor F :=
  if BaseNode.training c then step_of (IFNode.methods_of c)
  else
    match BaseNode.v_reset c with
    | None => IFNode.jit_eval_single_step_forward_soft_reset (BaseNode.v_threshold c)
    | Some r => IFNode.jit_eval_single_step_forward_hard_reset (BaseNode.v_threshold c) r
    end.

(** The same for a [LIFNode]. *)
Definition lif_step {F : Type} `{Scalar F} (c : LIFNode.config F)
    : tensor F -> tensor F -> tensor F * tensor F :=
  if BaseNode.training (LIFNode.base c) then step_of (LIFNode.methods_of c)
  else LIFNode.eval_single_step c.

(** What a soft reset does element by element, bit for bit: the threshold
    is subtracted where the spike is [1.], and the element is kept where
    it is [0.]. *)
Definition soft_reset_elementwise (v spike v' : tensor float) (v_threshold : float)
    : Prop :=
  List.length v' = List.length v
  /\ forall (i : nat) (v_i s_i v'_i : float),
       nth_error v i = Some v_i ->
       nth_error spike i = Some s_i ->
       nth_error v' i = Some v'_i ->
       (s_i = 1%float -> v'_i = (v_i - v_threshold)%float)
       /\ (s_i = 0%float -> v'_i = v_i).

(** The sum over the rows of a sequence of their element [i], in exact
    arithmetic. *)
Definition total (rows : list (tensor Q)) (i : nat) : Q :=
  fold_right (fun row acc => (nth i row 0 + acc)%Q) 0%Q rows.

(** The potential of an [OTTTLIFNode] or [SLTTLIFNode], absent before the
    first input, next to the [self.v] of a [LIFNode] of the same
    parameters: the same tensor, or the float that [LIFNode.__init__]
    registers. *)
Definition same_potential (c : LIFNode.config float) (o : option (tensor float))
    (m : memory float) : Prop :=
  match o with
  | Some t => m = MTensor t
  | None =>
      m = MFloat match BaseNode.v_reset (LIFNode.base c) with
                 | None => 0%float
                 | Some r => r
                 end
  end.

(** The spike in what [OTTTLIFNode.single_step_forward] returns. *)
Definition spike_of_output {F : Type} (o : OTTTLIFNode.output F) : tensor F :=
  match o with
  | OTTTLIFNode.Spike spike => spike
  | OTTTLIFNode.SpikeAndTrace spike _ => spike
  end.

(** One step of the loop of [DSRIFFunction.forward], from the input and
    the potential to the spike and the potential; and of
    [DSRLIFFunction.forward], to the element appended to [spikes] and the
    potential. *)
Definition dsr_if_step {F : Type} `{Scalar F} (v_threshold alpha : F)
    (x mem_potential : tensor F) : tensor F * tensor F :=
  let mem_potential := map2 (fun m x => (m + x)%sc) mem_potential x in
  let spike :=
    map (fun m => (of_bool (m >=? alpha * v_threshold) * v_threshold)%sc)
        mem_potential in
  (spike, map2 (fun m s => (m - s)%sc) mem_potential spike).

Definition dsr_lif_step {F : Type} `{Scalar F} (beta v_threshold delta_t alpha : F)
    (x mem_potential : tensor F) : tensor F * tensor F :=
  let mem_potential :=
    map2 (fun m x => (beta * m + (s_one - beta) * x)%sc) mem_potential x in
  let spike :=
    map (fun m => (of_bool (m >=? alpha * v_threshold) * v_threshold)%sc)
        mem_potential in
  (map (fun s => (s / delta_t)%sc) spike,
   map2 (fun m s => (m - s)%sc) mem_potential spike).

(** The row [i] of the matrix of [SlidingPSN.gen_gemm_weight] on [T]
    steps: zeros, then the last [min(i + 1, k)] weights, then zeros. *)
Definition gemm_row {F : Type} `{Scalar F} (c : SlidingPSN.config F) (T i : nat)
    : tensor F :=
  let len := Nat.min (i + 1) (SlidingPSN.k c) in
  repeat s_zero (i + 1 - len)
  ++ slice (SlidingPSN.weight c) (SlidingPSN.k c - len) (SlidingPSN.k c)
  ++ repeat s_zero (T - (i + 1)).

(** The last [k] elements of a list, or all of them if there are fewer. *)
Definition lastn {A : Type} (k : nat) (l : list A) : list A :=
  skipn (List.length l - k) l.

(** What [SlidingPSN.single_step_forward] returns when its queue, after
    the input is appended, is [queue]. *)
Definition sliding_output {F : Type} `{Scalar F} (c : SlidingPSN.config F)
    (queue : list (tensor F)) : tensor F :=
  let weight :=
    slice (SlidingPSN.weight c) (SlidingPSN.k c - List.length queue)
      (SlidingPSN.k c) in
  map (fun h => SlidingPSN.surrogate_function c (h + SlidingPSN.bias c)%sc)
      (sum0 (map2 (fun w x_t => map (fun a => (w * a)%sc) x_t) weight queue)).

(** The rows [x] multiplied by the weights [w], row by row. *)
Definition weighted {F : Type} `{Scalar F} (w : tensor F) (x : list (tensor F))
    : list (tensor F) :=
  map2 (fun w x_t => map (fun a => (w * a)%sc) x_t) w x.

(** The potentials that the charges of a non-spiking neuron leave, one per
    input, from the potential [v]; [charge v x] is the new potential. *)
Fixpoint charged {F : Type} (charge : tensor F -> tensor F -> tensor F)
    (v : tensor F) (x_seq : list (tensor F)) : list (tensor F) :=
  match x_seq with
  | [] => []
  | x :: x_seq' => charge v x :: charged charge (charge v x) x_seq'
  end.

(** [IzhikevichNode()] with its defaults but [v_rest = 0.] ([tau = 2.],
    [v_c = 0.8], [a0 = 1.], [tau_w = 2.], [a = b = 0.]), and its state
    before any input. *)
Definition izhikevich : IzhikevichNode.config float * IzhikevichNode.state float :=
  let '(b, s) :=
    BaseNode.__init__ 1%float (Some 0%float) heaviside false "s" "torch" false in
  ({| IzhikevichNode.base := b;
      IzhikevichNode.w_rest := 0%float;
      IzhikevichNode.v_rest := 0%float;
      IzhikevichNode.tau_w := 2%float;
      IzhikevichNode.a := 0%float;
      IzhikevichNode.b := 0%float;
      IzhikevichNode.tau := 2%float;
      IzhikevichNode.v_c := 0.8%float;
      IzhikevichNode.a0 := 1%float |},
   {| IzhikevichNode.base_state := s; IzhikevichNode.w := MFloat 0%float |}).

(** [SlidingPSN(k=2)] with the weight [(1/2, 1)] of [exp_init] and the
    bias [-1.], on the gemm backend, in exact arithmetic. *)
Definition sliding_psn : SlidingPSN.config Q :=
  {| SlidingPSN.k := 2;
     SlidingPSN.weight := [1 # 2; 1]%Q;
     SlidingPSN.bias := (-1)%Q;
     SlidingPSN.surrogate_function := heaviside;
     SlidingPSN.step_mode := "m";
     SlidingPSN.backend := "gemm" |}.

(** A [LIFNode] after [module.train(mode)]. *)
Definition lif_in_mode {F : Type} (c : LIFNode.config F) (mode : bool)
    : LIFNode.config F :=
  {| LIFNode.base := BaseNode.set_training (LIFNode.base c) mode;
     LIFNode.tau := LIFNode.tau c;
     LIFNode.decay_input := LIFNode.decay_input c |}.

(** A [SlidingPSN] after [self.backend = backend]. *)
Definition sliding_psn_on {F : Type} (c : SlidingPSN.config F) (backend : string)
    : SlidingPSN.config F :=
  {| SlidingPSN.k := SlidingPSN.k c;
     SlidingPSN.weight := SlidingPSN.weight c;
     SlidingPSN.bias := SlidingPSN.bias c;
     SlidingPSN.surrogate_function := SlidingPSN.surrogate_function c;
     SlidingPSN.step_mode := SlidingPSN.step_mode c;
     SlidingPSN.backend := backend |}.

(** The [PSN] with the parameters of a [MaskedPSN]. *)
Definition psn_of {F : Type} (c : MaskedPSN.config F) : PSN.config F :=
  {| PSN.T := MaskedPSN.T c;
     PSN.surrogate_function := MaskedPSN.surrogate_function c;
     PSN.weight := MaskedPSN.weight c;
     PSN.bias := MaskedPSN.bias c |}.

(** A [T x T] matrix. *)
Definition square {F : Type} (T : nat) (m : list (tensor F)) : Prop :=
  List.length m = T /\ Forall (fun row => List.length row = T) m.

(** [MaskedPSN(k=1, T=2, lambda_init)] in multi-step mode, with the
    weight [weight] in place of the sample of its initialisation. *)
Definition masked_psn {F : Type} `{Scalar F} (lambda_init : F)
    (weight : list (tensor F)) : MaskedPSN.config F :=
  MaskedPSN.__init__ 1 2 lambda_init heaviside "m" weight.

(** * Properties *)

(** ** Lists *)

Lemma map2_length {A B C : Type} (f : A -> B -> C) (l : list A) (l' : list B) :
  List.length l = List.length l' -> List.length (map2 f l l') = List.length l.
Proof.
  revert l'. induction l as [| a l IH]; intros [| b l'] Hl; cbn in *;
    try reflexivity; try discriminate.
  f_equal. apply IH. now injection Hl.
Qed.

Lemma nth_error_map2_inv {A B C : Type} (f : A -> B -> C) (l : list A) (l' : list B)
    (i : nat) (c : C) :
  nth_error (map2 f l l') i = Some c ->
  exists a b, nth_error l i = Some a /\ nth_error l' i = Some b /\ c = f a b.
Proof.
  revert l l'. induction i as [| i IH]; intros [| a' l] [| b' l'] Hc;
    cbn in *; try discriminate.
  - injection Hc as <-. eauto.
  - now apply IH.
Qed.

(** ** IEEE binary64 *)

Section Binary64.
Local Open Scope float_scope.

Lemma one_SF : Prim2SF 1 = S754_finite false 4503599627370496 (-52).
Proof. reflexivity. Qed.

Lemma digits2_pos_shift52 (m : positive) :
  Zpos (digits2_pos (4503599627370496 * m)) = (Zpos (digits2_pos m) + 52)%Z.
Proof. cbn [Pos.mul digits2_pos]. lia. Qed.

(** A mantissa shifted left by 52 bits, with the exponent lowered by 52,
    rounds back to itself. *)
Lemma round_exact_shift52 (s : bool) (m : positive) (e : Z) :
  bounded prec emax m e = true ->
  binary_round_aux prec emax s (Zpos (4503599627370496 * m)) (-52 + e) loc_Exact
  = S754_finite s m e.
Proof.
  intros Hb. unfold bounded, canonical_mantissa in Hb.
  apply andb_true_iff in Hb. destruct Hb as [Hc He].
  apply Z.eqb_eq in Hc.
  unfold binary_round_aux, shr_fexp, Zdigits2.
  rewrite digits2_pos_shift52.
  replace (Z.pos (digits2_pos m) + 52 + (-52 + e))%Z
    with (Z.pos (digits2_pos m) + e)%Z by lia.
  rewrite Hc.
  replace (e - (-52 + e))%Z with 52%Z by lia.
  cbn [shr shr_record_of_loc].
  cbn [Pos.mul iter_pos shr_1 orb].
  cbn [shr_m loc_of_shr_record round_nearest_even Zdigits2].
  replace (-52 + e + 52)%Z with e by lia.
  rewrite Hc, Z.sub_diag. cbn [shr shr_record_of_loc shr_m].
  now rewrite He.
Qed.

Lemma mul_1_l (x : float) : 1 * x = x.
Proof.
  apply Prim2SF_inj. rewrite mul_spec, one_SF.
  pose proof (Prim2SF_valid x) as Hv.
  destruct (Prim2SF x) as [s | s | | s m e]; try reflexivity.
  unfold SF64mul, SFmul. cbn [xorb].
  now apply round_exact_shift52.
Qed.

Lemma SFmul_comm (x y : spec_float) : SFmul prec emax x y = SFmul prec emax y x.
Proof.
  destruct x as [sx | sx | | sx mx ex], y as [sy | sy | | sy my ey]; cbn [SFmul];
    rewrite ?(xorb_comm sx sy); try reflexivity.
  now rewrite Pos.mul_comm, Z.add_comm.
Qed.

Lemma mul_comm (x y : float) : x * y = y * x.
Proof. apply Prim2SF_inj. rewrite !mul_spec. apply SFmul_comm. Qed.

Lemma SFadd_comm (x y : spec_float) : SFadd prec emax x y = SFadd prec emax y x.
Proof.
  destruct x as [sx | sx | | sx mx ex], y as [sy | sy | | sy my ey]; cbn [SFadd];
    try reflexivity; try (destruct sx, sy; reflexivity).
  now rewrite Z.min_comm, Z.add_comm.
Qed.

Lemma add_comm (x y : float) : x + y = y + x.
Proof. apply Prim2SF_inj. rewrite !add_spec. apply SFadd_comm. Qed.





Lemma finite_cases (x : float) :
  finite x ->
  (exists s, Prim2SF x = S754_zero s)
  \/ (exists s m e, Prim2SF x = S754_finite s m e).
Proof.
  unfold finite, is_finite, is_nan, is_infinity.
  rewrite !FloatAxioms.eqb_spec, abs_spec.
  change (Prim2SF infinity) with (S754_infinity false).
  destruct (Prim2SF x) as [s | s | | s m e]; eauto.
  - destruct s; intros H; vm_compute in H; discriminate H.
  - intros H; vm_compute in H; discriminate H.
Qed.

Lemma zero_SF : Prim2SF 0 = S754_zero false.
Proof. reflexivity. Qed.


(** The product of a zero and a finite float is a zero. *)
Lemma mul_0_finite (x : float) :
  finite x -> exists s, Prim2SF (0 * x) = S754_zero s.
Proof.
  intros Hx. rewrite mul_spec, zero_SF.
  destruct (finite_cases x Hx) as [[s ->] | (s & m & e & ->)]; cbn; eauto.
Qed.











(** [v - 0.] is [v], bit for bit. *)
Lemma sub_0_r (v : float) : v - 0 = v.
Proof.
  apply Prim2SF_inj. rewrite sub_spec, zero_SF.
  destruct (Prim2SF v) as [s | s | | s m e]; try reflexivity.
  now destruct s.
Qed.

End Binary64.

(** ** C1: the integrate-and-fire scenario *)

(** C1 (as amended).  [IFNode(v_threshold=1.0, v_reset=0.0)], from its
    initial state, driven with [x = [0.6, 0.6, 0.6, 0.6]]: the spikes are
    [[0, 1, 0, 1]] and the membrane potential ends at [0.] (the reset
    value: the last step fires), by four single-step calls as by one
    multi-step call, in training mode (torch backend) as in evaluation
    mode. *)
Theorem if_scenario : forall training : bool, if_scenario_outcome training 0%float.
Proof.
  intros [|]; split; vm_compute; split; reflexivity.
Qed.

(** C1 as stated fails: the run does not end at [v = 0.2], in training
    mode or in evaluation mode. *)
Lemma if_scenario_not_0_2 :
  ~ if_scenario_outcome true 0.2%float /\ ~ if_scenario_outcome false 0.2%float.
Proof.
  split; intros [[_ Hv] _]; apply (f_equal the_element) in Hv;
    vm_compute in Hv; discriminate Hv.
Qed.

(** ** The loops unrolled *)

Section Loops.
Context {F : Type} `{Scalar F}.

Lemma setitem_middle {A : Type} (done rest : list A) (z a : A) :
  setitem (done ++ z :: rest) (List.length done) a = done ++ a :: rest.
Proof.
  induction done as [| d done IH]; cbn; [reflexivity | now rewrite IH].
Qed.

Lemma jit_loop_with_v_seq_fold (body : tensor F -> tensor F -> tensor F * tensor F)
    (rest pre done vdone : list (tensor F)) (v : tensor F) :
  List.length done = List.length pre ->
  List.length vdone = List.length pre ->
  fold_left
    (fun '(spike_seq, v, v_seq) t =>
       let '(spike, v) := body (nth t (pre ++ rest) []) v in
       (setitem spike_seq t spike, v, setitem v_seq t v))
    (seq (List.length pre) (List.length rest))
    (done ++ map zeros_like rest, v, vdone ++ map zeros_like rest)
  = let '(spike_seq, v_last, v_seq) := run_body body rest v in
    (done ++ spike_seq, v_last, vdone ++ v_seq).
Proof.
  revert pre done vdone v.
  induction rest as [| x rest IH]; intros pre done vdone v Hd Hv.
  - reflexivity.
  - cbn [List.length seq fold_left map run_body].
    rewrite nth_middle.
    destruct (body x v) as [spike v1] eqn:Eb.
    pose proof (setitem_middle done (map zeros_like rest) (zeros_like x) spike) as E1.
    pose proof (setitem_middle vdone (map zeros_like rest) (zeros_like x) v1) as E2.
    rewrite Hd in E1. rewrite Hv in E2. rewrite E1, E2.
    specialize (IH (pre ++ [x]) (done ++ [spike]) (vdone ++ [v1]) v1).
    rewrite !length_app, <- !app_assoc in IH. cbn [List.length app] in IH.
    rewrite !Nat.add_1_r in IH.
    rewrite IH by lia.
    destruct (run_body body rest v1) as [[ss vl] vs].
    now rewrite <- !app_assoc.
Qed.

Lemma jit_loop_with_v_seq_unroll (body : tensor F -> tensor F -> tensor F * tensor F)
    (x_seq : list (tensor F)) (v : tensor F) :
  jit_loop_with_v_seq body x_seq v = run_body body x_seq v.
Proof.
  unfold jit_loop_with_v_seq.
  pose proof (jit_loop_with_v_seq_fold body x_seq [] [] [] v eq_refl eq_refl) as E.
  cbn [app List.length] in E. rewrite E.
  now destruct (run_body body x_seq v) as [[ss vl] vs].
Qed.

Lemma jit_loop_fold (body : tensor F -> tensor F -> tensor F * tensor F)
    (rest pre done : list (tensor F)) (v : tensor F) :
  List.length done = List.length pre ->
  fold_left
    (fun '(spike_seq, v) t =>
       let '(spike, v) := body (nth t (pre ++ rest) []) v in
       (setitem spike_seq t spike, v))
    (seq (List.length pre) (List.length rest))
    (done ++ map zeros_like rest, v)
  = let '(spike_seq, v_last, _) := run_body body rest v in
    (done ++ spike_seq, v_last).
Proof.
  revert pre done v.
  induction rest as [| x rest IH]; intros pre done v Hd.
  - reflexivity.
  - cbn [List.length seq fold_left map run_body].
    rewrite nth_middle.
    destruct (body x v) as [spike v1] eqn:Eb.
    pose proof (setitem_middle done (map zeros_like rest) (zeros_like x) spike) as E1.
    rewrite Hd in E1. rewrite E1.
    specialize (IH (pre ++ [x]) (done ++ [spike]) v1).
    rewrite !length_app, <- !app_assoc in IH. cbn [List.length app] in IH.
    rewrite !Nat.add_1_r in IH.
    rewrite IH by lia.
    destruct (run_body body rest v1) as [[ss vl] vs].
    now rewrite <- !app_assoc.
Qed.

Lemma jit_loop_unroll (body : tensor F -> tensor F -> tensor F * tensor F)
    (x_seq : list (tensor F)) (v : tensor F) :
  jit_loop body x_seq v
  = let '(spike_seq, v_last, _) := run_body body x_seq v in (spike_seq, v_last).
Proof.
  unfold jit_loop.
  pose proof (jit_loop_fold body x_seq [] [] v eq_refl) as E.
  cbn [app List.length] in E. rewrite E.
  now destruct (run_body body x_seq v) as [[ss vl] vs].
Qed.

End Loops.

Section Executors.
Context {F S : Type}.
Variable step : S -> tensor F -> outcome (tensor F * S).
Variable self_v : S -> memory F.
Variable self_set_v_seq : S -> list (tensor F) -> S.

(** The loop of [BaseNode.multi_step_forward] is the sequential calls,
    with the outputs and the potentials appended to the lists. *)
Lemma multi_step_loop_sequential (store : bool) (x_seq : list (tensor F)) :
  forall (s : S) (y_seq vs : list (tensor F)),
    BaseNode.multi_step_loop step self_v store s x_seq y_seq vs
    = r <-- sequential step s x_seq ;;
      Returns (snd r, y_seq ++ fst r,
               if store then vs ++ potentials step self_v s x_seq else vs).
Proof.
  induction x_seq as [| x x_seq IH]; intros s y_seq vs.
  - cbn. rewrite !app_nil_r. now destruct store.
  - cbn [BaseNode.multi_step_loop sequential potentials].
    destruct (step s x) as [[y s'] | e |]; cbn [obind]; try reflexivity.
    rewrite IH.
    destruct (sequential step s' x_seq) as [[ys s''] | e |]; cbn [obind fst snd];
      try reflexivity.
    rewrite <- !app_assoc. cbn [app].
    destruct store; [now rewrite <- app_assoc | reflexivity].
Qed.

(** [BaseNode.multi_step_forward] on a sequence of at least one step. *)
Lemma multi_step_forward_sequential (store : bool) (s : S)
    (x : tensor F) (x_seq : list (tensor F)) :
  BaseNode.multi_step_forward step self_v self_set_v_seq store s (x :: x_seq)
  = r <-- sequential step s (x :: x_seq) ;;
    Returns (fst r,
             if store
             then self_set_v_seq (snd r) (potentials step self_v s (x :: x_seq))
             else snd r).
Proof.
  unfold BaseNode.multi_step_forward. rewrite multi_step_loop_sequential.
  cbn [sequential potentials app].
  destruct (step s x) as [[y s'] | e |]; cbn [obind]; try reflexivity.
  destruct (sequential step s' x_seq) as [[ys s''] | e |]; cbn [obind fst snd];
    try reflexivity.
  now destruct store.
Qed.

Lemma same_run_refl_on (o : outcome (list (tensor F) * S))
    (k : list (tensor F) * S -> S) :
  (forall r, self_v (k r) = self_v (snd r)) ->
  same_run self_v (r <-- o ;; Returns (fst r, k r)) o.
Proof.
  intros Hk.
  destruct o as [[ys s] | e |]; cbn;
    [split; [reflexivity | apply (Hk (ys, s))] | reflexivity | exact I].
Qed.

(** One multi-step call agrees with the sequential single-step calls,
    whatever [single_step_forward] is, as long as writing [self.v_seq]
    leaves [self.v] alone. *)
Lemma base_multi_step_sequential (store : bool) (s : S)
    (x : tensor F) (x_seq : list (tensor F)) :
  (forall s l, self_v (self_set_v_seq s l) = self_v s) ->
  same_run self_v
    (BaseNode.multi_step_forward step self_v self_set_v_seq store s (x :: x_seq))
    (sequential step s (x :: x_seq)).
Proof.
  intros Hset. rewrite multi_step_forward_sequential.
  apply (same_run_refl_on _
           (fun r => if store
                     then self_set_v_seq (snd r) (potentials step self_v s (x :: x_seq))
                     else snd r)).
  intros r. destruct store; [apply Hset | reflexivity].
Qed.

End Executors.

Section BodySteps.
Context {F : Type} `{Scalar F}.
Import BaseNode.

(** Sequential calls of a step that materialises [self.v] and then runs
    [body]. *)
Variable body : tensor F -> tensor F -> tensor F * tensor F.
Variable step : state F -> tensor F -> outcome (tensor F * state F).
Hypothesis step_body :
  forall s x,
    step s x
    = Returns (let '(spike, v') := body x (v_float_to_tensor (v s) x) in
               (spike, {| v := MTensor v'; v_seq := v_seq s |})).

Lemma sequential_unroll (x_seq : list (tensor F)) :
  forall (v0 : tensor F) (q : option (list (tensor F))),
    sequential step {| v := MTensor v0; v_seq := q |} x_seq
    = Returns (let '(spike_seq, v_last, _) := run_body body x_seq v0 in
               (spike_seq, {| v := MTensor v_last; v_seq := q |})).
Proof.
  induction x_seq as [| x x_seq IH]; intros v0 q.
  - reflexivity.
  - cbn [sequential run_body]. rewrite step_body. cbn [v v_seq v_float_to_tensor].
    destruct (body x v0) as [spike v1]. rewrite IH.
    now destruct (run_body body x_seq v1) as [[ss vl] traj].
Qed.

Lemma sequential_first (s : state F) (x : tensor F) (x_seq : list (tensor F)) :
  sequential step s (x :: x_seq)
  = Returns (let '(spike_seq, v_last, _) :=
               run_body body (x :: x_seq) (v_float_to_tensor (v s) x) in
             (spike_seq, {| v := MTensor v_last; v_seq := v_seq s |})).
Proof.
  rewrite <- sequential_unroll.
  cbn [sequential]. now rewrite !step_body.
Qed.

Lemma potentials_unroll (x_seq : list (tensor F)) :
  forall (v0 : tensor F) (q : option (list (tensor F))),
    potentials step v {| v := MTensor v0; v_seq := q |} x_seq
    = snd (run_body body x_seq v0).
Proof.
  induction x_seq as [| x x_seq IH]; intros v0 q.
  - reflexivity.
  - cbn [potentials run_body]. rewrite step_body. cbn [v v_seq v_float_to_tensor].
    destruct (body x v0) as [spike v1]. cbn [v v_float_to_tensor]. rewrite IH.
    now destruct (run_body body x_seq v1) as [[ss vl] traj].
Qed.

Lemma potentials_first (s : state F) (x : tensor F) (x_seq : list (tensor F)) :
  potentials step v s (x :: x_seq)
  = snd (run_body body (x :: x_seq) (v_float_to_tensor (v s) x)).
Proof.
  rewrite <- (potentials_unroll _ _ (v_seq s)).
  cbn [potentials]. now rewrite !step_body.
Qed.

(** [BaseNode.multi_step_forward] over such a step, on at least one input. *)
Lemma multi_step_forward_unroll (store : bool) (s : state F)
    (x : tensor F) (x_seq : list (tensor F)) :
  BaseNode.multi_step_forward step v set_v_seq store s (x :: x_seq)
  = let '(spike_seq, v_last, traj) :=
      run_body body (x :: x_seq) (v_float_to_tensor (v s) x) in
    Returns (spike_seq,
             {| v := MTensor v_last; v_seq := if store then Some traj else v_seq s |}).
Proof.
  rewrite multi_step_forward_sequential, sequential_first, potentials_first.
  destruct (run_body body (x :: x_seq) _) as [[ss vl] traj].
  cbn. now destruct store.
Qed.

End BodySteps.

(** ** C5: one multi-step call and [T] single-step calls *)

Section MultiStep.
Context {F : Type} `{Scalar F}.
Import BaseNode.

Lemma same_run_unrolled (body : tensor F -> tensor F -> tensor F * tensor F)
    (x_seq : list (tensor F)) (v0 : tensor F) (q q' : option (list (tensor F)))
    (keep : bool) :
  let o :=
    let '(spike_seq, v_last, traj) := run_body body x_seq v0 in
    Returns (spike_seq,
             {| v := MTensor v_last; v_seq := if keep then Some traj else q |}) in
  returns o
  /\ same_run v o
       (Returns
          (let '(spike_seq, v_last, _) := run_body body x_seq v0 in
           (spike_seq, {| v := MTensor v_last; v_seq := q' |}))).
Proof.
  destruct (run_body body x_seq v0) as [[ss vl] traj]. cbn. auto.
Qed.

Lemma if_single_step_training (c : config F) :
  training c = true -> backend c = "torch"%string ->
  forall s x,
    IFNode.single_step_forward c s x
    = Returns (let '(spike, v') :=
                 step_of (IFNode.methods_of c) x (v_float_to_tensor (v s) x) in
               (spike, {| v := MTensor v'; v_seq := v_seq s |})).
Proof.
  intros Htr Hb s x. unfold IFNode.single_step_forward. now rewrite Htr, Hb.
Qed.

Lemma if_single_step_eval (c : config F) :
  training c = false ->
  forall s x,
    IFNode.single_step_forward c s x
    = Returns (let '(spike, v') :=
                 match v_reset c with
                 | None =>
                     IFNode.jit_eval_single_step_forward_soft_reset (v_threshold c)
                 | Some r =>
                     IFNode.jit_eval_single_step_forward_hard_reset (v_threshold c) r
                 end x (v_float_to_tensor (v s) x) in
               (spike, {| v := MTensor v'; v_seq := v_seq s |})).
Proof.
  intros Htr s x. unfold IFNode.single_step_forward. rewrite Htr.
  cbv beta iota zeta.
  destruct (v_reset c);
    [destruct (IFNode.jit_eval_single_step_forward_hard_reset _ _ _ _)
    | destruct (IFNode.jit_eval_single_step_forward_soft_reset _ _ _)];
    reflexivity.
Qed.

Lemma if_multi_step_sequential (c : config F) (s : state F)
    (x : tensor F) (x_seq : list (tensor F)) :
  training c = false \/ backend c = "torch"%string ->
  returns (IFNode.multi_step_forward c s (x :: x_seq))
  /\ same_run v (IFNode.multi_step_forward c s (x :: x_seq))
                (sequential (IFNode.single_step_forward c) s (x :: x_seq)).
Proof.
  intros Hmode. unfold IFNode.multi_step_forward.
  destruct (training c) eqn:Etr.
  - destruct Hmode as [Hmode | Hb]; [discriminate |].
    rewrite Hb. cbn [String.eqb Ascii.eqb Bool.eqb].
    pose proof (if_single_step_training c Etr Hb) as Hstep.
    rewrite (multi_step_forward_unroll (step_of (IFNode.methods_of c)) _ Hstep),
      (sequential_first (step_of (IFNode.methods_of c)) _ Hstep).
    apply same_run_unrolled.
  - cbn [first_step bind].
    pose proof (if_single_step_eval c Etr) as Hstep.
    rewrite (sequential_first
               match v_reset c with
               | None => IFNode.jit_eval_single_step_forward_soft_reset (v_threshold c)
               | Some r => IFNode.jit_eval_single_step_forward_hard_reset (v_threshold c) r
               end _ Hstep).
    unfold IFNode.jit_eval_multi_step_forward_hard_reset_with_v_seq,
      IFNode.jit_eval_multi_step_forward_hard_reset,
      IFNode.jit_eval_multi_step_forward_soft_reset_with_v_seq,
      IFNode.jit_eval_multi_step_forward_soft_reset,
      IFNode.jit_eval_single_step_forward_hard_reset,
      IFNode.jit_eval_single_step_forward_soft_reset.
    destruct (v_reset c) as [r |], (store_v_seq c);
      rewrite ?jit_loop_with_v_seq_unroll, ?jit_loop_unroll;
      destruct (run_body _ _ _) as [[ss vl] traj]; cbn; auto.
Qed.

Lemma lif_single_step_training (c : LIFNode.config F) :
  training (LIFNode.base c) = true -> backend (LIFNode.base c) = "torch"%string ->
  forall s x,
    LIFNode.single_step_forward c s x
    = Returns (let '(spike, v') :=
                 step_of (LIFNode.methods_of c) x (v_float_to_tensor (v s) x) in
               (spike, {| v := MTensor v'; v_seq := v_seq s |})).
Proof.
  intros Htr Hb s x. unfold LIFNode.single_step_forward. now rewrite Htr, Hb.
Qed.

Lemma lif_single_step_eval (c : LIFNode.config F) :
  training (LIFNode.base c) = false ->
  forall s x,
    LIFNode.single_step_forward c s x
    = Returns (let '(spike, v') :=
                 LIFNode.eval_single_step c x (v_float_to_tensor (v s) x) in
               (spike, {| v := MTensor v'; v_seq := v_seq s |})).
Proof.
  intros Htr s x. unfold LIFNode.single_step_forward. rewrite Htr.
  cbv beta iota zeta. now destruct (LIFNode.eval_single_step c x _).
Qed.

Lemma lif_multi_step_sequential (c : LIFNode.config F) (s : state F)
    (x : tensor F) (x_seq : list (tensor F)) :
  training (LIFNode.base c) = false \/ backend (LIFNode.base c) = "torch"%string ->
  returns (LIFNode.multi_step_forward c s (x :: x_seq))
  /\ same_run v (LIFNode.multi_step_forward c s (x :: x_seq))
                (sequential (LIFNode.single_step_forward c) s (x :: x_seq)).
Proof.
  intros Hmode. unfold LIFNode.multi_step_forward.
  destruct (training (LIFNode.base c)) eqn:Etr.
  - destruct Hmode as [Hmode | Hb]; [discriminate |].
    rewrite Hb. cbn [String.eqb Ascii.eqb Bool.eqb].
    pose proof (lif_single_step_training c Etr Hb) as Hstep.
    rewrite (multi_step_forward_unroll (step_of (LIFNode.methods_of c)) _ Hstep),
      (sequential_first (step_of (LIFNode.methods_of c)) _ Hstep).
    apply same_run_unrolled.
  - cbn [first_step bind of_result].
    pose proof (lif_single_step_eval c Etr) as Hstep.
    rewrite (sequential_first (LIFNode.eval_single_step c) _ Hstep).
    unfold LIFNode.eval_multi_step, LIFNode.eval_single_step.
    unfold LIFNode.jit_eval_multi_step_forward_hard_reset_decay_input_with_v_seq,
      LIFNode.jit_eval_multi_step_forward_hard_reset_decay_input,
      LIFNode.jit_eval_multi_step_forward_hard_reset_no_decay_input_with_v_seq,
      LIFNode.jit_eval_multi_step_forward_hard_reset_no_decay_input,
      LIFNode.jit_eval_multi_step_forward_soft_reset_decay_input_with_v_seq,
      LIFNode.jit_eval_multi_step_forward_soft_reset_decay_input,
      LIFNode.jit_eval_multi_step_forward_soft_reset_no_decay_input_with_v_seq,
      LIFNode.jit_eval_multi_step_forward_soft_reset_no_decay_input,
      LIFNode.jit_eval_single_step_forward_hard_reset_decay_input,
      LIFNode.jit_eval_single_step_forward_hard_reset_no_decay_input,
      LIFNode.jit_eval_single_step_forward_soft_reset_decay_input,
      LIFNode.jit_eval_single_step_forward_soft_reset_no_decay_input.
    destruct (v_reset (LIFNode.base c)) as [r |], (LIFNode.decay_input c),
      (store_v_seq (LIFNode.base c));
      rewrite ?jit_loop_with_v_seq_unroll, ?jit_loop_unroll;
      destruct (run_body _ _ _) as [[ss vl] traj]; cbn; auto.
Qed.

Lemma sequential_returns {S : Type}
    (step : S -> tensor F -> outcome (tensor F * S)) :
  (forall s x, returns (step s x)) ->
  forall (x_seq : list (tensor F)) (s : S), returns (sequential step s x_seq).
Proof.
  intros Hstep x_seq. induction x_seq as [| x x_seq IH]; intros s; [exact I |].
  cbn [sequential]. specialize (Hstep s x).
  destruct (step s x) as [[y s'] | e |]; try contradiction.
  specialize (IH s'). now destruct (sequential step s' x_seq) as [[ys s''] | e |].
Qed.

Lemma same_run_returns {S : Type} (self_v : S -> memory F)
    (o o' : outcome (list (tensor F) * S)) :
  same_run self_v o o' -> returns o' -> returns o.
Proof.
  destruct o as [[y s] | e |], o' as [[y' s'] | e' |]; cbn; tauto.
Qed.

(** The loop of [CLIFNode.multi_step_forward] makes the single-step
    calls in order and appends their spikes. *)
Lemma clif_loop_sequential (cfg : CLIFNode.config F) (x_seq : list (tensor F)) :
  forall (s : CLIFNode.state F) (spike_seq : list (tensor F)),
    exists (ys : list (tensor F)) (s' : CLIFNode.state F),
      sequential (fun s x => Returns (CLIFNode.single_step_forward cfg s x)) s x_seq
      = Returns (ys, s')
      /\ CLIFNode.multi_step_loop cfg s x_seq spike_seq = (s', spike_seq ++ ys)
      /\ List.length ys = List.length x_seq.
Proof.
  induction x_seq as [| x x_seq IH]; intros s spike_seq.
  - exists [], s. now rewrite app_nil_r.
  - cbn [sequential CLIFNode.multi_step_loop].
    destruct (CLIFNode.single_step_forward cfg s x) as [spike s1].
    destruct (IH s1 (spike_seq ++ [spike])) as (ys & s' & -> & -> & Hl).
    exists (spike :: ys), s'. rewrite <- app_assoc.
    split; [reflexivity |]. split; [reflexivity |].
    cbn [List.length]. now rewrite Hl.
Qed.

(** C5 (as amended).  One multi-step call on a sequence of [T >= 1]
    inputs gives the spike sequence of [T] single-step calls on the same
    inputs from the same state, and leaves the same membrane potential
    [v]: [BaseNode.multi_step_forward], with or without [store_v_seq], for
    any [single_step_forward] of the subclass and any module state (if a
    single-step call raises, the multi-step call raises the same
    exception); [IFNode] and [LIFNode], whose multi-step call returns and
    agrees with their single-step calls in training mode on the torch
    backend and in evaluation mode; [QIFNode] and [IzhikevichNode] on the
    torch backend; and [CLIFNode]. *)
Theorem multi_step_equals_sequential :
  (forall (S : Type) (single_step_forward : S -> tensor F -> outcome (tensor F * S))
          (self_v : S -> memory F) (self_set_v_seq : S -> list (tensor F) -> S),
      (forall s l, self_v (self_set_v_seq s l) = self_v s) ->
      forall (store : bool) (s : S) (x : tensor F) (x_seq : list (tensor F)),
        same_run self_v
          (BaseNode.multi_step_forward single_step_forward self_v self_set_v_seq
             store s (x :: x_seq))
          (sequential single_step_forward s (x :: x_seq)))
  /\
  (forall (c : config F) (s : state F) (x : tensor F) (x_seq : list (tensor F)),
      training c = false \/ backend c = "torch"%string ->
      returns (IFNode.multi_step_forward c s (x :: x_seq))
      /\ same_run v (IFNode.multi_step_forward c s (x :: x_seq))
                    (sequential (IFNode.single_step_forward c) s (x :: x_seq)))
  /\
  (forall (c : LIFNode.config F) (s : state F) (x : tensor F) (x_seq : list (tensor F)),
      training (LIFNode.base c) = false \/ backend (LIFNode.base c) = "torch"%string ->
      returns (LIFNode.multi_step_forward c s (x :: x_seq))
      /\ same_run v (LIFNode.multi_step_forward c s (x :: x_seq))
                    (sequential (LIFNode.single_step_forward c) s (x :: x_seq)))
  /\
  (forall (c : QIFNode.config F) (s : state F) (x : tensor F) (x_seq : list (tensor F)),
      backend (QIFNode.base c) = "torch"%string ->
      returns (QIFNode.multi_step_forward c s (x :: x_seq))
      /\ same_run v (QIFNode.multi_step_forward c s (x :: x_seq))
                    (sequential (QIFNode.single_step_forward c) s (x :: x_seq)))
  /\
  (forall (c : IzhikevichNode.config F) (s : IzhikevichNode.state F)
          (x : tensor F) (x_seq : list (tensor F)),
      backend (IzhikevichNode.base c) = "torch"%string ->
      returns (IzhikevichNode.multi_step_forward c s (x :: x_seq))
      /\ same_run (fun s => v (IzhikevichNode.base_state s))
           (IzhikevichNode.multi_step_forward c s (x :: x_seq))
           (sequential (IzhikevichNode.single_step_forward c) s (x :: x_seq)))
  /\
  (forall (cfg : CLIFNode.config F) (s : CLIFNode.state F)
          (x : tensor F) (x_seq : list (tensor F)),
      returns (of_result (CLIFNode.multi_step_forward cfg s (x :: x_seq)))
      /\ same_run CLIFNode.v
           (of_result (CLIFNode.multi_step_forward cfg s (x :: x_seq)))
           (sequential (fun s x => Returns (CLIFNode.single_step_forward cfg s x))
              s (x :: x_seq))).
Proof.
  split; [| split; [| split; [| split; [| split]]]].
  - intros S step self_v self_set Hset store s x x_seq.
    now apply base_multi_step_sequential.
  - apply if_multi_step_sequential.
  - apply lif_multi_step_sequential.
  - intros c s x x_seq Hb. unfold QIFNode.multi_step_forward.
    rewrite Hb. cbn [String.eqb Ascii.eqb Bool.eqb].
    pose proof (base_multi_step_sequential (QIFNode.single_step_forward c) v
                  set_v_seq (store_v_seq (QIFNode.base c)) s x x_seq
                  (fun s l => eq_refl)) as Hsame.
    split; [| exact Hsame].
    apply (same_run_returns _ _ _ Hsame).
    apply sequential_returns. intros s1 x1. exact I.
  - intros c s x x_seq Hb. unfold IzhikevichNode.multi_step_forward.
    rewrite Hb. cbn [String.eqb Ascii.eqb Bool.eqb].
    pose proof (base_multi_step_sequential (IzhikevichNode.single_step_forward c)
                  (fun s => v (IzhikevichNode.base_state s)) IzhikevichNode.set_v_seq
                  (store_v_seq (IzhikevichNode.base c)) s x x_seq
                  (fun s l => eq_refl)) as Hsame.
    split; [| exact Hsame].
    apply (same_run_returns _ _ _ Hsame).
    apply sequential_returns. intros s1 x1.
    unfold IzhikevichNode.single_step_forward.
    now destruct (AdaptBaseNode.single_step_forward _ _ _ _ _ _ _ _ _)
      as [spike [v' w']].
  - intros cfg s x x_seq. unfold CLIFNode.multi_step_forward.
    destruct (clif_loop_sequential cfg (x :: x_seq) s []) as (ys & s' & Hseq & Hloop & Hl).
    rewrite Hloop, Hseq. cbn [app].
    destruct ys as [| y ys]; [discriminate Hl |].
    cbn [stack bind of_result returns same_run]. auto.
Qed.

End MultiStep.

(** C5 as stated fails on a sequence of no step, [T = 0]: no single-step
    call is made, nothing is raised, and the module is left as it was; the
    multi-step call raises, at [torch.stack] of an empty list in training
    mode and at [x_seq[0]] in evaluation mode. *)
Lemma multi_step_differs_on_no_step :
  (let '(c, s) := if_neuron "m" true in
   IFNode.multi_step_forward c s [] = Raises RuntimeError
   /\ sequential (IFNode.single_step_forward c) s [] = Returns ([], s)
   /\ ~ same_run BaseNode.v (IFNode.multi_step_forward c s [])
          (sequential (IFNode.single_step_forward c) s []))
  /\
  (let '(c, s) := if_neuron "m" false in
   IFNode.multi_step_forward c s [] = Raises IndexError
   /\ sequential (IFNode.single_step_forward c) s [] = Returns ([], s)
   /\ ~ same_run BaseNode.v (IFNode.multi_step_forward c s [])
          (sequential (IFNode.single_step_forward c) s [])).
Proof.
  split; (split; [reflexivity |]; split; [reflexivity |]); intros Hsame; exact Hsame.
Qed.

(** ** C2: reset after fire, by the spike of the same step *)

Lemma run_body_nth {F : Type} (body : tensor F -> tensor F -> tensor F * tensor F)
    (x_seq : list (tensor F)) :
  forall (v0 : tensor F) (t : nat) (x_t : tensor F),
    nth_error x_seq t = Some x_t ->
    let '(spike_seq, _, traj) := run_body body x_seq v0 in
    nth_error spike_seq t = Some (fst (body x_t (potential_before v0 traj t)))
    /\ nth_error traj t = Some (snd (body x_t (potential_before v0 traj t))).
Proof.
  induction x_seq as [| x x_seq IH]; intros v0 t x_t Ht.
  - now destruct t.
  - cbn [run_body]. destruct (body x v0) as [spike v1] eqn:Eb.
    specialize (IH v1).
    destruct (run_body body x_seq v1) as [[ss vl] traj].
    destruct t as [| t].
    + injection Ht as <-. unfold potential_before. cbn. now rewrite Eb.
    + specialize (IH t x_t Ht).
      replace (potential_before v0 (v1 :: traj) (S t))
        with (potential_before v1 traj t) by now destruct t.
      exact IH.
Qed.

(** The reset line of the [jit_eval_*_hard_reset] functions is
    [BaseNode.jit_hard_reset] with its operands commuted. *)
Lemma jit_eval_hard_reset_form (h spike : tensor float) (r : float) :
  map2 (fun spike v => r * spike + (1 - spike) * v)%float spike h
  = BaseNode.jit_hard_reset h spike r.
Proof.
  unfold BaseNode.jit_hard_reset. revert spike.
  induction h as [| a h IH]; intros [| b spike]; cbn; try reflexivity.
  rewrite IH. f_equal.
  now rewrite add_comm, (mul_comm r b).
Qed.

(** The steps of the loop of [GatedLIFNode.multi_step_forward] over the
    indices [a, ..., a + n - 1]: each charges the potential the step
    before left, resets by the spike the step before fired (the spike the
    loop is entered with, at the first), and fires from the potential so
    reset, which is the potential it leaves. *)
Lemma gated_loop_steps {F : Type} `{Scalar F} (sigmoid : F -> F)
    (c : GatedLIFNode.config F) (x_seq : list (tensor F)) (alpha beta gamma : F)
    (n : nat) :
  forall (a : nat) (s : GatedLIFNode.state F) (spike : tensor F)
         (y_seq : list (tensor F)),
    (a + n <= List.length x_seq)%nat ->
    (a + n <= List.length (GatedLIFNode.conduct c))%nat ->
    exists (ys traj : list (tensor F)),
      GatedLIFNode.loop sigmoid c x_seq alpha beta gamma (seq a n) s spike y_seq
      = Ok (match n with
            | O => s
            | S _ => {| GatedLIFNode.v := MTensor (last traj []);
                        GatedLIFNode.u := MTensor (last traj []) |}
            end, y_seq ++ ys)
      /\ List.length ys = n /\ List.length traj = n
      /\ forall (i : nat) (x_t : tensor F) (conduct_t : F),
           nth_error x_seq (a + i) = Some x_t ->
           nth_error (GatedLIFNode.conduct c) (a + i) = Some conduct_t ->
           (i < n)%nat ->
           let v_prev := match i with
                         | O => GatedLIFNode.v s
                         | S i' => MTensor (nth i' traj [])
                         end in
           let spike_prev := match i with
                             | O => spike
                             | S i' => nth i' ys []
                             end in
           let u1 := GatedLIFNode.neuronal_charge sigmoid c v_prev x_t alpha beta
                       conduct_t in
           let u2 := GatedLIFNode.neuronal_reset sigmoid c u1 v_prev spike_prev
                       alpha gamma in
           nth_error ys i = Some (GatedLIFNode.neuronal_fire sigmoid c u2)
           /\ nth_error traj i = Some u2.
Proof.
  induction n as [| n IH]; intros a s spike y_seq Hx Hc.
  - exists [], []. rewrite app_nil_r.
    split; [reflexivity |]. split; [reflexivity |]. split; [reflexivity |].
    intros i x_t g _ _ Hi. lia.
  - cbn [seq GatedLIFNode.loop]. unfold getitem.
    destruct (nth_error x_seq a) as [x |] eqn:Ex;
      [| apply nth_error_None in Ex; lia].
    destruct (nth_error (GatedLIFNode.conduct c) a) as [g |] eqn:Eg;
      [| apply nth_error_None in Eg; lia].
    cbn [bind].
    set (u1 := GatedLIFNode.neuronal_charge sigmoid c (GatedLIFNode.v s) x alpha beta g).
    set (u2 := GatedLIFNode.neuronal_reset sigmoid c u1 (GatedLIFNode.v s) spike
                 alpha gamma).
    set (spike' := GatedLIFNode.neuronal_fire sigmoid c u2).
    set (s' := {| GatedLIFNode.v := MTensor u2; GatedLIFNode.u := MTensor u2 |}).
    destruct (IH (S a) s' spike' (y_seq ++ [spike']) ltac:(lia) ltac:(lia))
      as (ys & traj & Hrun & Hys & Htraj & Hsteps).
    exists (spike' :: ys), (u2 :: traj).
    split; [| split; [| split]].
    + rewrite Hrun, <- app_assoc. cbn [app]. f_equal. f_equal.
      destruct n as [| n]; [now destruct traj |].
      destruct traj as [| u3 traj]; [discriminate Htraj |]. reflexivity.
    + cbn [List.length]. now rewrite Hys.
    + cbn [List.length]. now rewrite Htraj.
    + intros i x_t conduct_t Hxt Hgt Hi. destruct i as [| i].
      * rewrite Nat.add_0_r in Hxt, Hgt.
        rewrite Ex in Hxt. rewrite Eg in Hgt.
        injection Hxt as <-. injection Hgt as <-.
        split; reflexivity.
      * rewrite <- plus_n_Sm in Hxt, Hgt.
        specialize (Hsteps i x_t conduct_t Hxt Hgt ltac:(lia)).
        cbn [nth_error].
        destruct i as [| i]; exact Hsteps.
Qed.

(** C2 (as amended).  In every step run by [BaseNode.single_step_forward]
    -- a single-step call, and each of the [T] steps of a
    [BaseNode.multi_step_forward] that calls it, whatever
    [neuronal_charge], [neuronal_fire] and [neuronal_reset] the subclass
    supplies -- the spike returned is fired from the charged potential,
    and the potential left is the reset of the charged potential by that
    same spike.  The evaluation-mode steps of [IFNode] and [LIFNode] are
    of the same form, with the spike [1[v >= v_threshold]]; so are the
    steps of [AdaptBaseNode] (which also adapts [w] between the charge and
    the fire), [SimpleIFNode], [SimpleLIFNode], [CLIFNode], and of
    [OTTTLIFNode] and [SLTTLIFNode] in training mode on the torch backend.
    [GatedLIFNode.multi_step_forward] is different: each of its [T] steps
    charges the potential the step before left, resets it by the spike of
    the step before (zeros at the first step), then fires from the
    potential so reset, and leaves this potential, not reset by the spike
    just fired. *)
Theorem reset_follows_fire :
  (forall (F : Type) (M : BaseNode.methods F) (s : BaseNode.state F) (x : tensor F),
      let h := BaseNode.m_neuronal_charge M
                 (BaseNode.v_float_to_tensor (BaseNode.v s) x) x in
      let spike := BaseNode.m_neuronal_fire M h in
      BaseNode.single_step_forward M s x
      = (spike, {| BaseNode.v := MTensor (BaseNode.m_neuronal_reset M h spike);
                   BaseNode.v_seq := BaseNode.v_seq s |}))
  /\
  (forall (F : Type) (M : BaseNode.methods F) (s : BaseNode.state F)
          (x : tensor F) (x_seq : list (tensor F)),
      exists (y_seq traj : list (tensor F)) (v_last : tensor F),
        BaseNode.multi_step_forward
          (fun s x => Returns (BaseNode.single_step_forward M s x))
          BaseNode.v BaseNode.set_v_seq true s (x :: x_seq)
        = Returns (y_seq,
                   {| BaseNode.v := MTensor v_last; BaseNode.v_seq := Some traj |})
        /\ forall (t : nat) (x_t : tensor F),
             nth_error (x :: x_seq) t = Some x_t ->
             let v_prev :=
               potential_before (BaseNode.v_float_to_tensor (BaseNode.v s) x) traj t in
             let h := BaseNode.m_neuronal_charge M v_prev x_t in
             let spike := BaseNode.m_neuronal_fire M h in
             nth_error y_seq t = Some spike
             /\ nth_error traj t = Some (BaseNode.m_neuronal_reset M h spike))
  /\
  (forall (v_threshold v_reset : float) (x v : tensor float),
      let h := IFNode.neuronal_charge v x in
      let spike := spike_of v_threshold h in
      IFNode.jit_eval_single_step_forward_hard_reset v_threshold v_reset x v
      = (spike, BaseNode.jit_hard_reset h spike v_reset)
      /\ IFNode.jit_eval_single_step_forward_soft_reset v_threshold x v
         = (spike, BaseNode.jit_soft_reset h spike v_threshold))
  /\
  (forall (v_threshold v_reset tau : float) (x v : tensor float),
      (let h := LIFNode.neuronal_charge_decay_input x v v_reset tau in
       LIFNode.jit_eval_single_step_forward_hard_reset_decay_input
         v_threshold v_reset tau x v
       = (spike_of v_threshold h,
          BaseNode.jit_hard_reset h (spike_of v_threshold h) v_reset))
      /\
      (let h := LIFNode.neuronal_charge_no_decay_input x v v_reset tau in
       LIFNode.jit_eval_single_step_forward_hard_reset_no_decay_input
         v_threshold v_reset tau x v
       = (spike_of v_threshold h,
          BaseNode.jit_hard_reset h (spike_of v_threshold h) v_reset))
      /\
      (let h := LIFNode.neuronal_charge_decay_input_reset0 x v tau in
       LIFNode.jit_eval_single_step_forward_soft_reset_decay_input v_threshold tau x v
       = (spike_of v_threshold h,
          BaseNode.jit_soft_reset h (spike_of v_threshold h) v_threshold))
      /\
      (let h := LIFNode.neuronal_charge_no_decay_input_reset0 x v tau in
       LIFNode.jit_eval_single_step_forward_soft_reset_no_decay_input v_threshold tau x v
       = (spike_of v_threshold h,
          BaseNode.jit_soft_reset h (spike_of v_threshold h) v_threshold)))
  /\
  (forall (F : Type) (HF : Scalar F)
          (self_neuronal_charge : tensor F -> tensor F -> tensor F -> tensor F)
          (c : BaseNode.config F) (v_rest tau_w a b : F) (v w : memory F)
          (x : tensor F),
      let w0 := AdaptBaseNode.w_float_to_tensor w x in
      let h := self_neuronal_charge (BaseNode.v_float_to_tensor v x) w0 x in
      let w1 := AdaptBaseNode.jit_neuronal_adaptation w0 tau_w a v_rest h in
      let spike := BaseNode.neuronal_fire c h in
      AdaptBaseNode.single_step_forward self_neuronal_charge c v_rest tau_w a b v w x
      = (spike, AdaptBaseNode.neuronal_reset c b h w1 spike))
  /\
  (forall (F : Type) (HF : Scalar F) (v : memory F) (x : tensor F),
      (forall (c : SimpleBaseNode.config F),
          let h := map2 (fun v x => (v + x)%sc) (BaseNode.v_float_to_tensor v x) x in
          let spike := SimpleBaseNode.neuronal_fire c h in
          SimpleIFNode.single_step_forward c v x
          = Ok (spike, MTensor (SimpleBaseNode.neuronal_reset c h spike)))
      /\
      (forall (c : SimpleLIFNode.config F) (h : tensor F),
          SimpleLIFNode.neuronal_charge c v x = Ok h ->
          let spike := SimpleBaseNode.neuronal_fire (SimpleLIFNode.base c) h in
          SimpleLIFNode.single_step_forward c v x
          = Ok (spike,
                MTensor (SimpleBaseNode.neuronal_reset (SimpleLIFNode.base c) h spike))))
  /\
  (forall (F : Type) (HF : Scalar F) (cfg : CLIFNode.config F)
          (s : CLIFNode.state F) (x : tensor F),
      let charged :=
        CLIFNode.neuronal_charge cfg
          (BaseNode.v_float_to_tensor (CLIFNode.v s) x)
          (CLIFNode.c_float_to_tensor (CLIFNode.c s) x) x in
      let h := snd charged in
      let spike := BaseNode.neuronal_fire (CLIFNode.base cfg) h in
      CLIFNode.single_step_forward cfg s x
      = (spike,
         {| CLIFNode.v := MTensor (BaseNode.neuronal_reset (CLIFNode.base cfg) h spike);
            CLIFNode.c := MTensor (fst charged) |}))
  /\
  (forall (F : Type) (HF : Scalar F) (c : LIFNode.config F) (x v0 : tensor F),
      BaseNode.training (LIFNode.base c) = true ->
      BaseNode.backend (LIFNode.base c) = "torch"%string ->
      let h := LIFNode.neuronal_charge c v0 x in
      let spike := BaseNode.neuronal_fire (LIFNode.base c) h in
      let v' := BaseNode.neuronal_reset (LIFNode.base c) h spike in
      (forall trace : option (tensor F),
          exists trace',
            OTTTLIFNode.single_step_forward c
              {| OTTTLIFNode.v := Some v0; OTTTLIFNode.trace := trace |} x
            = Returns (OTTTLIFNode.SpikeAndTrace spike trace',
                       {| OTTTLIFNode.v := Some v'; OTTTLIFNode.trace := Some trace' |}))
      /\ SLTTLIFNode.single_step_forward c (Some v0) x = Returns (spike, Some v'))
  /\
  (forall (F : Type) (HF : Scalar F) (sigmoid : F -> F)
          (c : GatedLIFNode.config F) (s : GatedLIFNode.state F)
          (x_seq : list (tensor F)),
      (1 <= GatedLIFNode.T c <= List.length x_seq)%nat ->
      (GatedLIFNode.T c <= List.length (GatedLIFNode.conduct c))%nat ->
      exists (y_seq traj : list (tensor F)),
        GatedLIFNode.multi_step_forward sigmoid c s x_seq
        = Ok (y_seq, {| GatedLIFNode.v := MTensor (last traj []);
                        GatedLIFNode.u := MTensor (last traj []) |})
        /\ List.length y_seq = GatedLIFNode.T c
        /\ List.length traj = GatedLIFNode.T c
        /\ forall (t : nat) (x_t : tensor F) (conduct_t : F),
             nth_error x_seq t = Some x_t ->
             nth_error (GatedLIFNode.conduct c) t = Some conduct_t ->
             (t < GatedLIFNode.T c)%nat ->
             let v_prev := match t with
                           | O => GatedLIFNode.v s
                           | S t' => MTensor (nth t' traj [])
                           end in
             let spike_prev := match t with
                               | O => zeros_like (hd [] x_seq)
                               | S t' => nth t' y_seq []
                               end in
             let alpha := sigmoid (GatedLIFNode.alpha c) in
             let beta := sigmoid (GatedLIFNode.beta c) in
             let gamma := sigmoid (GatedLIFNode.gamma c) in
             let u1 := GatedLIFNode.neuronal_charge sigmoid c v_prev x_t alpha beta
                         conduct_t in
             let u2 := GatedLIFNode.neuronal_reset sigmoid c u1 v_prev spike_prev
                         alpha gamma in
             nth_error y_seq t = Some (GatedLIFNode.neuronal_fire sigmoid c u2)
             /\ nth_error traj t = Some u2).
Proof.
  split; [| split; [| split; [| split; [| split; [| split; [| split; [| split]]]]]]].
  - reflexivity.
  - intros F M s x x_seq.
    rewrite (multi_step_forward_unroll (step_of M) _ (fun s x => eq_refl)).
    pose proof (run_body_nth (step_of M) (x :: x_seq)
                  (BaseNode.v_float_to_tensor (BaseNode.v s) x)) as Hn.
    destruct (run_body (step_of M) (x :: x_seq) _) as [[ss vl] traj].
    exists ss, traj, vl. split; [reflexivity |].
    intros t x_t Ht. exact (Hn t x_t Ht).
  - intros vth r x v. cbv zeta. split.
    + unfold IFNode.jit_eval_single_step_forward_hard_reset, IFNode.neuronal_charge.
      apply (f_equal (pair _)). exact (jit_eval_hard_reset_form _ _ _).
    + reflexivity.
  - intros vth r tau x v. cbv zeta. repeat split.
    + unfold LIFNode.jit_eval_single_step_forward_hard_reset_decay_input.
      apply (f_equal (pair _)). exact (jit_eval_hard_reset_form _ _ _).
    + unfold LIFNode.jit_eval_single_step_forward_hard_reset_no_decay_input.
      apply (f_equal (pair _)). exact (jit_eval_hard_reset_form _ _ _).
  - reflexivity.
  - intros F HF v x. split.
    + reflexivity.
    + intros c h Hh. cbv zeta.
      unfold SimpleLIFNode.single_step_forward, SimpleBaseNode.single_step_forward.
      now rewrite Hh.
  - intros F HF cfg s x. cbv zeta. unfold CLIFNode.single_step_forward.
    now destruct (CLIFNode.neuronal_charge cfg _ _ x) as [c1 v1].
  - intros F HF c x v0 Htr Hb. cbv zeta. split.
    + intros trace. unfold OTTTLIFNode.single_step_forward.
      rewrite Htr, Hb. cbn [String.eqb Ascii.eqb Bool.eqb OTTTLIFNode.v].
      eexists. reflexivity.
    + unfold SLTTLIFNode.single_step_forward.
      rewrite Htr, Hb. reflexivity.
  - intros F HF sigmoid c s x_seq HT Hc.
    unfold GatedLIFNode.multi_step_forward.
    destruct (gated_loop_steps sigmoid c x_seq (sigmoid (GatedLIFNode.alpha c))
                (sigmoid (GatedLIFNode.beta c)) (sigmoid (GatedLIFNode.gamma c))
                (GatedLIFNode.T c) 0%nat s (zeros_like (hd [] x_seq)) []
                ltac:(cbn; lia) ltac:(cbn; lia))
      as (ys & traj & Hrun & Hys & Htraj & Hsteps).
    exists ys, traj. cbv zeta. rewrite Hrun. cbn [bind snd fst app].
    destruct (GatedLIFNode.T c) as [| n] eqn:ET; [lia |].
    destruct ys as [| y ys]; [discriminate Hys |].
    cbn [stack bind].
    split; [reflexivity |]. split; [exact Hys |]. split; [exact Htraj |].
    intros t x_t conduct_t Hxt Hgt Ht.
    exact (Hsteps t x_t conduct_t Hxt Hgt Ht).
Qed.

(** C2 as stated fails on [GatedLIFNode]: its loop resets by the spike of
    the step before, then fires.  Two steps from the initial state on the
    inputs [2.] and [2.] fire twice and leave the potential [1.46875]:
    the first step leaves [1.25], not reset by its own spike, and the
    second resets by that spike of the first.  Charge, fire, reset by the
    spike just fired would leave [1.] after the first step and [1.375]
    after the second. *)
Lemma gated_lif_resets_before_fire :
  GatedLIFNode.multi_step_forward sigmoid_at_0 gated_lif_2 GatedLIFNode.init
    [[2%float]; [2%float]]
  = Ok ([[1%float]; [1%float]],
        {| GatedLIFNode.v := MTensor [1.46875%float];
           GatedLIFNode.u := MTensor [1.46875%float] |})
  /\ gated_lif_2_by_own_spike [2%float] [2%float]
     = ([[1%float]; [1%float]],
        {| GatedLIFNode.v := MTensor [1.375%float];
           GatedLIFNode.u := MTensor [1.375%float] |})
  /\ GatedLIFNode.multi_step_forward sigmoid_at_0 gated_lif_2 GatedLIFNode.init
       [[2%float]; [2%float]]
     <> Ok (gated_lif_2_by_own_spike [2%float] [2%float])
  /\ GatedLIFNode.multi_step_forward sigmoid_at_0 gated_lif GatedLIFNode.init
       [[2%float]]
     <> Ok (let '(spike, s) :=
              GatedLIFNode.step_charge_fire_reset sigmoid_at_0 gated_lif
                GatedLIFNode.init [2%float] 0%float in
            ([spike], s)).
Proof.
  split; [reflexivity |]. split; [reflexivity |]. split.
  - intros Heq. apply (f_equal gated_lif_potential) in Heq.
    vm_compute in Heq. discriminate Heq.
  - intros Heq. apply (f_equal gated_lif_potential) in Heq.
    vm_compute in Heq. discriminate Heq.
Qed.

(** ** C3: the hard reset, element by element *)

Section HardReset.
Local Open Scope float_scope.







End HardReset.

(** ** C4: below the threshold after a hard reset *)

Section BelowThreshold.
Local Open Scope float_scope.





End BelowThreshold.

(** ** C6: the [reset0] charge and the general charge at [v_reset = 0.] *)

Section Reset0.

Lemma decay_input_reset0_bits (x v : tensor float) (tau : float) :
  LIFNode.neuronal_charge_decay_input_reset0 x v tau
  = LIFNode.neuronal_charge_decay_input x v 0%float tau.
Proof.
  unfold LIFNode.neuronal_charge_decay_input_reset0, LIFNode.neuronal_charge_decay_input.
  revert x. induction v as [| a v IH]; intros [| b x]; cbn [map2]; try reflexivity.
  rewrite IH. f_equal.
  change ((a + (b - a) / tau)%float = (a + (b - (a - 0)) / tau)%float).
  now rewrite sub_0_r.
Qed.

Lemma no_decay_input_reset0_exact (x v : tensor Q) (tau : Q) :
  Forall2 Qeq
    (LIFNode.neuronal_charge_no_decay_input_reset0 x v tau)
    (LIFNode.neuronal_charge_no_decay_input x v 0%Q tau).
Proof.
  unfold LIFNode.neuronal_charge_no_decay_input_reset0,
    LIFNode.neuronal_charge_no_decay_input.
  revert x. induction v as [| a v IH]; intros [| b x]; cbn [map2]; constructor.
  - cbn [s_add s_sub s_mul s_div s_one Exact]. unfold Qdiv. ring.
  - apply IH.
Qed.

(** C6 (as amended).  With [decay_input] the [reset0] charge
    [v + (x - v) / tau] is bit for bit the general charge
    [v + (x - (v - v_reset)) / tau] at [v_reset = 0.], for every [v], [x]
    and [tau]; so [LIFNode.neuronal_charge], which takes the [reset0] form
    under soft reset and under [v_reset = 0.], computes the general
    formula at [0.] there.  Without [decay_input] the [reset0] charge
    [v * (1. - 1. / tau) + x] and the general charge
    [v - (v - v_reset) / tau + x] at [v_reset = 0] are equal in exact
    arithmetic. *)
Theorem reset0_charge :
  (forall (x v : tensor float) (tau : float),
      LIFNode.neuronal_charge_decay_input_reset0 x v tau
      = LIFNode.neuronal_charge_decay_input x v 0%float tau)
  /\
  (forall (c : LIFNode.config float) (x v : tensor float),
      LIFNode.decay_input c = true ->
      BaseNode.v_reset (LIFNode.base c) = None
      \/ BaseNode.v_reset (LIFNode.base c) = Some 0%float ->
      LIFNode.neuronal_charge c v x
      = LIFNode.neuronal_charge_decay_input x v 0%float (LIFNode.tau c))
  /\
  (forall (x v : tensor Q) (tau : Q),
      Forall2 Qeq
        (LIFNode.neuronal_charge_no_decay_input_reset0 x v tau)
        (LIFNode.neuronal_charge_no_decay_input x v 0%Q tau)).
Proof.
  split; [| split].
  - exact decay_input_reset0_bits.
  - intros c x v Hd Hr. unfold LIFNode.neuronal_charge. rewrite Hd.
    destruct Hr as [-> | ->]; [apply decay_input_reset0_bits |].
    change (0 ==? s_zero)%sc with true. apply decay_input_reset0_bits.
  - exact no_decay_input_reset0_exact.
Qed.

(** C6 as stated fails without [decay_input]: in binary64, at
    [tau = 5.], [v = 3.] and [x = 0.], the [reset0] charge is
    [2.4000000000000004] and the general charge at [v_reset = 0.] is
    [2.4]. *)
Lemma no_decay_input_reset0_not_bits :
  LIFNode.neuronal_charge_no_decay_input_reset0 [0%float] [3%float] 5%float
  <> LIFNode.neuronal_charge_no_decay_input [0%float] [3%float] 0%float 5%float.
Proof.
  intros Heq. apply (f_equal (fun t => the_element (MTensor t))) in Heq.
  vm_compute in Heq. discriminate Heq.
Qed.

End Reset0.

(** ** C7: the band of the DSR input gradient *)

Section DSR.
Local Open Scope float_scope.







End DSR.

(** ** C8: what the constructors validate *)

Section Constructors.
Local Open Scope float_scope.








End Constructors.

(** ** C9: a backend the variant does not support *)


Section Backends.
Context {F : Type} `{Scalar F}.
Import BaseNode.
Local Open Scope string_scope.







End Backends.


(** ** C10: what [OTTTLIFNode.single_step_forward] returns *)

Section OTTT.
Context {F : Type} `{Scalar F}.
Import BaseNode.
Local Open Scope scalar_scope.

(** C10.  In training mode on the torch backend,
    [OTTTLIFNode.single_step_forward] returns the two-element list
    [[spike, trace]]: the spike is fired from the potential charged by [x]
    (from the potential stored, [v_reset] or zeros at the first call), the
    potential stored is the reset of the charged potential by that spike,
    and the trace, created as zeros at the first call, becomes
    [trace * (1. - 1. / tau) + spike] and is stored in the module.  In
    evaluation mode it returns the spike tensor alone, that of the
    evaluation step of [LIFNode] from the same potential, and leaves the
    trace as it was: not created if there was none, not updated if there
    was one. *)
Theorem ottt_return_type :
  forall (c : LIFNode.config F) (s : OTTTLIFNode.state F) (x : tensor F),
    let b := LIFNode.base c in
    let v0 := match OTTTLIFNode.v s with
              | Some v => v
              | None => match v_reset b with
                        | None => zeros_like x
                        | Some r => map (fun o => o * r) (ones_like x)
                        end
              end in
    (training b = true ->
     backend b = "torch"%string ->
     let trace0 := match OTTTLIFNode.trace s with
                   | Some tr => tr
                   | None => zeros_like x
                   end in
     let h := LIFNode.neuronal_charge c v0 x in
     let spike := neuronal_fire b h in
     let trace1 :=
       map2 (fun trace spike => trace * (s_one - s_one / LIFNode.tau c) + spike)
            trace0 spike in
     OTTTLIFNode.single_step_forward c s x
     = Returns (OTTTLIFNode.SpikeAndTrace spike trace1,
                {| OTTTLIFNode.v := Some (neuronal_reset b h spike);
                   OTTTLIFNode.trace := Some trace1 |}))
    /\
    (training b = false ->
     OTTTLIFNode.single_step_forward c s x
     = Returns (OTTTLIFNode.Spike (fst (LIFNode.eval_single_step c x v0)),
                {| OTTTLIFNode.v := Some (snd (LIFNode.eval_single_step c x v0));
                   OTTTLIFNode.trace := OTTTLIFNode.trace s |})).
Proof.
  intros c s x b v0. split.
  - intros Htr Hb. unfold OTTTLIFNode.single_step_forward.
    fold b. rewrite Htr, Hb. cbn [String.eqb Ascii.eqb Bool.eqb].
    reflexivity.
  - intros Htr. unfold OTTTLIFNode.single_step_forward. fold b.
    rewrite Htr. fold v0.
    now destruct (LIFNode.eval_single_step c x v0) as [spike v'].
Qed.

End OTTT.

(** ** The theorems at concrete inputs *)

(** The next conjunct of the goal is the hypothesis [H] just checked. *)
Ltac checked H := split; [exact H |].

Lemma reset_follows_fire_witness :
  (let M := IFNode.methods_of (fst (if_neuron "m" true)) in
   let s := snd (if_neuron "m" true) in
   exists y_seq traj v_last,
     BaseNode.multi_step_forward
       (fun s x => Returns (BaseNode.single_step_forward M s x))
       BaseNode.v BaseNode.set_v_seq true s [[0.6]; [0.6]]%float
     = Returns (y_seq, {| BaseNode.v := MTensor v_last; BaseNode.v_seq := Some traj |})
     /\ nth_error [[0.6]; [0.6]]%float 1 = Some [0.6%float]
     /\ nth_error y_seq 1 = Some [1%float]
     /\ nth_error traj 1 = Some [0%float])
  /\
  ((1 <= GatedLIFNode.T gated_lif_2 <= List.length [[2]; [2]]%float)%nat
   /\ (GatedLIFNode.T gated_lif_2 <= List.length (GatedLIFNode.conduct gated_lif_2))%nat
   /\ exists y_seq traj,
        GatedLIFNode.multi_step_forward sigmoid_at_0 gated_lif_2 GatedLIFNode.init
          [[2]; [2]]%float
        = Ok (y_seq, {| GatedLIFNode.v := MTensor (last traj []);
                        GatedLIFNode.u := MTensor (last traj []) |})
        /\ nth_error y_seq 0 = Some [1%float]
        /\ nth_error traj 0 = Some [1.25%float]
        /\ nth_error y_seq 1 = Some [1%float]
        /\ nth_error traj 1 = Some [1.46875%float]).
Proof.
  split.
  - intros M s.
    destruct (proj1 (proj2 reset_follows_fire) float M s [0.6%float] [[0.6%float]])
      as (y_seq & traj & v_last & Hrun & Hsteps).
    exists y_seq, traj, v_last.
    split; [exact Hrun |]. split; [reflexivity |].
    pose proof (Hsteps 1%nat [0.6%float] eq_refl) as Hstep.
    vm_compute in Hrun. injection Hrun as <- <- <-.
    exact Hstep.
  - assert (HT : (1 <= GatedLIFNode.T gated_lif_2 <= List.length [[2]; [2]]%float)%nat)
      by (cbn; lia).
    assert (Hc : (GatedLIFNode.T gated_lif_2
                  <= List.length (GatedLIFNode.conduct gated_lif_2))%nat)
      by (cbn; lia).
    checked HT. checked Hc.
    destruct (proj2 (proj2 (proj2 (proj2 (proj2 (proj2 (proj2 (proj2
                reset_follows_fire)))))))
                float Float64 sigmoid_at_0 gated_lif_2 GatedLIFNode.init
                [[2]; [2]]%float HT Hc)
      as (y_seq & traj & Hrun & _ & _ & Hsteps).
    exists y_seq, traj. split; [exact Hrun |].
    assert (Hlt0 : (0 < GatedLIFNode.T gated_lif_2)%nat) by (cbn; lia).
    assert (Hlt1 : (1 < GatedLIFNode.T gated_lif_2)%nat) by (cbn; lia).
    destruct (Hsteps 0%nat [2%float] 0%float eq_refl eq_refl Hlt0) as [Hy0 Ht0].
    destruct (Hsteps 1%nat [2%float] 0%float eq_refl eq_refl Hlt1) as [Hy1 Ht1].
    split; [exact Hy0 |]. split; [exact Ht0 |].
    destruct y_seq as [| y_0 y_seq]; [discriminate Hy0 |].
    destruct traj as [| u_0 traj]; [discriminate Ht0 |].
    injection Hy0 as ->. injection Ht0 as ->.
    split; [exact Hy1 | exact Ht1].
Defined.



Lemma multi_step_equals_sequential_witness :
  (let '(c, s) := if_neuron "m" false in
   (BaseNode.training c = false \/ BaseNode.backend c = "torch"%string)
   /\ returns (IFNode.multi_step_forward c s x_0_6)
   /\ same_run BaseNode.v (IFNode.multi_step_forward c s x_0_6)
        (sequential (IFNode.single_step_forward c) s x_0_6))
  /\
  ((BaseNode.training (LIFNode.base lif_eval) = false
    \/ BaseNode.backend (LIFNode.base lif_eval) = "torch"%string)
   /\ returns (LIFNode.multi_step_forward lif_eval (snd (if_neuron "m" false)) x_0_6)
   /\ same_run BaseNode.v
        (LIFNode.multi_step_forward lif_eval (snd (if_neuron "m" false)) x_0_6)
        (sequential (LIFNode.single_step_forward lif_eval)
           (snd (if_neuron "m" false)) x_0_6))
  /\
  ((forall s l, BaseNode.v (BaseNode.set_v_seq (F := float) s l) = BaseNode.v s)
   /\ same_run BaseNode.v
        (BaseNode.multi_step_forward
           (fun s x => Returns (BaseNode.single_step_forward
                                  (IFNode.methods_of (fst (if_neuron "m" true))) s x))
           BaseNode.v BaseNode.set_v_seq true (snd (if_neuron "m" true)) x_0_6)
        (sequential
           (fun s x => Returns (BaseNode.single_step_forward
                                  (IFNode.methods_of (fst (if_neuron "m" true))) s x))
           (snd (if_neuron "m" true)) x_0_6))
  /\
  (exists c s,
      qif_node "m" "torch" = Ok (c, s)
      /\ BaseNode.backend (QIFNode.base c) = "torch"%string
      /\ returns (QIFNode.multi_step_forward c s x_0_6)
      /\ same_run BaseNode.v (QIFNode.multi_step_forward c s x_0_6)
           (sequential (QIFNode.single_step_forward c) s x_0_6)).
Proof.
  split; [| split; [| split]].
  - cbn [if_neuron BaseNode.__init__ BaseNode.set_training].
    assert (Hmode : BaseNode.training (fst (if_neuron "m" false)) = false
                    \/ BaseNode.backend (fst (if_neuron "m" false)) = "torch"%string)
      by (left; reflexivity).
    checked Hmode.
    exact (proj1 (proj2 (@multi_step_equals_sequential float Float64))
             (fst (if_neuron "m" false)) (snd (if_neuron "m" false))
             [0.6%float] [[0.6%float]; [0.6%float]; [0.6%float]] Hmode).
  - assert (Hmode : BaseNode.training (LIFNode.base lif_eval) = false
                    \/ BaseNode.backend (LIFNode.base lif_eval) = "torch"%string)
      by (left; reflexivity).
    checked Hmode.
    exact (proj1 (proj2 (proj2 (@multi_step_equals_sequential float Float64)))
             lif_eval (snd (if_neuron "m" false))
             [0.6%float] [[0.6%float]; [0.6%float]; [0.6%float]] Hmode).
  - assert (Hset : forall s l,
               BaseNode.v (BaseNode.set_v_seq (F := float) s l) = BaseNode.v s)
      by reflexivity.
    checked Hset.
    exact (proj1 (@multi_step_equals_sequential float Float64) _ _ _ _ Hset true
             (snd (if_neuron "m" true))
             [0.6%float] [[0.6%float]; [0.6%float]; [0.6%float]]).
  - pose (node := BaseNode.__init__ 1%float (Some (-0.1)%float) heaviside false
                    "m" "torch" false).
    pose (c := {| QIFNode.base := fst node; QIFNode.tau := 2%float;
                  QIFNode.v_c := 0.8%float; QIFNode.v_rest := 0%float;
                  QIFNode.a0 := 1%float |}).
    exists c, (snd node). split; [reflexivity |].
    assert (Hb : BaseNode.backend (QIFNode.base c) = "torch"%string) by reflexivity.
    checked Hb.
    exact (proj1 (proj2 (proj2 (proj2 (@multi_step_equals_sequential float Float64))))
             c (snd node) [0.6%float] [[0.6%float]; [0.6%float]; [0.6%float]] Hb).
Defined.

Lemma reset0_charge_witness :
  LIFNode.decay_input lif_eval = true
  /\ (BaseNode.v_reset (LIFNode.base lif_eval) = None
      \/ BaseNode.v_reset (LIFNode.base lif_eval) = Some 0%float)
  /\ LIFNode.neuronal_charge lif_eval [3%float] [1%float]
     = LIFNode.neuronal_charge_decay_input [1%float] [3%float] 0%float
         (LIFNode.tau lif_eval).
Proof.
  assert (Hd : LIFNode.decay_input lif_eval = true) by reflexivity.
  assert (Hr : BaseNode.v_reset (LIFNode.base lif_eval) = None
               \/ BaseNode.v_reset (LIFNode.base lif_eval) = Some 0%float)
    by (right; reflexivity).
  checked Hd. checked Hr.
  exact (proj1 (proj2 reset0_charge) lif_eval [1%float] [3%float] Hd Hr).
Defined.




Lemma ottt_return_type_witness :
  let first := {| OTTTLIFNode.v := None; OTTTLIFNode.trace := None |} in
  let second := {| OTTTLIFNode.v := Some [0.5%float];
                   OTTTLIFNode.trace := Some [1%float] |} in
  (BaseNode.training (LIFNode.base (ottt_lif true)) = true
   /\ BaseNode.backend (LIFNode.base (ottt_lif true)) = "torch"%string
   /\ OTTTLIFNode.single_step_forward (ottt_lif true) first [1.5%float]
      = Returns (OTTTLIFNode.SpikeAndTrace [1%float] [1%float], second)
   /\ OTTTLIFNode.single_step_forward (ottt_lif true) second [1.5%float]
      = Returns (OTTTLIFNode.SpikeAndTrace [1%float] [1.5%float],
                 {| OTTTLIFNode.v := Some [0.75%float];
                    OTTTLIFNode.trace := Some [1.5%float] |}))
  /\
  (BaseNode.training (LIFNode.base (ottt_lif false)) = false
   /\ OTTTLIFNode.single_step_forward (ottt_lif false) first [1.5%float]
      = Returns (OTTTLIFNode.Spike [1%float],
                 {| OTTTLIFNode.v := Some [0.5%float]; OTTTLIFNode.trace := None |})
   /\ OTTTLIFNode.single_step_forward (ottt_lif false) second [1.5%float]
      = Returns (OTTTLIFNode.Spike [1%float],
                 {| OTTTLIFNode.v := Some [0.75%float];
                    OTTTLIFNode.trace := Some [1%float] |})).
Proof.
  intros first second. split.
  - assert (Htr : BaseNode.training (LIFNode.base (ottt_lif true)) = true) by reflexivity.
    assert (Hb : BaseNode.backend (LIFNode.base (ottt_lif true)) = "torch"%string)
      by reflexivity.
    checked Htr. checked Hb. split.
    + exact (proj1 (@ottt_return_type float Float64 (ottt_lif true) first [1.5%float])
               Htr Hb).
    + exact (proj1 (@ottt_return_type float Float64 (ottt_lif true) second [1.5%float])
               Htr Hb).
  - assert (Htr : BaseNode.training (LIFNode.base (ottt_lif false)) = false)
      by reflexivity.
    checked Htr. split.
    + exact (proj2 (@ottt_return_type float Float64 (ottt_lif false) first [1.5%float])
               Htr).
    + exact (proj2 (@ottt_return_type float Float64 (ottt_lif false) second [1.5%float])
               Htr).
Defined.

(** * Further properties of the code *)

(** ** A multi-step call as a recursion on the input sequence *)

Section MultiStepRuns.
Context {F : Type} `{Scalar F}.
Import BaseNode.

Lemma if_multi_step_run_body (c : config F) (s : state F)
    (x : tensor F) (x_seq : list (tensor F)) :
  training c = false \/ backend c = "torch"%string ->
  IFNode.multi_step_forward c s (x :: x_seq)
  = let '(spike_seq, v_last, traj) :=
      run_body (if_step c) (x :: x_seq) (v_float_to_tensor (v s) x) in
    Returns (spike_seq,
             {| v := MTensor v_last;
                v_seq := if store_v_seq c then Some traj else v_seq s |}).
Proof.
  intros Hmode. unfold IFNode.multi_step_forward, if_step.
  destruct (training c) eqn:Etr.
  - destruct Hmode as [Hmode | Hb]; [discriminate |].
    rewrite Hb. cbn [String.eqb Ascii.eqb Bool.eqb].
    pose proof (if_single_step_training c Etr Hb) as Hstep.
    now rewrite (multi_step_forward_unroll (step_of (IFNode.methods_of c)) _ Hstep).
  - cbn [first_step bind].
    unfold IFNode.jit_eval_multi_step_forward_hard_reset_with_v_seq,
      IFNode.jit_eval_multi_step_forward_hard_reset,
      IFNode.jit_eval_multi_step_forward_soft_reset_with_v_seq,
      IFNode.jit_eval_multi_step_forward_soft_reset,
      IFNode.jit_eval_single_step_forward_hard_reset,
      IFNode.jit_eval_single_step_forward_soft_reset.
    destruct (v_reset c) as [r |], (store_v_seq c);
      rewrite ?jit_loop_with_v_seq_unroll, ?jit_loop_unroll;
      destruct (run_body _ _ _) as [[ss vl] traj]; reflexivity.
Qed.

Lemma lif_multi_step_run_body (c : LIFNode.config F) (s : state F)
    (x : tensor F) (x_seq : list (tensor F)) :
  training (LIFNode.base c) = false \/ backend (LIFNode.base c) = "torch"%string ->
  LIFNode.multi_step_forward c s (x :: x_seq)
  = let '(spike_seq, v_last, traj) :=
      run_body (lif_step c) (x :: x_seq) (v_float_to_tensor (v s) x) in
    Returns (spike_seq,
             {| v := MTensor v_last;
                v_seq := if store_v_seq (LIFNode.base c) then Some traj else v_seq s |}).
Proof.
  intros Hmode. unfold LIFNode.multi_step_forward, lif_step.
  destruct (training (LIFNode.base c)) eqn:Etr.
  - destruct Hmode as [Hmode | Hb]; [discriminate |].
    rewrite Hb. cbn [String.eqb Ascii.eqb Bool.eqb].
    pose proof (lif_single_step_training c Etr Hb) as Hstep.
    now rewrite (multi_step_forward_unroll (step_of (LIFNode.methods_of c)) _ Hstep).
  - cbn [first_step bind of_result].
    unfold LIFNode.eval_multi_step, LIFNode.eval_single_step.
    unfold LIFNode.jit_eval_multi_step_forward_hard_reset_decay_input_with_v_seq,
      LIFNode.jit_eval_multi_step_forward_hard_reset_decay_input,
      LIFNode.jit_eval_multi_step_forward_hard_reset_no_decay_input_with_v_seq,
      LIFNode.jit_eval_multi_step_forward_hard_reset_no_decay_input,
      LIFNode.jit_eval_multi_step_forward_soft_reset_decay_input_with_v_seq,
      LIFNode.jit_eval_multi_step_forward_soft_reset_decay_input,
      LIFNode.jit_eval_multi_step_forward_soft_reset_no_decay_input_with_v_seq,
      LIFNode.jit_eval_multi_step_forward_soft_reset_no_decay_input,
      LIFNode.jit_eval_single_step_forward_hard_reset_decay_input,
      LIFNode.jit_eval_single_step_forward_hard_reset_no_decay_input,
      LIFNode.jit_eval_single_step_forward_soft_reset_decay_input,
      LIFNode.jit_eval_single_step_forward_soft_reset_no_decay_input.
    destruct (v_reset (LIFNode.base c)) as [r |], (LIFNode.decay_input c),
      (store_v_seq (LIFNode.base c));
      rewrite ?jit_loop_with_v_seq_unroll, ?jit_loop_unroll;
      destruct (run_body _ _ _) as [[ss vl] traj]; reflexivity.
Qed.

Lemma last_cons_default {A : Type} (l : list A) :
  forall a d : A, last (a :: l) d = last l a.
Proof.
  induction l as [| b l IH]; intros a d; [reflexivity |].
  change (last (a :: b :: l) d) with (last (b :: l) d).
  now rewrite !IH.
Qed.

(** The shape of a run: one output row and one stored potential per
    step, the last stored potential being the potential left. *)
Lemma run_body_shape (body : tensor F -> tensor F -> tensor F * tensor F)
    (x_seq : list (tensor F)) :
  forall v0 : tensor F,
    let '(spike_seq, v_last, traj) := run_body body x_seq v0 in
    List.length spike_seq = List.length x_seq
    /\ List.length traj = List.length x_seq
    /\ last traj v0 = v_last.
Proof.
  induction x_seq as [| x x_seq IH]; intros v0.
  - cbn. auto.
  - cbn [run_body]. destruct (body x v0) as [spike v1].
    specialize (IH v1).
    destruct (run_body body x_seq v1) as [[ss vl] traj].
    destruct IH as (Hs & Ht & Hl). cbn [List.length]. repeat split; try congruence.
    now rewrite last_cons_default.
Qed.

Lemma run_body_spikes (P : tensor F -> Prop)
    (body : tensor F -> tensor F -> tensor F * tensor F) :
  (forall x v, P (fst (body x v))) ->
  forall (x_seq : list (tensor F)) (v0 : tensor F),
    Forall P (fst (fst (run_body body x_seq v0))).
Proof.
  intros Hb x_seq. induction x_seq as [| x x_seq IH]; intros v0.
  - constructor.
  - cbn [run_body]. pose proof (Hb x v0) as Hx.
    destruct (body x v0) as [spike v1]. specialize (IH v1).
    destruct (run_body body x_seq v1) as [[ss vl] traj].
    cbn [fst] in *. now constructor.
Qed.

End MultiStepRuns.

(** ** Evaluation-mode outputs *)

Section EvalSpikes.
Context {F : Type} `{Scalar F}.
Import BaseNode.

Lemma of_bool_zero_or_one (b : bool) : zero_or_one (of_bool b : F).
Proof. destruct b; [now right | now left]. Qed.

Lemma threshold_spikes_binary (v_threshold : F) (v : tensor F) :
  Forall zero_or_one (map (fun v_i => of_bool (v_i >=? v_threshold)%sc) v).
Proof.
  apply Forall_map. apply Forall_forall. intros a _. apply of_bool_zero_or_one.
Qed.

Lemma if_eval_step_binary (c : config F) :
  training c = false ->
  forall x v : tensor F, Forall zero_or_one (fst (if_step c x v)).
Proof.
  intros Htr x v. unfold if_step. rewrite Htr.
  destruct (v_reset c); apply threshold_spikes_binary.
Qed.

Lemma lif_eval_step_binary (c : LIFNode.config F) :
  training (LIFNode.base c) = false ->
  forall x v : tensor F, Forall zero_or_one (fst (lif_step c x v)).
Proof.
  intros Htr x v. unfold lif_step, LIFNode.eval_single_step. rewrite Htr.
  destruct (v_reset (LIFNode.base c)), (LIFNode.decay_input c);
    apply threshold_spikes_binary.
Qed.

(** In evaluation mode the output of [IFNode] and of [LIFNode] is made of
    [0.] and [1.] only, whatever the surrogate function is: the spike of a
    single-step call, and the [T] rows that a multi-step call on [T >= 1]
    inputs returns. *)
Theorem eval_spikes_are_binary :
  (forall (c : config F) (s : state F) (x : tensor F) (x_seq : list (tensor F)),
      training c = false ->
      (exists (spike : tensor F) (s' : state F),
          IFNode.single_step_forward c s x = Returns (spike, s')
          /\ Forall zero_or_one spike)
      /\
      (exists (y_seq : list (tensor F)) (s' : state F),
          IFNode.multi_step_forward c s (x :: x_seq) = Returns (y_seq, s')
          /\ List.length y_seq = List.length (x :: x_seq)
          /\ Forall (Forall zero_or_one) y_seq))
  /\
  (forall (c : LIFNode.config F) (s : state F) (x : tensor F)
          (x_seq : list (tensor F)),
      training (LIFNode.base c) = false ->
      (exists (spike : tensor F) (s' : state F),
          LIFNode.single_step_forward c s x = Returns (spike, s')
          /\ Forall zero_or_one spike)
      /\
      (exists (y_seq : list (tensor F)) (s' : state F),
          LIFNode.multi_step_forward c s (x :: x_seq) = Returns (y_seq, s')
          /\ List.length y_seq = List.length (x :: x_seq)
          /\ Forall (Forall zero_or_one) y_seq)).
Proof.
  split.
  - intros c s x x_seq Htr. split.
    + rewrite (if_single_step_eval c Htr).
      pose proof (if_eval_step_binary c Htr x (v_float_to_tensor (v s) x)) as Hb.
      unfold if_step in Hb. rewrite Htr in Hb.
      destruct (match v_reset c with
                | None => IFNode.jit_eval_single_step_forward_soft_reset (v_threshold c)
                | Some r =>
                    IFNode.jit_eval_single_step_forward_hard_reset (v_threshold c) r
                end x (v_float_to_tensor (v s) x)) as [spike v'].
      eauto.
    + rewrite (if_multi_step_run_body c s x x_seq (or_introl Htr)).
      pose proof (run_body_shape (if_step c) (x :: x_seq)
                    (v_float_to_tensor (v s) x)) as Hs.
      pose proof (run_body_spikes (Forall zero_or_one) (if_step c)
                    (if_eval_step_binary c Htr) (x :: x_seq)
                    (v_float_to_tensor (v s) x)) as Hb.
      destruct (run_body (if_step c) (x :: x_seq) _) as [[ss vl] traj].
      destruct Hs as (Hl & _ & _). eauto.
  - intros c s x x_seq Htr. split.
    + rewrite (lif_single_step_eval c Htr).
      pose proof (lif_eval_step_binary c Htr x (v_float_to_tensor (v s) x)) as Hb.
      unfold lif_step in Hb. rewrite Htr in Hb.
      destruct (LIFNode.eval_single_step c x (v_float_to_tensor (v s) x))
        as [spike v'].
      eauto.
    + rewrite (lif_multi_step_run_body c s x x_seq (or_introl Htr)).
      pose proof (run_body_shape (lif_step c) (x :: x_seq)
                    (v_float_to_tensor (v s) x)) as Hs.
      pose proof (run_body_spikes (Forall zero_or_one) (lif_step c)
                    (lif_eval_step_binary c Htr) (x :: x_seq)
                    (v_float_to_tensor (v s) x)) as Hb.
      destruct (run_body (lif_step c) (x :: x_seq) _) as [[ss vl] traj].
      destruct Hs as (Hl & _ & _). eauto.
Qed.

End EvalSpikes.

(** ** The stored trajectory [v_seq] *)

Section Trajectory.
Context {F : Type} `{Scalar F}.
Import BaseNode.

Lemma last_nonempty {A : Type} (l : list A) (d d' : A) :
  l <> [] -> last l d = last l d'.
Proof.
  destruct l as [| a l]; [congruence | intros _].
  now rewrite !last_cons_default.
Qed.

Lemma run_body_trajectory (body : tensor F -> tensor F -> tensor F * tensor F)
    (x : tensor F) (x_seq : list (tensor F)) (v0 : tensor F) (store : bool)
    (q : option (list (tensor F))) :
  let '(spike_seq, v_last, traj) := run_body body (x :: x_seq) v0 in
  let s' := {| v := MTensor v_last; v_seq := if store then Some traj else q |} in
  List.length spike_seq = List.length (x :: x_seq)
  /\ if store
     then exists traj : list (tensor F),
            v_seq s' = Some traj
            /\ List.length traj = List.length (x :: x_seq)
            /\ v s' = MTensor (last traj [])
     else v_seq s' = q.
Proof.
  pose proof (run_body_shape body (x :: x_seq) v0) as Hs.
  destruct (run_body body (x :: x_seq) v0) as [[ss vl] traj].
  destruct Hs as (Hl & Ht & Hlast). cbn [v v_seq]. split; [exact Hl |].
  destruct store; [| reflexivity].
  exists traj. repeat split; [exact Ht |].
  rewrite <- Hlast. f_equal. apply last_nonempty.
  destruct traj; [discriminate | congruence].
Qed.

(** A multi-step call of [IFNode] or [LIFNode] on [T >= 1] inputs, in
    training mode on the torch backend or in evaluation mode, returns [T]
    rows.  With [store_v_seq] it leaves in [self.v_seq] one potential per
    step, the last of which is the potential left in [self.v]; without
    [store_v_seq] it leaves [self.v_seq] as it was. *)
Theorem stored_trajectory :
  (forall (c : config F) (s : state F) (x : tensor F) (x_seq : list (tensor F)),
      training c = false \/ backend c = "torch"%string ->
      exists (y_seq : list (tensor F)) (s' : state F),
        IFNode.multi_step_forward c s (x :: x_seq) = Returns (y_seq, s')
        /\ List.length y_seq = List.length (x :: x_seq)
        /\ if store_v_seq c
           then exists traj : list (tensor F),
                  v_seq s' = Some traj
                  /\ List.length traj = List.length (x :: x_seq)
                  /\ v s' = MTensor (last traj [])
           else v_seq s' = v_seq s)
  /\
  (forall (c : LIFNode.config F) (s : state F) (x : tensor F)
          (x_seq : list (tensor F)),
      training (LIFNode.base c) = false \/ backend (LIFNode.base c) = "torch"%string ->
      exists (y_seq : list (tensor F)) (s' : state F),
        LIFNode.multi_step_forward c s (x :: x_seq) = Returns (y_seq, s')
        /\ List.length y_seq = List.length (x :: x_seq)
        /\ if store_v_seq (LIFNode.base c)
           then exists traj : list (tensor F),
                  v_seq s' = Some traj
                  /\ List.length traj = List.length (x :: x_seq)
                  /\ v s' = MTensor (last traj [])
           else v_seq s' = v_seq s).
Proof.
  split.
  - intros c s x x_seq Hmode.
    rewrite (if_multi_step_run_body c s x x_seq Hmode).
    pose proof (run_body_trajectory (if_step c) x x_seq
                  (v_float_to_tensor (v s) x) (store_v_seq c) (v_seq s)) as Ht.
    destruct (run_body (if_step c) (x :: x_seq) _) as [[ss vl] traj].
    destruct Ht as [Hl Ht]. eauto.
  - intros c s x x_seq Hmode.
    rewrite (lif_multi_step_run_body c s x x_seq Hmode).
    pose proof (run_body_trajectory (lif_step c) x x_seq
                  (v_float_to_tensor (v s) x) (store_v_seq (LIFNode.base c))
                  (v_seq s)) as Ht.
    destruct (run_body (lif_step c) (x :: x_seq) _) as [[ss vl] traj].
    destruct Ht as [Hl Ht]. eauto.
Qed.

End Trajectory.

(** ** The empty input sequence *)

Section EmptySequence.
Context {F : Type} `{Scalar F}.
Import BaseNode.
Local Open Scope string_scope.

(** On an input sequence of no step, [BaseNode.multi_step_forward] raises
    at [torch.stack] of an empty list, whatever the subclass is; the
    evaluation branch of [IFNode] and [LIFNode] raises at [x_seq[0]]; in
    training mode they raise as [BaseNode] on the torch backend, or take
    the branch of their backend. *)
Theorem multi_step_on_empty_sequence :
  (forall (S : Type) (single_step_forward : S -> tensor F -> outcome (tensor F * S))
          (self_v : S -> memory F) (self_set_v_seq : S -> list (tensor F) -> S)
          (store : bool) (s : S),
      BaseNode.multi_step_forward single_step_forward self_v self_set_v_seq store s []
      = Raises RuntimeError)
  /\
  (forall (c : config F) (s : state F),
      IFNode.multi_step_forward c s []
      = if training c
        then if String.eqb (backend c) "torch" then Raises RuntimeError
             else if String.eqb (backend c) "cupy" then Cupy
             else Raises (ValueError (backend c))
        else Raises IndexError)
  /\
  (forall (c : LIFNode.config F) (s : state F),
      LIFNode.multi_step_forward c s []
      = if training (LIFNode.base c)
        then if String.eqb (backend (LIFNode.base c)) "torch" then Raises RuntimeError
             else if String.eqb (backend (LIFNode.base c)) "cupy" then Cupy
             else Raises (ValueError (backend (LIFNode.base c)))
        else Raises IndexError).
Proof.
  assert (Hbase : forall (S : Type)
                    (step : S -> tensor F -> outcome (tensor F * S))
                    (self_v : S -> memory F)
                    (self_set_v_seq : S -> list (tensor F) -> S)
                    (store : bool) (s : S),
             BaseNode.multi_step_forward step self_v self_set_v_seq store s []
             = Raises RuntimeError)
    by (intros S step self_v set store s; now destruct store).
  split; [exact Hbase | split].
  - intros c s. unfold IFNode.multi_step_forward.
    destruct (training c); [| reflexivity].
    destruct (String.eqb (backend c) "torch"); [apply Hbase | reflexivity].
  - intros c s. unfold LIFNode.multi_step_forward.
    destruct (training (LIFNode.base c)); [| reflexivity].
    destruct (String.eqb (backend (LIFNode.base c)) "torch");
      [apply Hbase | reflexivity].
Qed.

End EmptySequence.

(** ** The soft reset, element by element *)

Section SoftReset.
Local Open Scope float_scope.

(** [0. * t] for a positive finite [t]. *)
Lemma mul_0_pos (t : float) : (0 <? t) = true -> finite t -> 0 * t = 0.
Proof.
  rewrite ltb_spec, zero_SF. intros Ht Hf.
  apply Prim2SF_inj. rewrite mul_spec, zero_SF.
  destruct (finite_cases t Hf) as [[s Hs] | (s & m & e & Hs)]; rewrite Hs in *.
  - destruct s; discriminate Ht.
  - destruct s; [discriminate Ht | reflexivity].
Qed.

(** A soft reset by [BaseNode.neuronal_reset] ([jit_soft_reset]) with a
    positive finite threshold and a spike tensor of the shape of [v]:
    every element whose spike is [1.] becomes [v - v_threshold], rounded
    once, and every element whose spike is [0.] is left as it is, bit for
    bit. *)
Theorem soft_reset_subtracts_threshold :
  forall (c : BaseNode.config float) (v spike : tensor float),
    BaseNode.v_reset c = None ->
    (0 <? BaseNode.v_threshold c) = true -> finite (BaseNode.v_threshold c) ->
    List.length spike = List.length v ->
    soft_reset_elementwise v spike (BaseNode.neuronal_reset c v spike)
      (BaseNode.v_threshold c).
Proof.
  intros c v spike Hc Hpos Hfin Hlen.
  unfold BaseNode.neuronal_reset. rewrite Hc. unfold BaseNode.jit_soft_reset.
  split.
  - now apply map2_length.
  - intros i v_i s_i v'_i Hvi Hsi Hv'i.
    apply nth_error_map2_inv in Hv'i.
    destruct Hv'i as (a & b & Ha & Hb & ->).
    rewrite Hvi in Ha. injection Ha as <-.
    rewrite Hsi in Hb. injection Hb as <-.
    change (s_sub v_i (s_mul s_i (BaseNode.v_threshold c)))
      with (v_i - s_i * BaseNode.v_threshold c).
    split; intros ->.
    + now rewrite mul_1_l.
    + rewrite (mul_0_pos _ Hpos Hfin). apply sub_0_r.
Qed.

End SoftReset.

(** ** Integrate-and-fire with soft reset: nothing is lost *)

Section Conservation.
Import BaseNode.
Local Open Scope Q_scope.

Lemma nth_map2 {A B C : Type} (f : A -> B -> C) (l : list A) (l' : list B)
    (a : A) (b : B) (c : C) :
  forall i : nat,
    (i < List.length l)%nat -> List.length l' = List.length l ->
    nth i (map2 f l l') c = f (nth i l a) (nth i l' b).
Proof.
  revert l'. induction l as [| u l IH]; intros [| u' l'] i Hi Hl; cbn in *;
    try lia; try discriminate.
  destruct i as [| i]; [reflexivity |].
  apply IH; lia.
Qed.

(** One step of an [IFNode] with soft reset, on element [i]. *)
Lemma if_soft_step_balance (c : config Q) (x v : tensor Q) (i : nat) :
  v_reset c = None ->
  List.length x = List.length v -> (i < List.length v)%nat ->
  let '(spike, v') := if_step c x v in
  List.length v' = List.length v
  /\ nth i v' 0 + v_threshold c * nth i spike 0 == nth i v 0 + nth i x 0.
Proof.
  intros Hr Hx Hi. unfold if_step. rewrite Hr.
  destruct (training c).
  - unfold step_of, IFNode.methods_of. cbn [m_neuronal_charge m_neuronal_fire
      m_neuronal_reset]. unfold neuronal_reset. rewrite Hr.
    unfold jit_soft_reset, neuronal_fire, IFNode.neuronal_charge.
    set (h := map2 (fun v x => (v + x)%sc) v x).
    assert (Hh : List.length h = List.length v) by (now apply map2_length).
    split; [rewrite map2_length; rewrite ?length_map; congruence |].
    rewrite (nth_map2 _ _ _ 0 0 0) by (rewrite ?length_map; congruence).
    subst h. rewrite (nth_map2 _ _ _ 0 0 0) at 1 by congruence.
    cbn [s_add s_sub s_mul Exact].
    generalize (nth i (map (fun v0 : Q => surrogate_function c (v0 - v_threshold c))
                          (map2 (fun v0 x0 : Q => v0 + x0) v x)) 0).
    intros sp. ring.
  - unfold IFNode.jit_eval_single_step_forward_soft_reset.
    set (h := map2 (fun v x => (v + x)%sc) v x).
    assert (Hh : List.length h = List.length v) by (now apply map2_length).
    split; [rewrite map2_length; rewrite ?length_map; congruence |].
    rewrite (nth_map2 _ _ _ 0 0 0) by (rewrite ?length_map; congruence).
    subst h. rewrite (nth_map2 _ _ _ 0 0 0) at 1 by congruence.
    cbn [s_add s_sub s_mul Exact].
    generalize (nth i (map (fun v0 : Q => of_bool (v0 >=? v_threshold c)%sc)
                          (map2 (fun v0 x0 : Q => v0 + x0) v x)) 0).
    intros sp. ring.
Qed.

Lemma if_soft_run_balance (c : config Q) (i : nat) :
  v_reset c = None ->
  forall (x_seq : list (tensor Q)) (v0 : tensor Q),
    Forall (fun x_t => List.length x_t = List.length v0) x_seq ->
    (i < List.length v0)%nat ->
    let '(spike_seq, v_last, _) := run_body (if_step c) x_seq v0 in
    nth i v_last 0 + v_threshold c * total spike_seq i
    == nth i v0 0 + total x_seq i.
Proof.
  intros Hr x_seq. induction x_seq as [| x x_seq IH]; intros v0 Hx Hi.
  - cbn. ring.
  - cbn [run_body]. inversion Hx as [| ? ? Hx0 Hxs]; subst.
    pose proof (if_soft_step_balance c x v0 i Hr Hx0 Hi) as Hstep.
    destruct (if_step c x v0) as [spike v1]. destruct Hstep as [Hl Hb].
    assert (Hxs' : Forall (fun x_t => List.length x_t = List.length v1) x_seq).
    { eapply Forall_impl; [| exact Hxs]. cbn. intros a Ha. congruence. }
    specialize (IH v1 Hxs' ltac:(congruence)).
    destruct (run_body (if_step c) x_seq v1) as [[ss vl] traj].
    cbn [total fold_right].
    change (fold_right (fun row acc => nth i row 0 + acc) 0 ss) with (total ss i).
    change (fold_right (fun row acc => nth i row 0 + acc) 0 x_seq)
      with (total x_seq i).
    transitivity ((nth i vl 0 + v_threshold c * total ss i)
                  + v_threshold c * nth i spike 0); [ring |].
    rewrite IH.
    transitivity ((nth i v1 0 + v_threshold c * nth i spike 0) + total x_seq i);
      [ring |].
    rewrite Hb. ring.
Qed.

(** In exact arithmetic an [IFNode] with soft reset loses nothing: after a
    multi-step call on [T >= 1] inputs (in training mode on the torch
    backend, whatever the surrogate function returns, or in evaluation
    mode), on every element the potential left plus [v_threshold] times
    the sum of the outputs is the potential before plus the sum of the
    inputs. *)
Theorem if_soft_reset_conserves_input :
  forall (c : config Q) (s : state Q) (x : tensor Q) (x_seq : list (tensor Q))
         (i : nat),
    training c = false \/ backend c = "torch"%string ->
    v_reset c = None ->
    let v0 := v_float_to_tensor (v s) x in
    Forall (fun x_t => List.length x_t = List.length v0) (x :: x_seq) ->
    (i < List.length v0)%nat ->
    exists (y_seq : list (tensor Q)) (s' : state Q) (v_last : tensor Q),
      IFNode.multi_step_forward c s (x :: x_seq) = Returns (y_seq, s')
      /\ v s' = MTensor v_last
      /\ nth i v_last 0 + v_threshold c * total y_seq i
         == nth i v0 0 + total (x :: x_seq) i.
Proof.
  intros c s x x_seq i Hmode Hr v0 Hx Hi.
  rewrite (if_multi_step_run_body c s x x_seq Hmode).
  pose proof (if_soft_run_balance c i Hr (x :: x_seq) v0 Hx Hi) as Hb.
  fold v0. destruct (run_body (if_step c) (x :: x_seq) v0) as [[ss vl] traj].
  eexists ss, _, vl. split; [reflexivity | split; [reflexivity | exact Hb]].
Qed.

End Conservation.

(** ** SimpleIFNode and IFNode *)

Section SimpleNodes.
Import BaseNode.
Local Open Scope float_scope.

Lemma map2_ext {A B C : Type} (f g : A -> B -> C) (l : list A) (l' : list B) :
  (forall a b, f a b = g a b) -> map2 f l l' = map2 g l l'.
Proof.
  intros Hfg. revert l'.
  induction l as [| a l IH]; intros [| b l']; cbn; try reflexivity.
  now rewrite Hfg, IH.
Qed.

Lemma map2_swap {A B C : Type} (f : A -> B -> C) (l : list A) (l' : list B) :
  map2 (fun b a => f a b) l' l = map2 f l l'.
Proof.
  revert l'. induction l as [| a l IH]; intros [| b l']; cbn; try reflexivity.
  now rewrite IH.
Qed.

(** The reset of [SimpleBaseNode] is the reset of [BaseNode], with the
    operands of its sum and of its product the other way round. *)
Lemma simple_reset_is_base_reset (c : config float) (v spike : tensor float) :
  SimpleBaseNode.neuronal_reset
    (fst (SimpleBaseNode.__init__ (v_threshold c) (v_reset c)
            (surrogate_function c) (detach_reset c) (step_mode c)))
    v spike
  = neuronal_reset c v spike.
Proof.
  unfold SimpleBaseNode.neuronal_reset, neuronal_reset.
  cbn [SimpleBaseNode.__init__ fst SimpleBaseNode.v_reset SimpleBaseNode.v_threshold].
  destruct (v_reset c) as [r |].
  - unfold jit_hard_reset. rewrite map2_swap. apply map2_ext.
    intros a b. change (b * r + (1 - b) * a = (1 - b) * a + b * r).
    apply add_comm.
  - unfold jit_soft_reset. apply map2_ext.
    intros a b. change (a - v_threshold c * b = a - b * v_threshold c).
    now rewrite mul_comm.
Qed.

(** [SimpleIFNode] is [IFNode] on the torch backend in training mode: from
    the same [self.v], with the same threshold, reset and surrogate
    function, a single-step call returns the same spike and leaves the
    same potential, bit for bit.  A new [SimpleIFNode] starts from
    [v = 0.] whatever [v_reset] is, a new [IFNode] from [v_reset]: the two
    start from the same potential under soft reset and under
    [v_reset = 0.]. *)
Theorem simple_if_node_is_if_node :
  (forall (c : config float) (s : state float) (x : tensor float),
      training c = true -> backend c = "torch"%string ->
      let simple :=
        fst (SimpleBaseNode.__init__ (v_threshold c) (v_reset c)
               (surrogate_function c) (detach_reset c) (step_mode c)) in
      exists spike v' : tensor float,
        SimpleIFNode.single_step_forward simple (v s) x = Ok (spike, MTensor v')
        /\ IFNode.single_step_forward c s x
           = Returns (spike, {| v := MTensor v'; v_seq := v_seq s |}))
  /\
  (forall (v_threshold : float) (v_reset : option float)
          (surrogate_function : float -> float) (detach_reset : bool)
          (step_mode backend : string) (store_v_seq : bool),
      let simple :=
        snd (SimpleBaseNode.__init__ v_threshold v_reset surrogate_function
               detach_reset step_mode) in
      let node :=
        snd (__init__ v_threshold v_reset surrogate_function detach_reset
               step_mode backend store_v_seq) in
      simple = MFloat 0
      /\ v node = MFloat match v_reset with None => 0 | Some r => r end).
Proof.
  split.
  - intros c s x Htr Hb simple.
    rewrite (if_single_step_training c Htr Hb).
    unfold SimpleIFNode.single_step_forward, SimpleBaseNode.single_step_forward,
      SimpleIFNode.neuronal_charge, step_of.
    cbn [bind IFNode.methods_of m_neuronal_charge m_neuronal_fire m_neuronal_reset].
    unfold simple. rewrite simple_reset_is_base_reset.
    eexists _, _. split; reflexivity.
  - intros. split; reflexivity.
Qed.

End SimpleNodes.

(** ** IzhikevichNode without adaptation *)

Section Izhikevich.
Import BaseNode.
Local Open Scope float_scope.

(** The product of a finite float and a zero is a zero. *)
Lemma mul_finite_zero (x z : float) (s : bool) :
  finite x -> Prim2SF z = S754_zero s -> exists s', Prim2SF (x * z) = S754_zero s'.
Proof.
  intros Hx Hz. rewrite mul_spec, Hz.
  destruct (finite_cases x Hx) as [[sx ->] | (sx & m & e & ->)]; cbn; eauto.
Qed.

(** [0. + z] for a zero [z] of either sign. *)
Lemma add_0_zero (z : float) (s : bool) : Prim2SF z = S754_zero s -> 0 + z = 0.
Proof.
  intros Hz. apply Prim2SF_inj. rewrite add_spec, Hz, zero_SF. now destruct s.
Qed.

(** The adaptation current stays [0.] when [a = 0.]. *)
Lemma adaptation_stays_zero (tau_w v_rest h : float) :
  finite (1 / tau_w) -> finite (h - v_rest) ->
  0 + 1 / tau_w * (0 * (h - v_rest) - 0) = 0.
Proof.
  intros Ht Hh. rewrite sub_0_r.
  destruct (mul_0_finite _ Hh) as [s Hs].
  destruct (mul_finite_zero _ _ s Ht Hs) as [s' Hs'].
  exact (add_0_zero _ s' Hs').
Qed.

(** It does not jump at a spike when [b = 0.]. *)
Lemma no_jump_stays_zero (spike : float) : finite spike -> 0 + 0 * spike = 0.
Proof.
  intros Hs. destruct (mul_0_finite _ Hs) as [s Hz]. exact (add_0_zero _ s Hz).
Qed.

Lemma map3_zeros_middle {A C : Type} (f : A -> float -> float -> C)
    (g : A -> float -> C) (l : list A) (x : tensor float) :
  (forall a b, f a 0 b = g a b) ->
  map3 f l (zeros_like x) x = map2 g l x.
Proof.
  intros Hfg. revert x. induction l as [| a l IH]; intros [| b x]; cbn;
    try reflexivity.
  rewrite Hfg. f_equal. apply IH.
Qed.

Lemma map3_twice {A B C : Type} (f : A -> B -> B -> C) (l : list A) (l' : list B) :
  map3 f l l' l' = map2 (fun a b => f a b b) l l'.
Proof.
  revert l'. induction l as [| a l IH]; intros [| b l']; cbn; try reflexivity.
  now rewrite IH.
Qed.

Lemma map2_zeros_stay (P : float -> Prop) (f : float -> float -> float)
    (x l : tensor float) :
  (forall b, P b -> f 0 b = 0) -> Forall P l ->
  (List.length l <= List.length x)%nat ->
  map2 f (zeros_like x) l = zeros_like l.
Proof.
  intros Hf Hl. revert x. induction Hl as [| b l Hb Hl IH]; intros [| a x] Hlen;
    cbn in *; try reflexivity; try lia.
  rewrite (Hf b Hb). f_equal. apply IH. lia.
Qed.

Lemma map2_length_le {A B C : Type} (f : A -> B -> C) (l : list A) (l' : list B) :
  (List.length (map2 f l l') <= List.length l')%nat.
Proof.
  revert l'. induction l as [| a l IH]; intros [| b l']; cbn; try lia.
  specialize (IH l'). lia.
Qed.

(** An [IzhikevichNode] with [a = 0.], [b = 0.] and the adaptation current
    [w] at [0.] (all three are the defaults) is the [QIFNode] of the same
    [tau], [v_c], [a0], [v_rest], threshold and reset: a single-step call
    returns the same spike and leaves the same potential, bit for bit, and
    leaves [w] at [0.], as long as [1. / tau_w], the spike and the
    distance of the charged potential to [v_rest] are finite. *)
Theorem izhikevich_without_adaptation_is_qif :
  forall (c : IzhikevichNode.config float) (s : IzhikevichNode.state float)
         (x : tensor float),
    IzhikevichNode.a c = 0 -> IzhikevichNode.b c = 0 ->
    IzhikevichNode.w s = MFloat 0 \/ IzhikevichNode.w s = MTensor (zeros_like x) ->
    finite (1 / IzhikevichNode.tau_w c) ->
    let q := {| QIFNode.base := IzhikevichNode.base c;
                QIFNode.tau := IzhikevichNode.tau c;
                QIFNode.v_c := IzhikevichNode.v_c c;
                QIFNode.v_rest := IzhikevichNode.v_rest c;
                QIFNode.a0 := IzhikevichNode.a0 c |} in
    let h := QIFNode.neuronal_charge q
               (v_float_to_tensor (v (IzhikevichNode.base_state s)) x) x in
    Forall (fun h_i => finite (h_i - IzhikevichNode.v_rest c)) h ->
    Forall finite (neuronal_fire (IzhikevichNode.base c) h) ->
    exists (spike : tensor float) (s' : state float),
      QIFNode.single_step_forward q (IzhikevichNode.base_state s) x
      = Returns (spike, s')
      /\ IzhikevichNode.single_step_forward c s x
         = Returns (spike, {| IzhikevichNode.base_state := s';
                             IzhikevichNode.w := MTensor (zeros_like spike) |}).
Proof.
  intros c s x Ha Hb Hw Htw q h Hh Hspike.
  exists (neuronal_fire (IzhikevichNode.base c) h),
    {| v := MTensor (neuronal_reset (IzhikevichNode.base c) h
                       (neuronal_fire (IzhikevichNode.base c) h));
       v_seq := v_seq (IzhikevichNode.base_state s) |}.
  split; [reflexivity |].
  unfold IzhikevichNode.single_step_forward, AdaptBaseNode.single_step_forward.
  assert (Hw0 : AdaptBaseNode.w_float_to_tensor (IzhikevichNode.w s) x
                = zeros_like x) by (destruct Hw as [-> | ->]; reflexivity).
  rewrite Hw0.
  assert (Hcharge : IzhikevichNode.neuronal_charge c
                      (v_float_to_tensor (v (IzhikevichNode.base_state s)) x)
                      (zeros_like x) x = h).
  { unfold IzhikevichNode.neuronal_charge, h, QIFNode.neuronal_charge.
    apply map3_zeros_middle. intros a b. cbn [QIFNode.a0 QIFNode.v_rest
      QIFNode.v_c QIFNode.tau q].
    change (a + (b + IzhikevichNode.a0 c * (a - IzhikevichNode.v_rest c)
                     * (a - IzhikevichNode.v_c c) - 0) / IzhikevichNode.tau c
            = a + (b + IzhikevichNode.a0 c * (a - IzhikevichNode.v_rest c)
                       * (a - IzhikevichNode.v_c c)) / IzhikevichNode.tau c).
    now rewrite sub_0_r. }
  rewrite Hcharge.
  assert (Hadapt : AdaptBaseNode.jit_neuronal_adaptation (zeros_like x)
                     (IzhikevichNode.tau_w c) (IzhikevichNode.a c)
                     (IzhikevichNode.v_rest c) h = zeros_like h).
  { unfold AdaptBaseNode.jit_neuronal_adaptation. rewrite Ha.
    apply (map2_zeros_stay (fun h_i => finite (h_i - IzhikevichNode.v_rest c)));
      [| exact Hh | apply map2_length_le].
    intros b Hfin. now apply adaptation_stays_zero. }
  rewrite Hadapt.
  set (spike := neuronal_fire (IzhikevichNode.base c) h) in *.
  assert (Hjump : map2 (fun w spike => s_add w (s_mul (IzhikevichNode.b c) spike))
                    (zeros_like h) spike = zeros_like spike).
  { rewrite Hb.
    apply (map2_zeros_stay finite); [| exact Hspike |].
    - intros b Hfin. now apply no_jump_stays_zero.
    - unfold spike, neuronal_fire. rewrite length_map. lia. }
  unfold AdaptBaseNode.neuronal_reset, neuronal_reset,
    AdaptBaseNode.jit_hard_reset, AdaptBaseNode.jit_soft_reset,
    jit_hard_reset, jit_soft_reset.
  destruct (v_reset (IzhikevichNode.base c)) as [r |];
    cbv zeta; rewrite Hjump, ?map3_twice; reflexivity.
Qed.

End Izhikevich.

(** ** OTTTLIFNode and SLTTLIFNode run the forward pass of LIFNode *)

Section OnlineNodes.
Import BaseNode.
Local Open Scope float_scope.

Lemma ones_times (x : tensor float) (r : float) :
  map (fun o => s_mul o r) (ones_like x) = full_like x r.
Proof.
  unfold ones_like, full_like. rewrite map_map. apply map_ext.
  intros _. apply mul_1_l.
Qed.

(** The potential that the first call registers is the one a [LIFNode]
    starts from. *)
Lemma online_first_potential (c : LIFNode.config float) (o : option (tensor float))
    (m : memory float) (x : tensor float) :
  same_potential c o m ->
  match o with
  | Some v => v
  | None =>
      match v_reset (LIFNode.base c) with
      | None => zeros_like x
      | Some r => map (fun o => s_mul o r) (ones_like x)
      end
  end
  = v_float_to_tensor m x.
Proof.
  unfold same_potential. destruct o as [t |]; intros ->; [reflexivity |].
  destruct (v_reset (LIFNode.base c)) as [r |]; [apply ones_times | reflexivity].
Qed.

(** "The forward propagation is the same as the Leaky Integrate-and-Fire
    neuron's": in training mode on the torch backend and in evaluation
    mode, a single-step call of [OTTTLIFNode] and of [SLTTLIFNode] returns
    the spike of [LIFNode.single_step_forward] and leaves its potential,
    bit for bit, from the potential of an earlier call or from the
    state of a new neuron. *)
Theorem online_nodes_run_lif_forward :
  forall (c : LIFNode.config float) (o : option (tensor float))
         (s : state float) (x : tensor float),
    training (LIFNode.base c) = false \/ backend (LIFNode.base c) = "torch"%string ->
    same_potential c o (v s) ->
    exists spike v' : tensor float,
      LIFNode.single_step_forward c s x
      = Returns (spike, {| v := MTensor v'; v_seq := v_seq s |})
      /\ SLTTLIFNode.single_step_forward c o x = Returns (spike, Some v')
      /\ forall trace : option (tensor float),
           exists (out : OTTTLIFNode.output float) (trace' : option (tensor float)),
             OTTTLIFNode.single_step_forward c
               {| OTTTLIFNode.v := o; OTTTLIFNode.trace := trace |} x
             = Returns (out, {| OTTTLIFNode.v := Some v';
                                OTTTLIFNode.trace := trace' |})
             /\ spike_of_output out = spike.
Proof.
  intros c o s x Hmode Hsame.
  pose proof (online_first_potential c o (v s) x Hsame) as Hv0.
  unfold SLTTLIFNode.single_step_forward, OTTTLIFNode.single_step_forward.
  cbn [OTTTLIFNode.v OTTTLIFNode.trace]. cbv zeta. rewrite Hv0.
  destruct (training (LIFNode.base c)) eqn:Etr.
  - destruct Hmode as [Hmode | Hb]; [discriminate |].
    rewrite (lif_single_step_training c Etr Hb), Hb.
    cbn [String.eqb Ascii.eqb Bool.eqb].
    eexists _, _. split; [reflexivity | split; [reflexivity |]].
    intros trace. eexists _, _. split; reflexivity.
  - rewrite (lif_single_step_eval c Etr).
    destruct (LIFNode.eval_single_step c x (v_float_to_tensor (v s) x))
      as [spike v'].
    exists spike, v'. split; [reflexivity | split; [reflexivity |]].
    intros trace. eexists _, _. split; reflexivity.
Qed.

End OnlineNodes.

(** ** GatedLIFNode runs [T] steps *)

Section GatedLIFSteps.
Context {F : Type} `{Scalar F}.
Variable sigmoid : F -> F.
Variable c : GatedLIFNode.config F.

Lemma getitem_in_range {A : Type} (l : list A) (t : nat) :
  (t < List.length l)%nat -> exists a, getitem l t = Ok a /\ nth_error l t = Some a.
Proof.
  intros Ht. unfold getitem.
  destruct (nth_error l t) as [a |] eqn:E; [eauto |].
  apply nth_error_None in E. lia.
Qed.

Lemma getitem_out_of_range {A : Type} (l : list A) (t : nat) :
  (List.length l <= t)%nat -> getitem l t = Raise IndexError.
Proof.
  intros Ht. unfold getitem. apply nth_error_None in Ht. now rewrite Ht.
Qed.

Lemma gated_loop_ok (x_seq : list (tensor F)) (alpha beta gamma : F) (n : nat) :
  forall (a : nat) (s : GatedLIFNode.state F) (spike : tensor F)
         (y_seq : list (tensor F)),
    (a + n <= List.length x_seq)%nat ->
    (a + n <= List.length (GatedLIFNode.conduct c))%nat ->
    exists (s' : GatedLIFNode.state F) (ys : list (tensor F)),
      GatedLIFNode.loop sigmoid c x_seq alpha beta gamma (seq a n) s spike y_seq
      = Ok (s', y_seq ++ ys)
      /\ List.length ys = n.
Proof.
  induction n as [| n IH]; intros a s spike y_seq Hx Hc.
  - exists s, []. now rewrite app_nil_r.
  - cbn [seq GatedLIFNode.loop].
    destruct (getitem_in_range x_seq a ltac:(lia)) as (x & -> & _).
    destruct (getitem_in_range (GatedLIFNode.conduct c) a ltac:(lia)) as (g & -> & _).
    cbn [bind].
    edestruct (IH (S a)) as (s' & ys & -> & Hl); [lia | lia |].
    eexists s', (_ :: ys). rewrite <- app_assoc. split; [reflexivity |].
    cbn [List.length]. now rewrite Hl.
Qed.

Lemma gated_loop_prefix (x_seq x_seq' : list (tensor F)) (alpha beta gamma : F)
    (n : nat) :
  forall (a : nat) (s : GatedLIFNode.state F) (spike : tensor F)
         (y_seq : list (tensor F)),
    (forall t, (t < a + n)%nat -> nth_error x_seq t = nth_error x_seq' t) ->
    GatedLIFNode.loop sigmoid c x_seq alpha beta gamma (seq a n) s spike y_seq
    = GatedLIFNode.loop sigmoid c x_seq' alpha beta gamma (seq a n) s spike y_seq.
Proof.
  induction n as [| n IH]; intros a s spike y_seq Hsame; [reflexivity |].
  cbn [seq GatedLIFNode.loop]. unfold getitem at 1 3.
  rewrite (Hsame a) by lia.
  destruct (nth_error x_seq' a) as [x |]; [| reflexivity]. cbn [bind].
  destruct (getitem (GatedLIFNode.conduct c) a) as [g |]; [| reflexivity].
  cbn [bind]. apply IH. intros t Ht. apply Hsame. lia.
Qed.

Lemma gated_loop_short (x_seq : list (tensor F)) (alpha beta gamma : F) (n : nat) :
  forall (a : nat) (s : GatedLIFNode.state F) (spike : tensor F)
         (y_seq : list (tensor F)),
    (0 < n)%nat ->
    (List.length x_seq < a + n)%nat
    \/ (List.length (GatedLIFNode.conduct c) < a + n)%nat ->
    GatedLIFNode.loop sigmoid c x_seq alpha beta gamma (seq a n) s spike y_seq
    = Raise IndexError.
Proof.
  induction n as [| n IH]; intros a s spike y_seq Hn Hshort; [lia |].
  cbn [seq GatedLIFNode.loop].
  destruct (Nat.le_gt_cases (List.length x_seq) a) as [Hx | Hx].
  { now rewrite (getitem_out_of_range x_seq a Hx). }
  destruct (getitem_in_range x_seq a Hx) as (x & -> & _). cbn [bind].
  destruct (Nat.le_gt_cases (List.length (GatedLIFNode.conduct c)) a) as [Hc | Hc].
  { now rewrite (getitem_out_of_range _ a Hc). }
  destruct (getitem_in_range (GatedLIFNode.conduct c) a Hc) as (g & -> & _).
  cbn [bind]. apply IH; lia.
Qed.

(** [GatedLIFNode.multi_step_forward] runs the [T] steps it was built for,
    whatever the length of the input sequence is: on fewer than [T] inputs
    (or with fewer than [T] entries in [conduct]) it raises [IndexError];
    on [T >= 1] inputs or more it returns [T] rows, those it returns on the
    first [T] inputs, and does not read the others; with [T = 0] it raises
    at [torch.stack]. *)
Theorem gated_lif_runs_T_steps :
  forall (s : GatedLIFNode.state F) (x_seq : list (tensor F)),
    ((List.length x_seq < GatedLIFNode.T c)%nat
     \/ (List.length (GatedLIFNode.conduct c) < GatedLIFNode.T c)%nat ->
     GatedLIFNode.multi_step_forward sigmoid c s x_seq = Raise IndexError)
    /\
    ((1 <= GatedLIFNode.T c <= List.length x_seq)%nat ->
     (GatedLIFNode.T c <= List.length (GatedLIFNode.conduct c))%nat ->
     exists (y_seq : list (tensor F)) (s' : GatedLIFNode.state F),
       GatedLIFNode.multi_step_forward sigmoid c s x_seq = Ok (y_seq, s')
       /\ List.length y_seq = GatedLIFNode.T c
       /\ GatedLIFNode.multi_step_forward sigmoid c s
            (firstn (GatedLIFNode.T c) x_seq)
          = Ok (y_seq, s'))
    /\
    (GatedLIFNode.T c = 0%nat ->
     GatedLIFNode.multi_step_forward sigmoid c s x_seq = Raise RuntimeError).
Proof.
  intros s x_seq. unfold GatedLIFNode.multi_step_forward. repeat split.
  - intros Hshort. rewrite gated_loop_short; [reflexivity | lia | exact Hshort].
  - intros HT Hc.
    assert (Hhd : hd [] (firstn (GatedLIFNode.T c) x_seq) = hd [] x_seq).
    { destruct x_seq as [| x x_seq]; [cbn in HT; lia |].
      destruct (GatedLIFNode.T c); [lia | reflexivity]. }
    rewrite Hhd.
    rewrite <- (gated_loop_prefix x_seq (firstn (GatedLIFNode.T c) x_seq)).
    2:{ intros t Ht. cbn in Ht. now rewrite nth_error_firstn, (proj2 (Nat.ltb_lt _ _) Ht). }
    edestruct (gated_loop_ok x_seq) as (s' & ys & -> & Hl); [exact (proj2 HT) | exact Hc |].
    cbn [bind snd fst app].
    destruct ys as [| y ys]; [cbn in Hl; lia |].
    cbn [stack bind]. eauto.
  - intros ->. reflexivity.
Qed.

End GatedLIFSteps.

(** ** The forward passes of the DSR neurons *)

Section DSRForward.
Context {F : Type} `{Scalar F}.

(** A loop that appends one output per input is the recursion [run_body]. *)
Lemma append_loop_run_body (body : tensor F -> tensor F -> tensor F * tensor F)
    (inp : list (tensor F)) :
  forall (m : tensor F) (acc : list (tensor F)),
    fold_left
      (fun '(m, acc) x => let '(s, m') := body x m in (m', acc ++ [s]))
      inp (m, acc)
    = let '(spike_seq, m_last, _) := run_body body inp m in
      (m_last, acc ++ spike_seq).
Proof.
  induction inp as [| x inp IH]; intros m acc.
  - cbn. now rewrite app_nil_r.
  - cbn [fold_left run_body]. destruct (body x m) as [s m1].
    rewrite IH. destruct (run_body body inp m1) as [[ss ml] traj].
    now rewrite <- app_assoc.
Qed.

Lemma dsr_if_forward_loop (inp : list (tensor F)) (v_threshold alpha : F)
    (m : tensor F) :
  DSRIFNode.forward_loop inp v_threshold alpha m
  = let '(spike_seq, m_last, _) := run_body (dsr_if_step v_threshold alpha) inp m in
    (m_last, spike_seq).
Proof.
  exact (append_loop_run_body (dsr_if_step v_threshold alpha) inp m []).
Qed.

Lemma dsr_lif_forward_loop (math_exp : F -> F) (inp : list (tensor F))
    (v_threshold tau delta_t alpha : F) (m : tensor F) :
  DSRLIFNode.forward_loop math_exp inp v_threshold tau delta_t alpha m
  = let '(spike_seq, m_last, _) :=
      run_body (dsr_lif_step (math_exp (neg delta_t / tau)%sc) v_threshold delta_t alpha)
        inp m in
    (m_last, spike_seq).
Proof.
  exact (append_loop_run_body
           (dsr_lif_step (math_exp (neg delta_t / tau)%sc) v_threshold delta_t alpha)
           inp m []).
Qed.

End DSRForward.

Section DSRRate.
Local Open Scope Q_scope.

Lemma nth_map_in {A B : Type} (f : A -> B) (l : list A) (a : A) (b : B) (i : nat) :
  (i < List.length l)%nat -> nth i (map f l) b = f (nth i l a).
Proof.
  revert i. induction l as [| u l IH]; intros [| i] Hi; cbn in *; try lia;
    [reflexivity | apply IH; lia].
Qed.

(** One step of [DSRIFFunction.forward] on one element: the potential
    stays in the band [[alpha * vth - vth, alpha * vth)] when the input is
    in [[0, vth]], and the spike is what the potential gives up. *)
Lemma dsr_if_element_step (vth alpha m x : Q) :
  alpha * vth - vth <= m -> m < alpha * vth -> 0 <= x -> x <= vth ->
  let m1 := m + x in
  let s := (if Qle_bool (alpha * vth) m1 then 1 else 0) * vth in
  alpha * vth - vth <= m1 - s /\ m1 - s < alpha * vth /\ m1 - s + s == m + x.
Proof.
  intros Hlo Hhi Hx0 Hx1. cbv zeta.
  destruct (Qle_bool (alpha * vth) (m + x)) eqn:E.
  - apply Qle_bool_iff in E. repeat split; lra.
  - assert (Hlt : m + x < alpha * vth).
    { apply Qnot_le_lt. intros Hle. apply Qle_bool_iff in Hle. congruence. }
    repeat split; lra.
Qed.

Lemma dsr_if_step_balance (vth alpha : Q) (x m : tensor Q) (i : nat) :
  List.length x = List.length m -> (i < List.length m)%nat ->
  alpha * vth - vth <= nth i m 0 -> nth i m 0 < alpha * vth ->
  0 <= nth i x 0 -> nth i x 0 <= vth ->
  let '(spike, m') := dsr_if_step vth alpha x m in
  List.length m' = List.length m
  /\ alpha * vth - vth <= nth i m' 0 /\ nth i m' 0 < alpha * vth
  /\ nth i m' 0 + nth i spike 0 == nth i m 0 + nth i x 0.
Proof.
  intros Hx Hi Hlo Hhi Hx0 Hx1. unfold dsr_if_step.
  set (m1 := map2 (fun m x => (m + x)%sc) m x).
  assert (Hm1 : List.length m1 = List.length m) by (now apply map2_length).
  split; [rewrite map2_length; rewrite ?length_map; congruence |].
  rewrite (nth_map2 _ _ _ 0 0 0) by (rewrite ?length_map; congruence).
  rewrite (nth_map_in _ _ 0 0) by congruence.
  unfold m1. rewrite (nth_map2 _ _ _ 0 0 0) by congruence.
  cbn [s_add s_sub s_mul s_ge of_bool Exact].
  pose proof (dsr_if_element_step vth alpha (nth i m 0) (nth i x 0)
                Hlo Hhi Hx0 Hx1) as Hstep.
  cbv zeta in Hstep.
  change (@of_bool Q Exact) with (fun b : bool => if b then 1 else 0).
  cbv beta.
  destruct (Qle_bool (alpha * vth) (nth i m 0 + nth i x 0)); exact Hstep.
Qed.

Lemma dsr_if_run_balance (vth alpha : Q) (i : nat) :
  forall (inp : list (tensor Q)) (m0 : tensor Q),
    Forall (fun row => List.length row = List.length m0) inp ->
    (i < List.length m0)%nat ->
    alpha * vth - vth <= nth i m0 0 -> nth i m0 0 < alpha * vth ->
    Forall (fun row => 0 <= nth i row 0 /\ nth i row 0 <= vth) inp ->
    let '(spike_seq, m_last, _) := run_body (dsr_if_step vth alpha) inp m0 in
    alpha * vth - vth <= nth i m_last 0 /\ nth i m_last 0 < alpha * vth
    /\ nth i m_last 0 + total spike_seq i == nth i m0 0 + total inp i.
Proof.
  induction inp as [| x inp IH]; intros m0 Hlen Hi Hlo Hhi Hin.
  - cbn [run_body total fold_right]. split; [exact Hlo | split; [exact Hhi | ring]].
  - cbn [run_body].
    inversion Hlen as [| ? ? Hx Hrest]; subst.
    inversion Hin as [| ? ? [Hx0 Hx1] Hin']; subst.
    pose proof (dsr_if_step_balance vth alpha x m0 i Hx Hi Hlo Hhi Hx0 Hx1) as Hstep.
    destruct (dsr_if_step vth alpha x m0) as [spike m1].
    destruct Hstep as (Hl & Hlo1 & Hhi1 & Hb).
    assert (Hrest' : Forall (fun row => List.length row = List.length m1) inp).
    { eapply Forall_impl; [| exact Hrest]. cbn. intros a Ha. congruence. }
    specialize (IH m1 Hrest' ltac:(congruence) Hlo1 Hhi1 Hin').
    destruct (run_body (dsr_if_step vth alpha) inp m1) as [[ss ml] traj].
    destruct IH as (Hlo2 & Hhi2 & Hb2).
    split; [exact Hlo2 | split; [exact Hhi2 |]].
    cbn [total fold_right].
    change (fold_right (fun row acc => nth i row 0 + acc) 0 ss) with (total ss i).
    change (fold_right (fun row acc => nth i row 0 + acc) 0 inp) with (total inp i).
    lra.
Qed.

(** In exact arithmetic the spikes of a [DSRIFNode] follow the input: with
    a positive threshold and [0 < alpha <= 1] (what [__init__] asserts),
    on every element whose inputs are all in [[0, v_threshold]], the sum
    of the outputs over any number [T >= 1] of steps is the sum of the
    inputs up to less than one threshold: above it by at most
    [(1 - alpha) * v_threshold], below it by less than
    [alpha * v_threshold]. *)
Theorem dsr_if_output_follows_input :
  forall (x : tensor Q) (inp : list (tensor Q)) (T : nat)
         (v_threshold alpha v_threshold_grad_scaling : Q) (i : nat),
    0 < v_threshold -> 0 < alpha -> alpha <= 1 ->
    Forall (fun row => List.length row = List.length x) (x :: inp) ->
    (i < List.length x)%nat ->
    Forall (fun row => 0 <= nth i row 0 /\ nth i row 0 <= v_threshold) (x :: inp) ->
    exists out : list (tensor Q),
      DSRIFNode.forward (x :: inp) T v_threshold alpha v_threshold_grad_scaling
      = Ok out
      /\ total (x :: inp) i - alpha * v_threshold < total out i
      /\ total out i <= total (x :: inp) i + (1 - alpha) * v_threshold.
Proof.
  intros x inp T vth alpha scaling i Hv Ha0 Ha1 Hlen Hi Hin.
  unfold DSRIFNode.forward. cbn [first_step bind]. rewrite dsr_if_forward_loop.
  assert (Hz : nth i (zeros_like x) 0 = 0).
  { unfold zeros_like, full_like. now rewrite (nth_map_in _ _ 0 0). }
  assert (Hzl : List.length (zeros_like x) = List.length x)
    by (unfold zeros_like, full_like; apply length_map).
  assert (Hav : 0 < alpha * vth) by (now apply Qmult_lt_0_compat).
  assert (Hav1 : alpha * vth <= vth).
  { rewrite <- (Qmult_1_l vth) at 2. apply Qmult_le_compat_r; lra. }
  pose proof (dsr_if_run_balance vth alpha i (x :: inp) (zeros_like x)) as Hrun.
  rewrite Hzl, Hz in Hrun.
  specialize (Hrun Hlen Hi ltac:(lra) Hav Hin).
  pose proof (run_body_shape (dsr_if_step vth alpha) (x :: inp) (zeros_like x)) as Hs.
  destruct (run_body (dsr_if_step vth alpha) (x :: inp) (zeros_like x))
    as [[ss ml] traj].
  destruct Hs as (Hl & _ & _). destruct Hrun as (Hlo & Hhi & Hb).
  cbn [snd]. destruct ss as [| s ss]; [discriminate Hl |].
  exists (s :: ss). split; [reflexivity |]. split; lra.
Qed.

(** The threshold that the forward pass runs with: in exact arithmetic
    [relu(v_threshold - lower_bound) + lower_bound] is the larger of the
    two, so a call of [multi_step_forward] leaves in the module a
    threshold that is at least the lower bound, unchanged if it was, and
    runs [forward] with it. *)
Theorem dsr_threshold_is_clamped :
  forall (c : DSRIFNode.config Q) (x : tensor Q) (x_seq : list (tensor Q)),
    exists (y_seq : list (tensor Q)) (c' : DSRIFNode.config Q),
      DSRIFNode.multi_step_forward c (x :: x_seq) = Ok (y_seq, c')
      /\ DSRIFNode.forward (x :: x_seq) (DSRIFNode.T c) (DSRIFNode.v_threshold c')
           (DSRIFNode.alpha c) (DSRIFNode.v_threshold_grad_scaling c)
         = Ok y_seq
      /\ DSRIFNode.v_threshold_lower_bound c <= DSRIFNode.v_threshold c'
      /\ (DSRIFNode.v_threshold_lower_bound c <= DSRIFNode.v_threshold c ->
          DSRIFNode.v_threshold c' == DSRIFNode.v_threshold c)
      /\ (DSRIFNode.v_threshold c <= DSRIFNode.v_threshold_lower_bound c ->
          DSRIFNode.v_threshold c' == DSRIFNode.v_threshold_lower_bound c).
Proof.
  intros c x x_seq. unfold DSRIFNode.multi_step_forward. cbv zeta.
  cbn [DSRIFNode.T DSRIFNode.alpha DSRIFNode.v_threshold_grad_scaling].
  set (vth' := (relu (DSRIFNode.v_threshold c - DSRIFNode.v_threshold_lower_bound c)
                + DSRIFNode.v_threshold_lower_bound c)%sc).
  destruct (DSRIFNode.forward (x :: x_seq) (DSRIFNode.T c) vth' (DSRIFNode.alpha c)
              (DSRIFNode.v_threshold_grad_scaling c)) as [y | e] eqn:Ef.
  2:{ exfalso. revert Ef. unfold DSRIFNode.forward. cbn [first_step bind].
      rewrite dsr_if_forward_loop.
      pose proof (run_body_shape (dsr_if_step vth' (DSRIFNode.alpha c))
                    (x :: x_seq) (zeros_like x)) as Hs.
      destruct (run_body _ (x :: x_seq) (zeros_like x)) as [[ss ml] traj].
      destruct Hs as (Hl & _ & _). cbn [snd].
      destruct ss; [discriminate Hl | discriminate]. }
  cbn [bind]. eexists y, _. split; [reflexivity |].
  cbn [DSRIFNode.v_threshold]. split; [exact Ef |].
  unfold vth', relu. cbn [s_add s_sub s_le s_zero Exact].
  destruct (Qle_bool (DSRIFNode.v_threshold c - DSRIFNode.v_threshold_lower_bound c) 0)
    eqn:E.
  - apply Qle_bool_iff in E. repeat split; intros; lra.
  - assert (Hlt : 0 < DSRIFNode.v_threshold c - DSRIFNode.v_threshold_lower_bound c).
    { apply Qnot_le_lt. intros Hle. apply Qle_bool_iff in Hle. congruence. }
    repeat split; intros; lra.
Qed.

End DSRRate.

(** ** SlidingPSN *)

Section SlidingPSNWeights.
Context {F : Type} `{Scalar F}.
Local Open Scope scalar_scope.

Lemma length_setitem {A : Type} (l : list A) (t : nat) (a : A) :
  List.length (setitem l t a) = List.length l.
Proof.
  revert t. induction l as [| b l IH]; intros [| t]; cbn; try reflexivity.
  now rewrite IH.
Qed.

Lemma nth_setitem_same {A : Type} (l : list A) (t : nat) (a d : A) :
  (t < List.length l)%nat -> nth t (setitem l t a) d = a.
Proof.
  revert t. induction l as [| b l IH]; intros [| t] Ht; cbn in *; try lia;
    [reflexivity | apply IH; lia].
Qed.

Lemma nth_setitem_other {A : Type} (l : list A) (t i : nat) (a d : A) :
  i <> t -> nth i (setitem l t a) d = nth i l d.
Proof.
  revert t i. induction l as [| b l IH]; intros [| t] [| i] Hi; cbn;
    try reflexivity; try congruence.
  apply IH. congruence.
Qed.

Lemma exp_init_fold (k : nat) :
  forall n j : nat,
    (j + n = k - 1)%nat ->
    let weight :=
      fold_right
        (fun i weight =>
           setitem weight i (nth (i + 1)%nat weight s_zero / s_of_int 2))
        (repeat s_one k) (seq j n) in
    List.length weight = k
    /\ (forall i, (i < j)%nat \/ i = (k - 1)%nat -> (i < k)%nat ->
                  nth i weight s_zero = s_one)
    /\ (forall i, (j <= i)%nat -> (i + 1 < k)%nat ->
                  nth i weight s_zero = nth (i + 1)%nat weight s_zero / s_of_int 2).
Proof.
  induction n as [| n IH]; intros j Hj; cbn zeta.
  - cbn [seq fold_right]. split; [apply repeat_length |]. split.
    + intros i _ Hi. now rewrite nth_repeat_lt.
    + intros i Hji Hi. lia.
  - cbn [seq fold_right].
    destruct (IH (S j) ltac:(lia)) as (Hl & Hone & Hhalf).
    set (w := fold_right _ _ (seq (S j) n)) in *.
    split; [now rewrite length_setitem |]. split.
    + intros i Hi Hik. rewrite nth_setitem_other by lia.
      apply Hone; [lia | exact Hik].
    + intros i Hji Hi.
      destruct (Nat.eq_dec i j) as [-> | Hne].
      * rewrite nth_setitem_same by lia.
        now rewrite nth_setitem_other by lia.
      * rewrite !nth_setitem_other by lia. apply Hhalf; lia.
Qed.

(** "The weight will be initialized as [(..., 1/4, 1/2, 1)]":
    [exp_init_weight k] has [k] elements, the last one is [1.], and each
    of the others is the next one divided by [2.]. *)
Theorem sliding_psn_exp_init_weight :
  forall k : nat,
    let weight := SlidingPSN.exp_init_weight k in
    List.length weight = k
    /\ ((1 <= k)%nat -> nth_error weight (k - 1) = Some s_one)
    /\ (forall i : nat,
           (i + 1 < k)%nat ->
           exists w_next : F,
             nth_error weight (i + 1) = Some w_next
             /\ nth_error weight i = Some (w_next / s_of_int 2)).
Proof.
  intros k weight.
  assert (Hw : weight
               = fold_right
                   (fun i weight =>
                      setitem weight i (nth (i + 1)%nat weight s_zero / s_of_int 2))
                   (repeat s_one k) (seq 0 (k - 1))).
  { unfold weight, SlidingPSN.exp_init_weight.
    now rewrite <- fold_left_rev_right, rev_involutive. }
  destruct (exp_init_fold k (k - 1) 0 eq_refl) as (Hl & Hone & Hhalf).
  rewrite <- Hw in Hl, Hone, Hhalf.
  split; [exact Hl |]. split.
  - intros Hk. rewrite <- (Hone (k - 1)%nat) by lia.
    apply nth_error_nth'. lia.
  - intros i Hi. exists (nth (i + 1) weight s_zero). split.
    + apply nth_error_nth'. lia.
    + rewrite <- (Hhalf i) by lia. apply nth_error_nth'. lia.
Qed.

End SlidingPSNWeights.

(** Slices and repeated elements. *)

Lemma firstn_repeat {A : Type} (a : A) (n m : nat) :
  (n <= m)%nat -> firstn n (repeat a m) = repeat a n.
Proof.
  revert m. induction n as [| n IH]; intros [| m] Hn; cbn; try reflexivity; try lia.
  f_equal. apply IH. lia.
Qed.

Lemma skipn_repeat {A : Type} (a : A) (n m : nat) :
  skipn n (repeat a m) = repeat a (m - n).
Proof.
  revert m. induction n as [| n IH]; intros [| m]; cbn; try reflexivity.
  apply IH.
Qed.

Lemma length_slice {A : Type} (l : list A) (a b : nat) :
  (a <= b <= List.length l)%nat -> List.length (slice l a b) = (b - a)%nat.
Proof.
  intros Hab. unfold slice. rewrite length_firstn, length_skipn. lia.
Qed.

Lemma nth_slice {A : Type} (l : list A) (a b j : nat) (d : A) :
  (j < b - a)%nat -> nth j (slice l a b) d = nth (a + j) l d.
Proof.
  intros Hj. unfold slice. rewrite nth_firstn.
  rewrite (proj2 (Nat.ltb_lt _ _) Hj). now rewrite nth_skipn.
Qed.

Section SlidingPSNGemm.
Context {F : Type} `{Scalar F}.
Variable c : SlidingPSN.config F.
Hypothesis weight_shape : List.length (SlidingPSN.weight c) = SlidingPSN.k c.

Lemma setslice_zero_row (T start end_ : nat) (src : tensor F) :
  (start <= end_ <= T)%nat -> List.length src = (end_ - start)%nat ->
  setslice (repeat s_zero T) start end_ src
  = Ok (repeat s_zero start ++ src ++ repeat s_zero (T - end_)).
Proof.
  intros Hse Hsrc. unfold setslice.
  rewrite length_slice by (rewrite repeat_length; lia).
  rewrite Hsrc, Nat.eqb_refl.
  now rewrite firstn_repeat, skipn_repeat by lia.
Qed.

Lemma gemm_row_step (T i : nat) :
  (i < T)%nat ->
  setslice (repeat s_zero T) (Nat.max 0 (i + 1 - SlidingPSN.k c)) (i + 1)
    (slice (SlidingPSN.weight c)
       (SlidingPSN.k c
        - Nat.min (i + 1 - Nat.max 0 (i + 1 - SlidingPSN.k c)) (SlidingPSN.k c))
       (SlidingPSN.k c))
  = Ok (gemm_row c T i).
Proof.
  intros Hi.
  set (start := Nat.max 0 (i + 1 - SlidingPSN.k c)).
  set (length := Nat.min (i + 1 - start) (SlidingPSN.k c)).
  assert (Hlen : length = Nat.min (i + 1) (SlidingPSN.k c))
    by (unfold length, start; lia).
  assert (Hstart : start = (i + 1 - length)%nat)
    by (unfold length, start; lia).
  rewrite setslice_zero_row.
  - unfold gemm_row. now rewrite Hstart, Hlen.
  - unfold start. lia.
  - rewrite length_slice by lia. unfold length, start. lia.
Qed.

Lemma gen_gemm_weight_fold (T : nat) :
  forall (n a : nat) (done : list (tensor F)),
    (a + n = T)%nat -> List.length done = a ->
    fold_left
      (fun acc i =>
         gemm <- acc ;;
         let end_ := (i + 1)%nat in
         let start := Nat.max 0 (i + 1 - SlidingPSN.k c) in
         let length := Nat.min (end_ - start) (SlidingPSN.k c) in
         row <- setslice (nth i gemm []) start end_
                  (slice (SlidingPSN.weight c) (SlidingPSN.k c - length)
                     (SlidingPSN.k c)) ;;
         Ok (setitem gemm i row))
      (seq a n) (Ok (done ++ repeat (repeat s_zero T) n))
    = Ok (done ++ map (gemm_row c T) (seq a n)).
Proof.
  induction n as [| n IH]; intros a done Han Hd.
  - reflexivity.
  - cbn [seq fold_left repeat map bind].
    match goal with
    | |- context [@nth ?A a ?l ?d] =>
        replace (@nth A a l d) with (repeat s_zero T)
          by (rewrite <- Hd; symmetry; apply nth_middle)
    end.
    match goal with
    | |- context [@setslice ?A (repeat s_zero T) ?s ?e ?src] =>
        replace (@setslice A (repeat s_zero T) s e src) with (Ok (gemm_row c T a))
          by (symmetry; apply gemm_row_step; lia)
    end.
    cbn [bind].
    match goal with
    | |- context [@setitem ?A ?l a ?r] =>
        replace (@setitem A l a r)
          with (done ++ gemm_row c T a :: repeat (repeat s_zero T) n)
          by (rewrite <- Hd; symmetry; apply setitem_middle)
    end.
    specialize (IH (S a) (done ++ [gemm_row c T a])).
    rewrite <- !app_assoc in IH. cbn [app] in IH.
    apply IH; [lia | rewrite length_app; cbn; lia].
Qed.

Lemma gen_gemm_weight_rows (T : nat) :
  SlidingPSN.gen_gemm_weight c T = Ok (map (gemm_row c T) (seq 0 T)).
Proof.
  exact (gen_gemm_weight_fold T T 0 [] eq_refl eq_refl).
Qed.

Lemma gemm_row_entry (T i j : nat) :
  (i < T)%nat -> (j < T)%nat ->
  nth j (gemm_row c T i) s_zero
  = if (j <=? i)%nat && (i <? j + SlidingPSN.k c)%nat
    then nth (SlidingPSN.k c - 1 - (i - j)) (SlidingPSN.weight c) s_zero
    else s_zero.
Proof.
  intros Hi Hj. unfold gemm_row.
  set (len := Nat.min (i + 1) (SlidingPSN.k c)).
  assert (Hlen : List.length (slice (SlidingPSN.weight c) (SlidingPSN.k c - len)
                                (SlidingPSN.k c)) = len)
    by (rewrite length_slice; lia).
  destruct (Nat.lt_ge_cases j (i + 1 - len)) as [Hlo | Hlo].
  - rewrite app_nth1 by (rewrite repeat_length; lia).
    rewrite nth_repeat_lt by lia.
    replace ((j <=? i)%nat && (i <? j + SlidingPSN.k c)%nat) with false;
      [reflexivity |].
    symmetry. apply andb_false_iff. right. apply Nat.ltb_ge. lia.
  - rewrite app_nth2 by (rewrite repeat_length; lia). rewrite repeat_length.
    destruct (Nat.lt_ge_cases j (i + 1)) as [Hhi | Hhi].
    + rewrite app_nth1 by lia.
      rewrite nth_slice by lia.
      replace ((j <=? i)%nat && (i <? j + SlidingPSN.k c)%nat) with true.
      * f_equal. lia.
      * symmetry. apply andb_true_iff. split;
          [apply Nat.leb_le | apply Nat.ltb_lt]; lia.
    + rewrite app_nth2 by lia. rewrite nth_repeat.
      replace ((j <=? i)%nat && (i <? j + SlidingPSN.k c)%nat) with false;
        [reflexivity |].
      symmetry. apply andb_false_iff. left. apply Nat.leb_gt. lia.
Qed.

End SlidingPSNGemm.

(** The matrix of [SlidingPSN.gen_gemm_weight] on [T] steps, for a weight
    of [k] elements, is the banded lower triangular matrix of the sliding
    window: its entry [i, j] is [weight[k - 1 - (i - j)]] where
    [j <= i < j + k], and [0.] elsewhere. *)
Theorem sliding_psn_gemm_weight_is_banded :
  forall (F : Type) (SF : Scalar F) (c : SlidingPSN.config F) (T : nat),
    List.length (SlidingPSN.weight c) = SlidingPSN.k c ->
    exists gemm : list (tensor F),
      SlidingPSN.gen_gemm_weight c T = Ok gemm
      /\ List.length gemm = T
      /\ forall i j : nat,
           (i < T)%nat -> (j < T)%nat ->
           nth j (nth i gemm []) s_zero
           = if (j <=? i)%nat && (i <? j + SlidingPSN.k c)%nat
             then nth (SlidingPSN.k c - 1 - (i - j)) (SlidingPSN.weight c) s_zero
             else s_zero.
Proof.
  intros F SF c T Hw. exists (map (gemm_row c T) (seq 0 T)).
  split; [now apply gen_gemm_weight_rows |].
  split; [now rewrite length_map, length_seq |].
  intros i j Hi Hj.
  rewrite (nth_indep _ [] (gemm_row c T 0)) by (now rewrite length_map, length_seq).
  rewrite map_nth, seq_nth by exact Hi. cbn [Nat.add].
  now apply gemm_row_entry.
Qed.

Section SlidingPSNQueue.
Context {F : Type} `{Scalar F}.
Variable c : SlidingPSN.config F.

Lemma length_lastn {A : Type} (k : nat) (l : list A) :
  List.length (lastn k l) = Nat.min k (List.length l).
Proof. unfold lastn. rewrite length_skipn. lia. Qed.

Lemma push_lastn (queue : list (tensor F)) (x : tensor F) :
  (List.length queue <= SlidingPSN.k c)%nat ->
  SlidingPSN.push c queue x = lastn (SlidingPSN.k c) (queue ++ [x]).
Proof.
  intros Hq. unfold SlidingPSN.push, lastn. rewrite length_app. cbn [List.length].
  destruct (Nat.ltb_spec (SlidingPSN.k c) (List.length queue + 1)) as [Hlt | Hge].
  - replace (List.length queue + 1 - SlidingPSN.k c)%nat with 1%nat by lia.
    now destruct queue.
  - now replace (List.length queue + 1 - SlidingPSN.k c)%nat with 0%nat by lia.
Qed.

Lemma lastn_all {A : Type} (k : nat) (l : list A) :
  (List.length l <= k)%nat -> lastn k l = l.
Proof.
  intros Hl. unfold lastn. now replace (List.length l - k)%nat with 0%nat by lia.
Qed.

Lemma lastn_app_lastn {A : Type} (k : nat) (l : list A) (x : A) :
  lastn k (lastn k l ++ [x]) = lastn k (l ++ [x]).
Proof.
  destruct (Nat.le_gt_cases (List.length l) k) as [Hle | Hgt].
  - now rewrite (lastn_all k l Hle).
  - unfold lastn at 2 3. rewrite length_app. cbn [List.length].
    replace (List.length l + 1 - k)%nat with (1 + (List.length l - k))%nat by lia.
    rewrite <- skipn_skipn.
    rewrite (skipn_app (List.length l - k)).
    replace (List.length l - k - List.length l)%nat with 0%nat by lia.
    cbn [skipn].
    unfold lastn. rewrite length_app, length_skipn. cbn [List.length].
    now replace (List.length l - (List.length l - k) + 1 - k)%nat with 1%nat by lia.
Qed.

Lemma single_step_sliding (pre : list (tensor F)) (x : tensor F) :
  (1 <= SlidingPSN.k c)%nat ->
  SlidingPSN.single_step_forward c (lastn (SlidingPSN.k c) pre) x
  = Returns (sliding_output c (lastn (SlidingPSN.k c) (pre ++ [x])),
             lastn (SlidingPSN.k c) (pre ++ [x])).
Proof.
  intros Hk. unfold SlidingPSN.single_step_forward.
  rewrite push_lastn by (rewrite length_lastn; lia).
  rewrite lastn_app_lastn.
  destruct (lastn (SlidingPSN.k c) (pre ++ [x])) as [| q queue] eqn:E.
  - apply (f_equal (@List.length _)) in E.
    rewrite length_lastn, length_app in E. cbn in E. lia.
  - reflexivity.
Qed.

Lemma sequential_sliding (x_seq : list (tensor F)) :
  (1 <= SlidingPSN.k c)%nat ->
  forall pre : list (tensor F),
    sequential (SlidingPSN.single_step_forward c) (lastn (SlidingPSN.k c) pre) x_seq
    = Returns
        (map (fun t =>
                sliding_output c
                  (lastn (SlidingPSN.k c) (pre ++ firstn (S t) x_seq)))
             (seq 0 (List.length x_seq)),
         lastn (SlidingPSN.k c) (pre ++ x_seq)).
Proof.
  intros Hk. induction x_seq as [| x x_seq IH]; intros pre.
  - cbn. now rewrite app_nil_r.
  - cbn [sequential]. rewrite (single_step_sliding pre x Hk).
    rewrite (IH (pre ++ [x])). cbn [List.length seq map firstn].
    rewrite <- app_assoc. cbn [app]. f_equal. f_equal.
    + f_equal. rewrite <- seq_shift, map_map.
      apply map_ext. intros t. now rewrite <- app_assoc.
Qed.

(** The queue of a [SlidingPSN] is the sliding window of its inputs: with
    [k >= 1], single-step calls from the empty queue of a new module
    return one output per input and leave in the queue the last [k]
    inputs, or all of them if there were fewer; with [k = 0] the first
    call raises at [torch.stack] of an empty queue. *)
Theorem sliding_psn_queue_is_a_window :
  forall x_seq : list (tensor F),
    ((1 <= SlidingPSN.k c)%nat ->
     exists y_seq : list (tensor F),
       sequential (SlidingPSN.single_step_forward c) [] x_seq
       = Returns (y_seq, lastn (SlidingPSN.k c) x_seq)
       /\ List.length y_seq = List.length x_seq
       /\ (List.length (lastn (SlidingPSN.k c) x_seq) <= SlidingPSN.k c)%nat)
    /\
    (SlidingPSN.k c = 0%nat ->
     forall x : tensor F,
       SlidingPSN.single_step_forward c [] x = Raises RuntimeError).
Proof.
  intros x_seq. split.
  - intros Hk. pose proof (sequential_sliding x_seq Hk []) as Hs.
    cbn [app] in Hs. change (lastn (SlidingPSN.k c) []) with (@nil (tensor F)) in Hs.
    rewrite Hs. eexists. split; [reflexivity |].
    split; [now rewrite length_map, length_seq | rewrite length_lastn; lia].
  - intros Hk x. unfold SlidingPSN.single_step_forward, SlidingPSN.push.
    rewrite Hk. reflexivity.
Qed.

End SlidingPSNQueue.

Section SlidingPSNModes.
Local Open Scope Q_scope.

Lemma total_app (A B : list (tensor Q)) (n : nat) :
  total (A ++ B) n == total A n + total B n.
Proof.
  induction A as [| a A IH]; cbn [app].
  - change (total [] n) with 0. ring.
  - change (total (a :: A ++ B) n) with (nth n a 0 + total (A ++ B) n).
    change (total (a :: A) n) with (nth n a 0 + total A n).
    rewrite IH. ring.
Qed.

Lemma sum0_total (N n : nat) (rest : list (tensor Q)) :
  forall r : tensor Q,
    Forall (fun row => List.length row = N) (r :: rest) ->
    List.length (sum0 (r :: rest)) = N
    /\ ((n < N)%nat -> nth n (sum0 (r :: rest)) 0 == total (r :: rest) n).
Proof.
  induction rest as [| r' rest IH]; intros r Hlen.
  - inversion Hlen as [| ? ? Hr _]; subst. cbn [sum0 fold_left].
    split; [reflexivity |].
    intros _. change (total [r] n) with (nth n r 0 + 0). ring.
  - inversion Hlen as [| ? ? Hr Hrest]; subst.
    inversion Hrest as [| ? ? Hr' Hrest']; subst.
    assert (Hm : List.length (map2 s_add r r') = List.length r)
      by (apply map2_length; congruence).
    destruct (IH (map2 s_add r r')) as [Hl Hn].
    { constructor; [congruence | exact Hrest']. }
    change (sum0 (r :: r' :: rest)) with (sum0 (map2 s_add r r' :: rest)).
    split; [exact Hl |].
    intros Hlt. rewrite (Hn Hlt).
    change (total (map2 s_add r r' :: rest) n)
      with (nth n (map2 s_add r r') 0 + total rest n).
    change (total (r :: r' :: rest) n)
      with (nth n r 0 + (nth n r' 0 + total rest n)).
    rewrite (nth_map2 _ _ _ 0 0 0) by congruence.
    cbn [s_add Exact]. ring.
Qed.

Lemma zero_row_element (x : tensor Q) (n : nat) :
  nth n (map (fun a => (s_zero * a)%sc) x) 0 == 0.
Proof.
  destruct (Nat.lt_ge_cases n (List.length x)) as [Hn | Hn].
  - rewrite (nth_map_in _ _ 0 0) by exact Hn. cbn [s_mul s_zero Exact]. ring.
  - rewrite nth_overflow by (now rewrite length_map). reflexivity.
Qed.

Lemma total_zero_weights (m : nat) (n : nat) :
  forall X : list (tensor Q), total (weighted (repeat s_zero m) X) n == 0.
Proof.
  induction m as [| m IH]; intros [| x X]; try reflexivity.
  change (total (weighted (repeat s_zero (S m)) (x :: X)) n)
    with (nth n (map (fun a => (s_zero * a)%sc) x) 0
          + total (weighted (repeat s_zero m) X) n).
  rewrite IH, zero_row_element. ring.
Qed.

Lemma weighted_app (w1 w2 : tensor Q) (X1 X2 : list (tensor Q)) :
  List.length w1 = List.length X1 ->
  weighted (w1 ++ w2) (X1 ++ X2) = weighted w1 X1 ++ weighted w2 X2.
Proof.
  revert X1. induction w1 as [| a w1 IH]; intros [| x X1] Hl;
    try discriminate Hl; [reflexivity |].
  change (weighted ((a :: w1) ++ w2) ((x :: X1) ++ X2))
    with (map (fun b => (a * b)%sc) x :: weighted (w1 ++ w2) (X1 ++ X2)).
  rewrite IH by (cbn in Hl; lia). reflexivity.
Qed.

Lemma length_weighted_rows (N : nat) (w : tensor Q) (X : list (tensor Q)) :
  Forall (fun row => List.length row = N) X ->
  Forall (fun row => List.length row = N) (weighted w X).
Proof.
  intros HX. revert w. induction HX as [| x X Hx HX IH]; intros [| a w]; cbn;
    constructor.
  - now rewrite length_map.
  - apply IH.
Qed.

Lemma Forall2_Qeq_nth (l l' : tensor Q) :
  List.length l = List.length l' ->
  (forall n, (n < List.length l)%nat -> nth n l 0 == nth n l' 0) ->
  Forall2 Qeq l l'.
Proof.
  revert l'. induction l as [| a l IH]; intros [| b l'] Hl Hn; cbn in *;
    try discriminate; constructor.
  - apply (Hn 0%nat). lia.
  - apply IH; [lia |]. intros n Hlt. apply (Hn (S n)). lia.
Qed.

(** A weighted sum of rows depends on its weights that are not zeros
    only. *)
Lemma banded_sum (N a : nat) (w : tensor Q) (b : nat) (X1 Q X2 : list (tensor Q)) :
  List.length X1 = a -> List.length Q = List.length w -> List.length X2 = b ->
  (1 <= List.length w)%nat ->
  Forall (fun row => List.length row = N) (X1 ++ Q ++ X2) ->
  Forall2 Qeq
    (sum0 (weighted (repeat s_zero a ++ w ++ repeat s_zero b) (X1 ++ Q ++ X2)))
    (sum0 (weighted w Q)).
Proof.
  intros H1 HQ H2 Hw Hlen.
  rewrite !weighted_app by (rewrite ?repeat_length; congruence).
  assert (Hrows : Forall (fun row => List.length row = N)
                    (weighted (repeat s_zero a) X1 ++ weighted w Q
                     ++ weighted (repeat s_zero b) X2)).
  { rewrite <- !weighted_app by (rewrite ?repeat_length; congruence).
    now apply length_weighted_rows. }
  assert (HrowsQ : Forall (fun row => List.length row = N) (weighted w Q)).
  { apply Forall_app in Hrows. destruct Hrows as [_ Hrows].
    apply Forall_app in Hrows. tauto. }
  destruct (weighted w Q) as [| q wq] eqn:EQ.
  { apply (f_equal (@List.length _)) in EQ. unfold weighted in EQ.
    rewrite map2_length in EQ by (symmetry; exact HQ). cbn in EQ. lia. }
  destruct (weighted (repeat s_zero a) X1 ++ (q :: wq)
            ++ weighted (repeat s_zero b) X2) as [| r rows] eqn:ER.
  { destruct (weighted (repeat s_zero a) X1); discriminate ER. }
  destruct (sum0_total N 0 rows r Hrows) as [Hl _].
  destruct (sum0_total N 0 wq q HrowsQ) as [HlQ _].
  apply Forall2_Qeq_nth; [congruence |].
  intros n Hn. rewrite Hl in Hn.
  rewrite (proj2 (sum0_total N n rows r Hrows) Hn).
  rewrite (proj2 (sum0_total N n wq q HrowsQ) Hn).
  rewrite <- ER, !total_app, !total_zero_weights. ring.
Qed.

End SlidingPSNModes.

Lemma Forall2_map_seq {A : Type} (R : A -> A -> Prop) (f g : nat -> A) (n : nat) :
  forall a : nat,
    (forall t, (a <= t < a + n)%nat -> R (f t) (g t)) ->
    Forall2 R (map f (seq a n)) (map g (seq a n)).
Proof.
  induction n as [| n IH]; intros a Hfg; cbn; constructor.
  - apply Hfg. lia.
  - apply IH. intros t Ht. apply Hfg. lia.
Qed.

Section SlidingPSNEquivalence.
Local Open Scope Q_scope.
Variable c : SlidingPSN.config Q.
Hypothesis order : (1 <= SlidingPSN.k c)%nat.
Hypothesis weight_shape : List.length (SlidingPSN.weight c) = SlidingPSN.k c.
Hypothesis surrogate_proper :
  forall a b : Q,
    a == b -> SlidingPSN.surrogate_function c a == SlidingPSN.surrogate_function c b.

Lemma window_decomposition (x_seq : list (tensor Q)) (t : nat) :
  (t < List.length x_seq)%nat ->
  let len := Nat.min (t + 1) (SlidingPSN.k c) in
  let window := lastn (SlidingPSN.k c) (firstn (S t) x_seq) in
  x_seq = firstn (t + 1 - len) x_seq ++ window ++ skipn (t + 1) x_seq
  /\ List.length window = len
  /\ List.length (firstn (t + 1 - len) x_seq) = (t + 1 - len)%nat
  /\ List.length (skipn (t + 1) x_seq) = (List.length x_seq - (t + 1))%nat.
Proof.
  intros Ht len window.
  assert (Hf : List.length (firstn (S t) x_seq) = S t)
    by (rewrite length_firstn; lia).
  assert (Hw : window = skipn (t + 1 - len) (firstn (S t) x_seq)).
  { unfold window, lastn. rewrite Hf. f_equal. unfold len. lia. }
  repeat split.
  - rewrite Hw, app_assoc.
    replace (firstn (t + 1 - len) x_seq)
      with (firstn (t + 1 - len) (firstn (S t) x_seq))
      by (rewrite firstn_firstn; f_equal; unfold len; lia).
    rewrite firstn_skipn. replace (t + 1)%nat with (S t) by lia.
    now rewrite firstn_skipn.
  - rewrite Hw, length_skipn, Hf. unfold len. lia.
  - rewrite length_firstn. unfold len. lia.
  - now rewrite length_skipn.
Qed.

Lemma gemm_row_is_single_step (N : nat) (x_seq : list (tensor Q)) (t : nat) :
  Forall (fun row => List.length row = N) x_seq ->
  (t < List.length x_seq)%nat ->
  Forall2 Qeq
    (map (SlidingPSN.surrogate_function c)
       (map (fun h => (SlidingPSN.bias c + h)%sc)
          (sum0 (weighted (gemm_row c (List.length x_seq) t) x_seq))))
    (sliding_output c (lastn (SlidingPSN.k c) (firstn (S t) x_seq))).
Proof.
  intros Hlen Ht.
  destruct (window_decomposition x_seq t Ht) as (Hx & Hw & H1 & H2).
  set (len := Nat.min (t + 1) (SlidingPSN.k c)) in *.
  set (window := lastn (SlidingPSN.k c) (firstn (S t) x_seq)) in *.
  unfold sliding_output. rewrite Hw. fold len.
  change (map2 (fun w x_t => map (fun a => (w * a)%sc) x_t)
            (slice (SlidingPSN.weight c) (SlidingPSN.k c - len) (SlidingPSN.k c))
            window)
    with (weighted (slice (SlidingPSN.weight c) (SlidingPSN.k c - len)
                      (SlidingPSN.k c)) window).
  assert (Hs : List.length (slice (SlidingPSN.weight c) (SlidingPSN.k c - len)
                              (SlidingPSN.k c)) = len).
  { rewrite length_slice; unfold len; lia. }
  assert (Hsum : Forall2 Qeq
                   (sum0 (weighted (gemm_row c (List.length x_seq) t) x_seq))
                   (sum0 (weighted (slice (SlidingPSN.weight c)
                                      (SlidingPSN.k c - len) (SlidingPSN.k c))
                            window))).
  { unfold gemm_row. fold len. rewrite Hx at 2.
    apply (banded_sum N); try assumption.
    - now rewrite Hs.
    - rewrite Hs. unfold len. lia.
    - now rewrite <- Hx. }
  rewrite map_map.
  induction Hsum as [| a b l l' Hab Hsum IH]; cbn [map]; constructor.
  - apply surrogate_proper. cbn [s_add Exact]. rewrite Hab. ring.
  - exact IH.
Qed.

Lemma gemm_multi_step (x_seq : list (tensor Q)) :
  SlidingPSN.backend c = "gemm"%string ->
  SlidingPSN.multi_step_forward c x_seq
  = Ok (map (fun t =>
               map (SlidingPSN.surrogate_function c)
                 (map (fun h => (SlidingPSN.bias c + h)%sc)
                    (sum0 (weighted (gemm_row c (List.length x_seq) t) x_seq))))
            (seq 0 (List.length x_seq))).
Proof.
  intros Hb. unfold SlidingPSN.multi_step_forward. rewrite Hb.
  cbn [String.eqb Ascii.eqb Bool.eqb].
  rewrite (gen_gemm_weight_rows c weight_shape). cbn [bind].
  unfold matmul. now rewrite !map_map.
Qed.

End SlidingPSNEquivalence.

(** In exact arithmetic the two step modes of a [SlidingPSN] agree: with
    the gemm backend, an order [k >= 1] and a weight of [k] elements, one
    multi-step call on [T] inputs of one shape returns, row by row, what
    [T] single-step calls from the empty queue of a new module return.
    The surrogate function is any function of the rationals (it gives
    equal outputs on equal rationals). *)
Theorem sliding_psn_single_step_is_gemm :
  forall (c : SlidingPSN.config Q) (x_seq : list (tensor Q)) (N : nat),
    (1 <= SlidingPSN.k c)%nat ->
    List.length (SlidingPSN.weight c) = SlidingPSN.k c ->
    SlidingPSN.backend c = "gemm"%string ->
    (forall a b : Q,
        (a == b)%Q ->
        (SlidingPSN.surrogate_function c a == SlidingPSN.surrogate_function c b)%Q) ->
    Forall (fun row => List.length row = N) x_seq ->
    exists (y_multi y_single queue : list (tensor Q)),
      SlidingPSN.multi_step_forward c x_seq = Ok y_multi
      /\ sequential (SlidingPSN.single_step_forward c) [] x_seq
         = Returns (y_single, queue)
      /\ Forall2 (Forall2 Qeq) y_multi y_single.
Proof.
  intros c x_seq N Hk Hw Hb Hsg Hlen.
  rewrite (gemm_multi_step c Hw x_seq Hb).
  pose proof (sequential_sliding c x_seq Hk []) as Hs.
  cbn [app] in Hs. change (lastn (SlidingPSN.k c) []) with (@nil (tensor Q)) in Hs.
  rewrite Hs. eexists _, _, _. split; [reflexivity | split; [reflexivity |]].
  apply Forall2_map_seq. intros t Ht.
  apply (gemm_row_is_single_step c Hk Hw Hsg N); [exact Hlen | lia].
Qed.

(** ** Non-spiking neurons *)

Section NonSpiking.
Context {F : Type} `{Scalar F}.
Local Open Scope string_scope.

Lemma charge_loop_charged (charge : tensor F -> tensor F -> tensor F)
    (x_seq : list (tensor F)) :
  forall (v : tensor F) (v_seq : list (tensor F)),
    NonSpikingBaseNode.charge_loop (fun v x => Ok (charge v x)) v x_seq v_seq
    = Ok (v_seq ++ charged charge v x_seq)%list.
Proof.
  induction x_seq as [| x x_seq IH]; intros v v_seq.
  - cbn. now rewrite app_nil_r.
  - cbn [NonSpikingBaseNode.charge_loop charged bind]. rewrite IH.
    now rewrite <- app_assoc.
Qed.

Lemma last_charged (charge : tensor F -> tensor F -> tensor F)
    (x_seq : list (tensor F)) :
  forall v : tensor F, last (charged charge v x_seq) v = fold_left charge x_seq v.
Proof.
  induction x_seq as [| x x_seq IH]; intros v; [reflexivity |].
  cbn [charged fold_left]. rewrite last_cons_default. apply IH.
Qed.

Lemma last_item_last {A : Type} (l : list A) (a d : A) :
  last_item (a :: l) = Ok (last (a :: l) d).
Proof.
  unfold last_item.
  destruct (exists_last (l := a :: l) ltac:(discriminate)) as (l' & b & E).
  rewrite E, rev_unit, last_last. reflexivity.
Qed.

Lemma forward_last_mem (charge : tensor F -> tensor F -> tensor F)
    (x : tensor F) (x_seq : list (tensor F)) :
  NonSpikingBaseNode.forward (fun v x => Ok (charge v x)) "last-mem" (x :: x_seq)
  = Ok (fold_left charge (x :: x_seq) (full_like x s_zero)).
Proof.
  unfold NonSpikingBaseNode.forward. cbn [first_step bind].
  rewrite charge_loop_charged. cbn [bind app String.eqb Ascii.eqb Bool.eqb charged].
  rewrite (last_item_last _ _ (full_like x s_zero)).
  rewrite last_cons_default, last_charged. reflexivity.
Qed.

(** A non-spiking neuron starts each [forward] from the potential [0.]
    and decodes the potentials of the [T] steps.  On an input of no step
    it raises at [x_seq[0]].  A [decode] that is none of ['max-mem'],
    ['max-abs-mem'] and ['mean-mem'] is not refused: it decodes as
    ['last-mem'], which returns the potential after the last charge. *)
Theorem non_spiking_decode :
  (forall (charge : tensor F -> tensor F -> result (tensor F)) (decode : string),
      NonSpikingBaseNode.forward charge decode [] = Raise IndexError)
  /\
  (forall (charge : tensor F -> tensor F -> result (tensor F)) (decode : string)
          (x_seq : list (tensor F)),
      decode <> "max-mem" -> decode <> "max-abs-mem" -> decode <> "mean-mem" ->
      NonSpikingBaseNode.forward charge decode x_seq
      = NonSpikingBaseNode.forward charge "last-mem" x_seq)
  /\
  (forall (x : tensor F) (x_seq : list (tensor F)),
      NonSpikingIFNode.forward "last-mem" (x :: x_seq)
      = Ok (fold_left (map2 s_add) (x :: x_seq) (full_like x s_zero)))
  /\
  (forall (tau : F) (x : tensor F) (x_seq : list (tensor F)),
      NonSpikingLIFNode.forward tau "last-mem" (x :: x_seq)
      = Ok (fold_left (map2 (fun v x => (v + (x - v) / tau)%sc)) (x :: x_seq)
              (full_like x s_zero))).
Proof.
  split; [| split; [| split]].
  - reflexivity.
  - intros charge decode x_seq H1 H2 H3. unfold NonSpikingBaseNode.forward.
    apply String.eqb_neq in H1, H2, H3. now rewrite H1, H2, H3.
  - intros x x_seq. apply (forward_last_mem (map2 s_add)).
  - intros tau x x_seq.
    apply (forward_last_mem (map2 (fun v x => (v + (x - v) / tau)%sc))).
Qed.

End NonSpiking.

Section NonSpikingMaxAbs.
Local Open Scope Q_scope.

Lemma s_max_Q (a b : Q) :
  (s_max a b = a \/ s_max a b = b) /\ a <= s_max a b /\ b <= s_max a b.
Proof.
  unfold s_max. cbn [s_eq s_lt Exact]. rewrite !Qeq_bool_refl.
  destruct (Qle_bool b a) eqn:E; cbn [negb].
  - apply Qle_bool_iff in E. repeat split; auto; lra.
  - assert (a < b) by (apply Qnot_le_lt; intros Hle; apply Qle_bool_iff in Hle;
                       congruence).
    repeat split; auto; lra.
Qed.

Lemma s_min_Q (a b : Q) :
  (s_min a b = a \/ s_min a b = b) /\ s_min a b <= a /\ s_min a b <= b.
Proof.
  unfold s_min. cbn [s_eq s_lt Exact]. rewrite !Qeq_bool_refl.
  destruct (Qle_bool a b) eqn:E; cbn [negb].
  - apply Qle_bool_iff in E. repeat split; auto; lra.
  - assert (b < a) by (apply Qnot_le_lt; intros Hle; apply Qle_bool_iff in Hle;
                       congruence).
    repeat split; auto; lra.
Qed.

(** A reduction of rows by an operation that picks one of its operands
    and is on one side of both. *)
Lemma pick0_rows (op : Q -> Q -> Q) (below : Q -> Q -> Prop) (N i : nat) :
  (forall a, below a a) ->
  (forall a b c, below a b -> below b c -> below a c) ->
  (forall a b, (op a b = a \/ op a b = b) /\ below a (op a b) /\ below b (op a b)) ->
  forall (rest : list (tensor Q)) (r : tensor Q),
    Forall (fun row => List.length row = N) (r :: rest) -> (i < N)%nat ->
    let m := fold_left (map2 op) rest r in
    List.length m = N
    /\ (exists row, In row (r :: rest) /\ nth i m 0 = nth i row 0)
    /\ (forall row, In row (r :: rest) -> below (nth i row 0) (nth i m 0)).
Proof.
  intros Hrefl Htrans Hop rest.
  induction rest as [| r' rest IH]; intros r Hlen Hi; cbn zeta.
  - inversion Hlen; subst. cbn [fold_left]. split; [reflexivity |]. split.
    + exists r. split; [now left | reflexivity].
    + intros row [<- | []]. apply Hrefl.
  - inversion Hlen as [| ? ? Hr Hrest]; subst.
    inversion Hrest as [| ? ? Hr' Hrest']; subst.
    assert (Hm : List.length (map2 op r r') = List.length r)
      by (apply map2_length; congruence).
    destruct (IH (map2 op r r')) as (Hl & (row & Hin & Hrow) & Hall).
    { constructor; [congruence | exact Hrest']. }
    { exact Hi. }
    cbn [fold_left].
    assert (Hnth : nth i (map2 op r r') 0 = op (nth i r 0) (nth i r' 0))
      by (apply nth_map2; congruence).
    destruct (Hop (nth i r 0) (nth i r' 0)) as (Hpick & Ha & Hb).
    split; [exact Hl |]. split.
    + destruct Hin as [<- | Hin].
      * rewrite Hrow, Hnth.
        destruct Hpick as [-> | ->];
          [exists r | exists r']; split; cbn; auto.
      * exists row. split; [cbn; auto | exact Hrow].
    + intros row' [<- | [<- | Hin']].
      * eapply Htrans; [exact Ha |]. rewrite <- Hnth. apply Hall. now left.
      * eapply Htrans; [exact Hb |]. rewrite <- Hnth. apply Hall. now left.
      * apply Hall. now right.
Qed.

Lemma s_abs_Q (x : Q) :
  (0 <= x /\ s_abs x == x) \/ (x < 0 /\ s_abs x == - x).
Proof.
  unfold s_abs, neg. cbn [s_lt s_zero s_mul s_of_int Exact].
  destruct (Qle_bool 0 x) eqn:E; cbn [negb].
  - apply Qle_bool_iff in E. left. split; [exact E | reflexivity].
  - right. split.
    + apply Qnot_le_lt. intros Hle. apply Qle_bool_iff in Hle. congruence.
    + unfold inject_Z. ring.
Qed.

(** The selection of ['max-abs-mem'] on one element. *)
Lemma max_abs_element (max_mem min_mem v : Q) :
  min_mem <= v -> v <= max_mem ->
  let mem := (max_mem * of_bool (s_abs max_mem >? s_abs min_mem)
              + min_mem * of_bool (s_abs max_mem <=? s_abs min_mem))%sc in
  (mem == max_mem \/ mem == min_mem) /\ s_abs v <= s_abs mem.
Proof.
  intros Hlo Hhi. cbv zeta.
  cbn [s_add s_mul s_gt s_le Exact].
  pose proof (s_abs_Q max_mem) as Hmax.
  pose proof (s_abs_Q min_mem) as Hmin.
  pose proof (s_abs_Q v) as Hv.
  destruct (Qle_bool (s_abs max_mem) (s_abs min_mem)) eqn:E;
    cbn [negb of_bool s_one s_zero Exact].
  - apply Qle_bool_iff in E.
    pose proof (s_abs_Q (max_mem * 0 + min_mem * 1)) as Hmem.
    split; [right; ring |].
    destruct Hmax as [[? ?] | [? ?]], Hmin as [[? ?] | [? ?]],
      Hv as [[? ?] | [? ?]], Hmem as [[? ?] | [? ?]]; lra.
  - assert (Hlt : s_abs min_mem < s_abs max_mem).
    { apply Qnot_le_lt. intros Hle. apply Qle_bool_iff in Hle. congruence. }
    pose proof (s_abs_Q (max_mem * 1 + min_mem * 0)) as Hmem.
    split; [left; ring |].
    destruct Hmax as [[? ?] | [? ?]], Hmin as [[? ?] | [? ?]],
      Hv as [[? ?] | [? ?]], Hmem as [[? ?] | [? ?]]; lra.
Qed.

End NonSpikingMaxAbs.

Section NonSpikingMaxAbsMem.
Local Open Scope Q_scope.

Lemma charged_lengths (charge : tensor Q -> tensor Q -> tensor Q) (N : nat) :
  (forall v x, List.length v = N -> List.length x = N ->
               List.length (charge v x) = N) ->
  forall (x_seq : list (tensor Q)) (v : tensor Q),
    List.length v = N -> Forall (fun row => List.length row = N) x_seq ->
    Forall (fun row => List.length row = N) (charged charge v x_seq).
Proof.
  intros Hc x_seq. induction x_seq as [| x x_seq IH]; intros v Hv Hx; cbn [charged].
  - constructor.
  - inversion Hx; subst. constructor; [now apply Hc |].
    apply IH; [now apply Hc | assumption].
Qed.

Lemma forward_max_abs_mem (charge : tensor Q -> tensor Q -> tensor Q)
    (x : tensor Q) (x_seq : list (tensor Q)) (i : nat) :
  (forall v x', List.length v = List.length x -> List.length x' = List.length x ->
                List.length (charge v x') = List.length x) ->
  Forall (fun row => List.length row = List.length x) x_seq ->
  (i < List.length x)%nat ->
  let potentials := charged charge (full_like x 0) (x :: x_seq) in
  exists mem : tensor Q,
    NonSpikingBaseNode.forward (fun v x => Ok (charge v x)) "max-abs-mem"
      (x :: x_seq) = Ok mem
    /\ (exists v, In v potentials /\ nth i mem 0 == nth i v 0)
    /\ (forall v, In v potentials -> s_abs (nth i v 0) <= s_abs (nth i mem 0)).
Proof.
  intros Hc Hx Hi potentials.
  assert (Hrows : Forall (fun row => List.length row = List.length x) potentials).
  { apply charged_lengths; [exact Hc | apply length_map | now constructor]. }
  unfold NonSpikingBaseNode.forward. cbn [first_step bind].
  rewrite charge_loop_charged. cbn [bind app].
  change (charged charge (full_like x s_zero) (x :: x_seq)) with potentials.
  destruct potentials as [| p rest] eqn:Ep; [discriminate Ep |].
  cbn [String.eqb Ascii.eqb Bool.eqb stack bind max0 min0].
  destruct (pick0_rows s_max Qle (List.length x) i Qle_refl Qle_trans s_max_Q
              rest p Hrows Hi) as (Hlmax & (rmax & Hinmax & Hmax) & Hallmax).
  destruct (pick0_rows s_min (fun a b => b <= a) (List.length x) i Qle_refl
              (fun a b c Hab Hbc => Qle_trans _ _ _ Hbc Hab) s_min_Q
              rest p Hrows Hi) as (Hlmin & (rmin & Hinmin & Hmin) & Hallmin).
  eexists. split; [reflexivity |].
  rewrite (nth_map2 _ _ _ 0 0 0) by congruence.
  pose proof (max_abs_element (nth i (fold_left (map2 s_max) rest p) 0)
                (nth i (fold_left (map2 s_min) rest p) 0)) as Hsel.
  cbv zeta in Hsel. split.
  - destruct (Hsel (nth i rmax 0)) as [[Hm | Hm] _].
    + apply Hallmin, Hinmax.
    + rewrite <- Hmax. apply Qle_refl.
    + exists rmax. split; [exact Hinmax |]. now rewrite Hm, Hmax.
    + exists rmin. split; [exact Hinmin |]. now rewrite Hm, Hmin.
  - intros v Hv. apply (Hsel (nth i v 0)); [apply Hallmin | apply Hallmax]; exact Hv.
Qed.

(** In exact arithmetic ['max-abs-mem'] decodes, on every element, a
    potential of the largest magnitude among those of the [T >= 1] steps
    -- for [NonSpikingIFNode] the running sums of the inputs, for
    [NonSpikingLIFNode] the leaky ones -- with its sign. *)
Theorem non_spiking_max_abs_mem :
  (forall (x : tensor Q) (x_seq : list (tensor Q)) (i : nat),
      Forall (fun row => List.length row = List.length x) x_seq ->
      (i < List.length x)%nat ->
      let potentials := charged (map2 s_add) (full_like x 0) (x :: x_seq) in
      exists mem : tensor Q,
        NonSpikingIFNode.forward "max-abs-mem" (x :: x_seq) = Ok mem
        /\ (exists v, In v potentials /\ nth i mem 0 == nth i v 0)
        /\ (forall v, In v potentials -> s_abs (nth i v 0) <= s_abs (nth i mem 0)))
  /\
  (forall (tau : Q) (x : tensor Q) (x_seq : list (tensor Q)) (i : nat),
      Forall (fun row => List.length row = List.length x) x_seq ->
      (i < List.length x)%nat ->
      let potentials :=
        charged (map2 (fun v x => (v + (x - v) / tau)%sc)) (full_like x 0)
          (x :: x_seq) in
      exists mem : tensor Q,
        NonSpikingLIFNode.forward tau "max-abs-mem" (x :: x_seq) = Ok mem
        /\ (exists v, In v potentials /\ nth i mem 0 == nth i v 0)
        /\ (forall v, In v potentials -> s_abs (nth i v 0) <= s_abs (nth i mem 0))).
Proof.
  split.
  - intros x x_seq i Hx Hi.
    apply (forward_max_abs_mem (map2 s_add) x x_seq i); try assumption.
    intros v x' Hv Hx'. rewrite map2_length; congruence.
  - intros tau x x_seq i Hx Hi.
    apply (forward_max_abs_mem (map2 (fun v x => (v + (x - v) / tau)%sc)) x x_seq i);
      try assumption.
    intros v x' Hv Hx'. rewrite map2_length; congruence.
Qed.

End NonSpikingMaxAbsMem.

(** ** The sign of a difference in binary64 *)

Section SignOfDifference.
Local Open Scope Z_scope.

Lemma digits2_pos_bound (m : positive) :
  2 ^ (Zpos (digits2_pos m) - 1) <= Zpos m < 2 ^ Zpos (digits2_pos m).
Proof.
  induction m as [m IH | m IH |]; cbn [digits2_pos].
  - rewrite Pos2Z.inj_succ.
    replace (Z.succ (Zpos (digits2_pos m)) - 1) with (Z.succ (Zpos (digits2_pos m) - 1)) by lia.
    rewrite !Z.pow_succ_r by lia. lia.
  - rewrite Pos2Z.inj_succ.
    replace (Z.succ (Zpos (digits2_pos m)) - 1) with (Z.succ (Zpos (digits2_pos m) - 1)) by lia.
    rewrite !Z.pow_succ_r by lia. lia.
  - cbn. lia.
Qed.

Lemma shr_1_m (mrs : shr_record) :
  0 <= shr_m mrs -> shr_m (shr_1 mrs) = shr_m mrs / 2.
Proof.
  destruct mrs as [m r s]. cbn [shr_m shr_1]. intros Hm.
  destruct m as [| [p | p |] | p]; cbn [shr_m]; try lia.
  - reflexivity.
  - rewrite Pos2Z.inj_xI. apply Z.div_unique with 1; lia.
  - rewrite Pos2Z.inj_xO. apply Z.div_unique with 0; lia.
  - reflexivity.
Qed.

Lemma iter_shr_1_m (p : positive) :
  forall mrs : shr_record,
    0 <= shr_m mrs ->
    shr_m (iter_pos shr_1 p mrs) = shr_m mrs / 2 ^ Zpos p.
Proof.
  induction p as [p IH | p IH |]; intros mrs Hm; cbn [iter_pos].
  - assert (H1 : 0 <= shr_m (shr_1 mrs)) by (rewrite shr_1_m by lia; apply Z.div_pos; lia).
    assert (H2 : 0 <= shr_m (iter_pos shr_1 p (shr_1 mrs)))
      by (rewrite IH by lia; apply Z.div_pos; [lia | apply Z.pow_pos_nonneg; lia]).
    rewrite IH by lia. rewrite IH by lia. rewrite shr_1_m by lia.
    rewrite !Z.div_div by (try apply Z.pow_pos_nonneg; lia).
    f_equal.
    replace (Zpos p~1) with (1 + Zpos p + Zpos p) by lia.
    rewrite !Z.pow_add_r by lia. rewrite Z.pow_1_r. lia.
  - assert (H2 : 0 <= shr_m (iter_pos shr_1 p mrs))
      by (rewrite IH by lia; apply Z.div_pos; [lia | apply Z.pow_pos_nonneg; lia]).
    rewrite IH by lia. rewrite IH by lia.
    rewrite !Z.div_div by (try apply Z.pow_pos_nonneg; lia).
    f_equal.
    replace (Zpos p~0) with (Zpos p + Zpos p) by lia.
    rewrite !Z.pow_add_r by lia. lia.
  - rewrite shr_1_m by lia. reflexivity.
Qed.

Lemma shr_record_of_loc_m (m : Z) (l : location) : shr_m (shr_record_of_loc m l) = m.
Proof. destruct l as [| []]; reflexivity. Qed.

Lemma shr_fexp_pos (m : positive) (e : Z) (l : location) :
  SpecFloat.emin prec emax <= e ->
  exists (mrs : shr_record) (e' : Z),
    shr_fexp prec emax (Zpos m) e l = (mrs, e')
    /\ 0 < shr_m mrs /\ SpecFloat.emin prec emax <= e'.
Proof.
  intros He. unfold shr_fexp, shr.
  pose proof (digits2_pos_bound m) as [Hlo _].
  cbn [Zdigits2].
  destruct (fexp prec emax (Zpos (digits2_pos m) + e) - e) as [| p | p] eqn:En.
  - eexists _, _. split; [reflexivity |]. rewrite shr_record_of_loc_m. lia.
  - eexists _, _. split; [reflexivity |].
    rewrite iter_shr_1_m by (rewrite shr_record_of_loc_m; lia).
    rewrite shr_record_of_loc_m. split; [| lia].
    apply Z.div_str_pos. split; [apply Z.pow_pos_nonneg; lia |].
    etransitivity; [| exact Hlo].
    apply Z.pow_le_mono_r; [lia |].
    unfold fexp, SpecFloat.emin, prec, emax in *. lia.
  - eexists _, _. split; [reflexivity |]. rewrite shr_record_of_loc_m. lia.
Qed.

Lemma round_nearest_even_pos (mx : Z) (lx : location) :
  0 < mx -> 0 < round_nearest_even mx lx.
Proof.
  intros Hm. destruct lx as [| []]; cbn; try destruct (Z.even mx); lia.
Qed.

Lemma binary_round_aux_sign (s : bool) (m : positive) (e : Z) (l : location) :
  SpecFloat.emin prec emax <= e ->
  (exists m' e', binary_round_aux prec emax s (Zpos m) e l = S754_finite s m' e')
  \/ binary_round_aux prec emax s (Zpos m) e l = S754_infinity s.
Proof.
  intros He. unfold binary_round_aux.
  destruct (shr_fexp_pos m e l He) as (m1 & e1 & -> & Hm1 & He1).
  pose proof (round_nearest_even_pos (shr_m m1) (loc_of_shr_record m1) Hm1) as Hr.
  destruct (round_nearest_even (shr_m m1) (loc_of_shr_record m1)) as [| p2 | p2];
    try lia.
  destruct (shr_fexp_pos p2 e1 loc_Exact He1) as (m2 & e2 & -> & Hm2 & He2).
  destruct (shr_m m2) as [| p3 | p3]; try lia.
  destruct (e2 <=? emax - prec); [left; eauto | now right].
Qed.

Lemma binary_round_sign (s : bool) (m : positive) (e : Z) :
  SpecFloat.emin prec emax <= e ->
  (exists m' e', binary_round prec emax s m e = S754_finite s m' e')
  \/ binary_round prec emax s m e = S754_infinity s.
Proof.
  intros He. unfold binary_round.
  destruct (shl_align m e (fexp prec emax (Zpos (digits2_pos m) + e)))
    as [mz ez] eqn:Ea.
  apply binary_round_aux_sign.
  unfold shl_align in Ea.
  destruct (fexp prec emax (Zpos (digits2_pos m) + e) - e) eqn:En;
    inversion Ea; subst; try lia.
  unfold fexp. lia.
Qed.

Lemma iter_xO (d m : positive) : Zpos (Pos.iter xO m d) = Zpos m * 2 ^ Zpos d.
Proof.
  induction d as [| d IH] using Pos.peano_ind.
  - cbn. lia.
  - rewrite Pos.iter_succ, Pos2Z.inj_xO, IH, Pos2Z.inj_succ, Z.pow_succ_r by lia. lia.
Qed.

Lemma shl_align_value (mx : positive) (ex ez : Z) :
  ez <= ex -> Zpos (fst (shl_align mx ex ez)) = Zpos mx * 2 ^ (ex - ez).
Proof.
  intros Hle. unfold shl_align.
  destruct (ez - ex) as [| d | d] eqn:Ed; cbn [fst].
  - replace (ex - ez) with 0 by lia. lia.
  - lia.
  - rewrite iter_xO. f_equal. f_equal. lia.
Qed.

Lemma bounded_exponent (m : positive) (e : Z) :
  bounded prec emax m e = true ->
  SpecFloat.emin prec emax <= e
  /\ Zpos (digits2_pos m) <= prec
  /\ (SpecFloat.emin prec emax < e -> Zpos (digits2_pos m) = prec).
Proof.
  unfold bounded, canonical_mantissa, fexp, SpecFloat.emin, prec, emax.
  intros Hb. apply andb_prop in Hb as [Hc _]. apply Z.eqb_eq in Hc. lia.
Qed.

Lemma bounded_lt (mx my : positive) (ex ey : Z) :
  bounded prec emax mx ex = true -> bounded prec emax my ey = true ->
  ex < ey -> Zpos mx < Zpos my * 2 ^ (ey - ex).
Proof.
  intros Hx Hy Hlt.
  destruct (bounded_exponent mx ex Hx) as (Hex & Hdx & _).
  destruct (bounded_exponent my ey Hy) as (_ & _ & Hdy).
  specialize (Hdy ltac:(lia)).
  pose proof (digits2_pos_bound mx) as [_ Hmx].
  pose proof (digits2_pos_bound my) as [Hmy _].
  rewrite Hdy in Hmy.
  assert (H1 : 2 ^ Zpos (digits2_pos mx) <= 2 ^ prec)
    by (apply Z.pow_le_mono_r; lia).
  assert (H2 : 2 ^ 1 <= 2 ^ (ey - ex)) by (apply Z.pow_le_mono_r; lia).
  assert (H3 : 2 ^ prec = 2 ^ (prec - 1) * 2 ^ 1) by reflexivity.
  assert (H4 : 2 ^ (prec - 1) * 2 ^ 1 <= Zpos my * 2 ^ (ey - ex))
    by (apply Z.mul_le_mono_nonneg; lia).
  lia.
Qed.

Lemma SFcompare_aligned (sx sy : bool) (mx my : positive) (ex ey : Z) :
  bounded prec emax mx ex = true -> bounded prec emax my ey = true ->
  SFcompare (S754_finite sx mx ex) (S754_finite sy my ey)
  = Some (cond_Zopp sx (Zpos (fst (shl_align mx ex (Z.min ex ey))))
          ?= cond_Zopp sy (Zpos (fst (shl_align my ey (Z.min ex ey))))).
Proof.
  intros Hx Hy. rewrite !shl_align_value by lia.
  assert (Hpx : 0 < Zpos mx * 2 ^ (ex - Z.min ex ey))
    by (apply Z.mul_pos_pos; [lia | apply Z.pow_pos_nonneg; lia]).
  assert (Hpy : 0 < Zpos my * 2 ^ (ey - Z.min ex ey))
    by (apply Z.mul_pos_pos; [lia | apply Z.pow_pos_nonneg; lia]).
  assert (Hcmp : (match ex ?= ey with
                  | Eq => Pos.compare_cont Eq mx my
                  | Lt => Lt
                  | Gt => Gt
                  end)
                 = (Zpos mx * 2 ^ (ex - Z.min ex ey)
                    ?= Zpos my * 2 ^ (ey - Z.min ex ey))).
  { destruct (Z.compare_spec ex ey) as [He | He | He].
    - subst ey. rewrite Z.min_id, Z.sub_diag, Z.pow_0_r, !Z.mul_1_r. reflexivity.
    - rewrite Z.min_l, Z.sub_diag, Z.pow_0_r, Z.mul_1_r by lia.
      symmetry. apply Z.compare_lt_iff. now apply bounded_lt.
    - rewrite Z.min_r, Z.sub_diag, Z.pow_0_r, Z.mul_1_r by lia.
      symmetry. apply Z.compare_gt_iff. now apply bounded_lt. }
  cbn [SFcompare]. destruct sx, sy; cbn [cond_Zopp]; f_equal.
  - rewrite Z.compare_opp. clear Hcmp.
    destruct (Z.compare_spec ex ey) as [He | He | He].
    + subst ey. rewrite Z.min_id, Z.sub_diag, Z.pow_0_r, !Z.mul_1_r.
      symmetry. apply (Pos.compare_antisym mx my).
    + rewrite Z.min_l, Z.sub_diag, Z.pow_0_r, Z.mul_1_r by lia.
      symmetry. apply Z.compare_gt_iff. now apply bounded_lt.
    + rewrite Z.min_r, Z.sub_diag, Z.pow_0_r, Z.mul_1_r by lia.
      symmetry. apply Z.compare_lt_iff. now apply bounded_lt.
  - symmetry. apply Z.compare_lt_iff. lia.
  - symmetry. apply Z.compare_gt_iff. lia.
  - exact Hcmp.
Qed.

Lemma SFsub_sign (x y : spec_float) :
  valid_binary x = true -> valid_binary y = true ->
  (exists s, y = S754_zero s) \/ (exists s m e, y = S754_finite s m e) ->
  SFleb (S754_zero false) (SF64sub x y) = SFleb y x.
Proof.
  intros Hx Hy Hfin. unfold SF64sub, SFleb.
  destruct Hfin as [[sy ->] | (sy & my & ey & ->)].
  - destruct x as [sx | sx | | sx mx ex]; cbn; try reflexivity;
      try (now destruct sx, sy); now destruct sx.
  - destruct x as [sx | sx | | sx mx ex]; try (cbn; now destruct sx, sy).
    + reflexivity.
    + cbn [valid_binary] in Hx, Hy.
      rewrite (SFcompare_aligned sy sx my mx ey ex Hy Hx).
      cbn [SFsub]. rewrite (Z.min_comm ey ex).
      set (X := cond_Zopp sx (Zpos (fst (shl_align mx ex (Z.min ex ey))))).
      set (Y := cond_Zopp sy (Zpos (fst (shl_align my ey (Z.min ex ey))))).
      assert (Hez : SpecFloat.emin prec emax <= Z.min ex ey).
      { pose proof (bounded_exponent mx ex Hx). pose proof (bounded_exponent my ey Hy).
        lia. }
      unfold binary_normalize.
      destruct (X - Y) as [| d | d] eqn:Ed.
      * replace (Y ?= X) with Eq by (symmetry; apply Z.compare_eq_iff; lia).
        reflexivity.
      * replace (Y ?= X) with Lt by (symmetry; apply Z.compare_lt_iff; lia).
        destruct (binary_round_sign false d _ Hez) as [(m' & e' & ->) | ->];
          reflexivity.
      * replace (Y ?= X) with Gt by (symmetry; apply Z.compare_gt_iff; lia).
        destruct (binary_round_sign true d _ Hez) as [(m' & e' & ->) | ->];
          reflexivity.
Qed.

End SignOfDifference.

(** For a finite [y], the difference [x - y] is [>= 0] exactly when
    [x >= y]: the rounding of a difference keeps its sign, a difference
    that is zero is exact, and an infinite or NaN [x] gives the same answer
    on both sides. *)
Lemma leb_sub_sign (x y : float) :
  finite y -> (0 <=? x - y)%float = (y <=? x)%float.
Proof.
  intros Hy. rewrite !leb_spec, sub_spec, zero_SF.
  apply SFsub_sign; try apply Prim2SF_valid.
  exact (finite_cases y Hy).
Qed.

(** ** Training mode and evaluation mode *)

Section TrainingAndEvaluation.
Import BaseNode.
Local Open Scope float_scope.

Lemma heaviside_sub (v v_threshold : float) :
  finite v_threshold -> heaviside (v - v_threshold) = of_bool (v >=? v_threshold)%sc.
Proof.
  intros Hf. unfold heaviside. cbn [s_ge Float64 s_zero].
  now rewrite leb_sub_sign.
Qed.

Lemma run_body_ext {F : Type}
    (body body' : tensor F -> tensor F -> tensor F * tensor F) :
  (forall x v, body x v = body' x v) ->
  forall (x_seq : list (tensor F)) (v0 : tensor F),
    run_body body x_seq v0 = run_body body' x_seq v0.
Proof.
  intros Hb x_seq. induction x_seq as [| x x_seq IH]; intros v0; [reflexivity |].
  cbn [run_body]. rewrite Hb. destruct (body' x v0) as [spike v1]. now rewrite IH.
Qed.

(** The fire and the reset of the training step are those of the
    evaluation step. *)
Lemma fire_and_reset_modes (c : config float) (h : tensor float) :
  finite (v_threshold c) ->
  (forall a, surrogate_function c a = heaviside a) ->
  let spike := map (fun v => of_bool (v >=? v_threshold c)%sc) h in
  neuronal_fire c h = spike
  /\ neuronal_reset c h spike
     = match v_reset c with
       | None => map2 (fun v spike => v - spike * v_threshold c) h spike
       | Some r => map2 (fun spike v => r * spike + (1 - spike) * v) spike h
       end.
Proof.
  intros Hf Hsg spike. split.
  - unfold neuronal_fire, spike. apply map_ext. intros a.
    rewrite Hsg. now apply heaviside_sub.
  - unfold neuronal_reset. destruct (v_reset c) as [r |]; [| reflexivity].
    unfold jit_hard_reset. rewrite <- (map2_swap _ spike h). apply map2_ext.
    intros a b. change ((1 - b) * a + b * r = r * b + (1 - b) * a).
    now rewrite add_comm, (mul_comm b r).
Qed.

Lemma if_step_modes (c : config float) :
  finite (v_threshold c) ->
  (forall a, surrogate_function c a = heaviside a) ->
  forall x v : tensor float,
    if_step (set_training c true) x v = if_step (set_training c false) x v.
Proof.
  intros Hf Hsg x v. unfold if_step, step_of.
  cbn [set_training training v_reset v_threshold IFNode.methods_of
       m_neuronal_charge m_neuronal_fire m_neuronal_reset].
  destruct (fire_and_reset_modes (set_training c true) (IFNode.neuronal_charge v x)
              Hf Hsg) as [Hfire Hreset].
  rewrite Hfire, Hreset. cbn [set_training v_reset v_threshold].
  now destruct (v_reset c).
Qed.

Lemma lif_step_modes (c : LIFNode.config float) :
  finite (v_threshold (LIFNode.base c)) ->
  (forall a, surrogate_function (LIFNode.base c) a = heaviside a) ->
  match v_reset (LIFNode.base c) with
  | None => True
  | Some r => (r =? 0)%float = false \/ (r = 0 /\ LIFNode.decay_input c = true)
  end ->
  forall x v : tensor float,
    lif_step (lif_in_mode c true) x v = lif_step (lif_in_mode c false) x v.
Proof.
  intros Hf Hsg Hr x v. unfold lif_step, step_of, LIFNode.eval_single_step.
  cbn [lif_in_mode LIFNode.base LIFNode.tau LIFNode.decay_input set_training training
       v_reset v_threshold LIFNode.methods_of
       m_neuronal_charge m_neuronal_fire m_neuronal_reset].
  destruct (fire_and_reset_modes (set_training (LIFNode.base c) true)
              (LIFNode.neuronal_charge (lif_in_mode c true) v x) Hf Hsg)
    as [Hfire Hreset].
  rewrite Hfire, Hreset. cbn [set_training v_reset v_threshold].
  unfold LIFNode.neuronal_charge.
  cbn [lif_in_mode LIFNode.base LIFNode.tau LIFNode.decay_input set_training v_reset].
  destruct (v_reset (LIFNode.base c)) as [r |].
  - destruct Hr as [Hr | [-> Hd]].
    + change (r ==? s_zero)%sc with (r =? 0)%float. rewrite Hr.
      now destruct (LIFNode.decay_input c).
    + rewrite Hd. change (0 ==? s_zero)%sc with true. cbv iota.
      rewrite decay_input_reset0_bits. reflexivity.
  - now destruct (LIFNode.decay_input c).
Qed.

(** With a surrogate function whose forward pass is the step function
    [x >= 0] and a finite threshold, the training-mode forward of an
    [IFNode] on the torch backend and its evaluation-mode forward return the
    same spikes and leave the same state, bit for bit: a single-step call,
    and a multi-step call on [T >= 1] inputs.  The same holds for a
    [LIFNode] under soft reset, under a hard reset to a [v_reset] that is
    not zero, and under [v_reset = 0.] with [decay_input]. *)
Theorem training_forward_is_evaluation_forward :
  (forall (c : config float) (s : state float) (x : tensor float)
          (x_seq : list (tensor float)),
      backend c = "torch"%string ->
      finite (v_threshold c) ->
      (forall a, surrogate_function c a = heaviside a) ->
      IFNode.single_step_forward (set_training c true) s x
      = IFNode.single_step_forward (set_training c false) s x
      /\ IFNode.multi_step_forward (set_training c true) s (x :: x_seq)
         = IFNode.multi_step_forward (set_training c false) s (x :: x_seq))
  /\
  (forall (c : LIFNode.config float) (s : state float) (x : tensor float)
          (x_seq : list (tensor float)),
      backend (LIFNode.base c) = "torch"%string ->
      finite (v_threshold (LIFNode.base c)) ->
      (forall a, surrogate_function (LIFNode.base c) a = heaviside a) ->
      match v_reset (LIFNode.base c) with
      | None => True
      | Some r => (r =? 0)%float = false \/ (r = 0 /\ LIFNode.decay_input c = true)
      end ->
      LIFNode.single_step_forward (lif_in_mode c true) s x
      = LIFNode.single_step_forward (lif_in_mode c false) s x
      /\ LIFNode.multi_step_forward (lif_in_mode c true) s (x :: x_seq)
         = LIFNode.multi_step_forward (lif_in_mode c false) s (x :: x_seq)).
Proof.
  split.
  - intros c s x x_seq Hb Hf Hsg.
    pose proof (if_step_modes c Hf Hsg) as Hstep. split.
    + rewrite (if_single_step_training (set_training c true) eq_refl Hb).
      rewrite (if_single_step_eval (set_training c false) eq_refl).
      pose proof (Hstep x (v_float_to_tensor (v s) x)) as Hx.
      unfold if_step in Hx. cbn [set_training training] in Hx.
      cbn [set_training v_reset v_threshold] in *. now rewrite Hx.
    + rewrite !if_multi_step_run_body by (right; exact Hb).
      now rewrite (run_body_ext _ _ Hstep).
  - intros c s x x_seq Hb Hf Hsg Hr.
    pose proof (lif_step_modes c Hf Hsg Hr) as Hstep. split.
    + rewrite (lif_single_step_training (lif_in_mode c true) eq_refl Hb).
      rewrite (lif_single_step_eval (lif_in_mode c false) eq_refl).
      pose proof (Hstep x (v_float_to_tensor (v s) x)) as Hx.
      unfold lif_step in Hx. cbn [lif_in_mode LIFNode.base set_training training] in Hx.
      now rewrite Hx.
    + rewrite !lif_multi_step_run_body by (right; exact Hb).
      now rewrite (run_body_ext _ _ Hstep).
Qed.

End TrainingAndEvaluation.

(** ** SlidingPSN: the conv backend *)

Lemma weighted_firstn (w : tensor Q) :
  forall X : list (tensor Q), weighted w X = weighted w (firstn (List.length w) X).
Proof.
  induction w as [| a w IH]; intros [| x X]; try reflexivity.
  cbn [List.length firstn].
  change (weighted (a :: w) (x :: X))
    with (map (fun b => (a * b)%sc) x :: weighted w X).
  change (weighted (a :: w) (x :: firstn (List.length w) X))
    with (map (fun b => (a * b)%sc) x :: weighted w (firstn (List.length w) X)).
  now rewrite <- IH.
Qed.

Lemma total_zero_rows (r : tensor Q) (n : nat) (w : tensor Q) :
  forall m : nat, (total (weighted w (repeat (zeros_like r) m)) n == 0)%Q.
Proof.
  induction w as [| a w IH]; intros [| m]; try reflexivity.
  change (total (weighted (a :: w) (repeat (zeros_like r) (S m))) n)
    with (nth n (map (fun b => (a * b)%sc) (zeros_like r)) 0
          + total (weighted w (repeat (zeros_like r) m)) n)%Q.
  rewrite IH.
  assert (Hz : (nth n (map (fun b => (a * b)%sc) (zeros_like r)) 0 == 0)%Q).
  { unfold zeros_like, full_like. rewrite map_map.
    destruct (Nat.lt_ge_cases n (List.length r)) as [Hn | Hn].
    - rewrite (nth_map_in _ _ 0%Q 0%Q) by exact Hn. cbn [s_mul s_zero Exact]. ring.
    - rewrite nth_overflow by (now rewrite length_map). reflexivity. }
  rewrite Hz. ring.
Qed.

Lemma Forall2_Qeq_sym (l l' : tensor Q) : Forall2 Qeq l l' -> Forall2 Qeq l' l.
Proof. induction 1; constructor; [now symmetry | assumption]. Qed.

Lemma Forall2_Qeq_trans (l l' l'' : tensor Q) :
  Forall2 Qeq l l' -> Forall2 Qeq l' l'' -> Forall2 Qeq l l''.
Proof.
  intros H. revert l''. induction H as [| a b l l' Hab H IH]; intros l'' H';
    inversion H'; subst; constructor.
  - etransitivity; eassumption.
  - now apply IH.
Qed.

Section SlidingPSNConv.
Local Open Scope Q_scope.
Variable c : SlidingPSN.config Q.
Hypothesis order : (1 <= SlidingPSN.k c)%nat.
Hypothesis weight_shape : List.length (SlidingPSN.weight c) = SlidingPSN.k c.
Hypothesis surrogate_proper :
  forall a b : Q,
    a == b -> SlidingPSN.surrogate_function c a == SlidingPSN.surrogate_function c b.

(** The [k] rows of the padded input that the kernel meets at step [t]:
    zeros, then the window of the single-step queue. *)
Lemma padded_window (z : tensor Q) (x_seq : list (tensor Q)) (t : nat) :
  (t < List.length x_seq)%nat ->
  let len := Nat.min (t + 1) (SlidingPSN.k c) in
  firstn (SlidingPSN.k c) (skipn t (repeat z (SlidingPSN.k c - 1) ++ x_seq))
  = repeat z (SlidingPSN.k c - len)
    ++ lastn (SlidingPSN.k c) (firstn (S t) x_seq).
Proof.
  intros Ht len.
  assert (Hf : List.length (firstn (S t) x_seq) = S t)
    by (rewrite length_firstn; lia).
  rewrite skipn_app, skipn_repeat, repeat_length, firstn_app, repeat_length.
  destruct (Nat.le_gt_cases (t + 1) (SlidingPSN.k c)) as [Hle | Hgt].
  - rewrite lastn_all by lia.
    rewrite firstn_all2 by (rewrite repeat_length; lia).
    replace (t - (SlidingPSN.k c - 1))%nat with 0%nat by lia. cbn [skipn].
    f_equal; [f_equal; unfold len; lia | f_equal; lia].
  - replace (SlidingPSN.k c - 1 - t)%nat with 0%nat by lia.
    replace (SlidingPSN.k c - len)%nat with 0%nat by (unfold len; lia).
    cbn [repeat]. rewrite firstn_nil. cbn [app List.length]. rewrite Nat.sub_0_r.
    unfold lastn. rewrite Hf, firstn_skipn_comm. f_equal; [lia |]. f_equal. lia.
Qed.

Lemma conv_row_is_single_step (N : nat) (x_seq : list (tensor Q)) (t : nat) :
  Forall (fun row => List.length row = N) x_seq ->
  (t < List.length x_seq)%nat ->
  Forall2 Qeq
    (map (fun h => SlidingPSN.surrogate_function c (h + SlidingPSN.bias c)%sc)
       (sum0 (weighted (SlidingPSN.weight c)
                (skipn t (repeat (zeros_like (hd [] x_seq)) (SlidingPSN.k c - 1)
                          ++ x_seq)))))
    (sliding_output c (lastn (SlidingPSN.k c) (firstn (S t) x_seq))).
Proof.
  intros Hlen Ht.
  destruct (window_decomposition c order weight_shape x_seq t Ht) as (Hx & Hw & _ & _).
  set (len := Nat.min (t + 1) (SlidingPSN.k c)) in *.
  set (window := lastn (SlidingPSN.k c) (firstn (S t) x_seq)) in *.
  set (z := zeros_like (hd [] x_seq)).
  assert (Hz : List.length z = N).
  { unfold z, zeros_like, full_like. rewrite length_map.
    destruct x_seq as [| x x_seq]; [cbn in Ht; lia |].
    now inversion Hlen. }
  assert (Hwin : Forall (fun row => List.length row = N) window).
  { rewrite Hx in Hlen. apply Forall_app in Hlen as [_ Hlen].
    now apply Forall_app in Hlen as [Hlen _]. }
  unfold sliding_output. rewrite Hw. fold len.
  change (map2 (fun w x_t => map (fun a => (w * a)%sc) x_t)
            (slice (SlidingPSN.weight c) (SlidingPSN.k c - len) (SlidingPSN.k c))
            window)
    with (weighted (slice (SlidingPSN.weight c) (SlidingPSN.k c - len)
                      (SlidingPSN.k c)) window).
  set (ws := slice (SlidingPSN.weight c) (SlidingPSN.k c - len) (SlidingPSN.k c)).
  assert (Hs : List.length ws = len).
  { unfold ws. rewrite length_slice; unfold len; lia. }
  assert (Hsplit : SlidingPSN.weight c
                   = firstn (SlidingPSN.k c - len) (SlidingPSN.weight c) ++ ws).
  { unfold ws, slice.
    rewrite (firstn_all2 (n := (SlidingPSN.k c - (SlidingPSN.k c - len))%nat))
      by (rewrite length_skipn; lia).
    now rewrite firstn_skipn. }
  assert (Hrows : weighted (SlidingPSN.weight c)
                    (skipn t (repeat z (SlidingPSN.k c - 1) ++ x_seq))
                  = weighted (firstn (SlidingPSN.k c - len) (SlidingPSN.weight c))
                      (repeat z (SlidingPSN.k c - len))
                    ++ weighted ws window).
  { rewrite weighted_firstn, weight_shape, (padded_window z x_seq t Ht).
    fold len window. rewrite Hsplit at 1.
    apply weighted_app. rewrite length_firstn, repeat_length. lia. }
  assert (HrowsN : Forall (fun row => List.length row = N)
                     (weighted (firstn (SlidingPSN.k c - len) (SlidingPSN.weight c))
                        (repeat z (SlidingPSN.k c - len))
                      ++ weighted ws window)).
  { apply Forall_app. split; apply length_weighted_rows; [| exact Hwin].
    apply Forall_forall. intros row Hin. apply repeat_spec in Hin. now subst. }
  assert (HrowsW : Forall (fun row => List.length row = N) (weighted ws window))
    by (now apply length_weighted_rows).
  assert (Hsum : Forall2 Qeq
                   (sum0 (weighted (SlidingPSN.weight c)
                            (skipn t (repeat z (SlidingPSN.k c - 1) ++ x_seq))))
                   (sum0 (weighted ws window))).
  { rewrite Hrows.
    destruct (weighted ws window) as [| q wq] eqn:EQ.
    { apply (f_equal (@List.length _)) in EQ. unfold weighted in EQ.
      rewrite map2_length in EQ by (rewrite Hs; symmetry; exact Hw).
      cbn in EQ. unfold len in *. lia. }
    destruct (weighted (firstn (SlidingPSN.k c - len) (SlidingPSN.weight c))
                (repeat z (SlidingPSN.k c - len)) ++ q :: wq)
      as [| r rows] eqn:ER.
    { destruct (weighted (firstn (SlidingPSN.k c - len) (SlidingPSN.weight c))
                  (repeat z (SlidingPSN.k c - len))); discriminate ER. }
    destruct (sum0_total N 0 rows r HrowsN) as [Hl _].
    destruct (sum0_total N 0 wq q HrowsW) as [HlQ _].
    apply Forall2_Qeq_nth; [congruence |].
    intros n Hn. rewrite Hl in Hn.
    rewrite (proj2 (sum0_total N n rows r HrowsN) Hn).
    rewrite (proj2 (sum0_total N n wq q HrowsW) Hn).
    rewrite <- ER, total_app. unfold z. rewrite total_zero_rows. ring. }
  induction Hsum as [| a b l l' Hab Hsum IH]; cbn [map]; constructor.
  - apply surrogate_proper. cbn [s_add Exact]. now rewrite Hab.
  - exact IH.
Qed.

End SlidingPSNConv.

(** In exact arithmetic the two backends of a [SlidingPSN] agree: with an
    order [k >= 1] and a weight of [k] elements, a multi-step call on
    [T >= 1] inputs of one shape returns the same rows on the gemm backend
    (a banded [T x T] matrix product) and on the conv backend (a padded
    correlation with the weight).  Any other backend raises
    [NotImplementedError].  The surrogate function is any function of the
    rationals. *)
Theorem sliding_psn_backends_agree :
  forall (c : SlidingPSN.config Q) (x : tensor Q) (x_seq : list (tensor Q)) (N : nat),
    (1 <= SlidingPSN.k c)%nat ->
    List.length (SlidingPSN.weight c) = SlidingPSN.k c ->
    (forall a b : Q,
        (a == b)%Q ->
        (SlidingPSN.surrogate_function c a == SlidingPSN.surrogate_function c b)%Q) ->
    Forall (fun row => List.length row = N) (x :: x_seq) ->
    (exists (y_gemm y_conv : list (tensor Q)),
        SlidingPSN.multi_step_forward (sliding_psn_on c "gemm") (x :: x_seq)
        = Ok y_gemm
        /\ SlidingPSN.multi_step_forward (sliding_psn_on c "conv") (x :: x_seq)
           = Ok y_conv
        /\ Forall2 (Forall2 Qeq) y_gemm y_conv)
    /\ (forall backend : string,
           backend <> "gemm"%string -> backend <> "conv"%string ->
           SlidingPSN.multi_step_forward (sliding_psn_on c backend) (x :: x_seq)
           = Raise (NotImplementedError backend)).
Proof.
  intros c x x_seq N Hk Hw Hsg Hlen. split.
  - rewrite (gemm_multi_step (sliding_psn_on c "gemm") Hw (x :: x_seq) eq_refl).
    unfold SlidingPSN.multi_step_forward at 1.
    cbn [sliding_psn_on SlidingPSN.backend String.eqb Ascii.eqb Bool.eqb].
    unfold SlidingPSN.pad_conv1d.
    cbn [sliding_psn_on SlidingPSN.k SlidingPSN.weight SlidingPSN.bias
         SlidingPSN.surrogate_function].
    replace (Nat.eqb (SlidingPSN.k c) 0) with false
      by (symmetry; apply Nat.eqb_neq; lia).
    cbn [List.length Nat.eqb orb bind].
    eexists _, _. split; [reflexivity | split; [reflexivity |]].
    rewrite map_map. apply Forall2_map_seq. intros t Ht.
    assert (Hlt : (t < List.length (x :: x_seq))%nat) by (cbn [List.length]; lia).
    apply Forall2_Qeq_trans
      with (sliding_output c (lastn (SlidingPSN.k c) (firstn (S t) (x :: x_seq)))).
    + exact (gemm_row_is_single_step (sliding_psn_on c "gemm") Hk Hw Hsg N
               (x :: x_seq) t Hlen Hlt).
    + apply Forall2_Qeq_sym.
      exact (conv_row_is_single_step c Hk Hw Hsg N (x :: x_seq) t Hlen Hlt).
  - intros backend Hg Hc. unfold SlidingPSN.multi_step_forward.
    cbn [sliding_psn_on SlidingPSN.backend].
    destruct (String.eqb_spec backend "gemm"); [contradiction |].
    destruct (String.eqb_spec backend "conv"); [contradiction |].
    reflexivity.
Qed.

(** ** MaskedPSN *)

Lemma length_mapi {A B : Type} (f : nat -> A -> B) (l : list A) :
  List.length (mapi f l) = List.length l.
Proof.
  unfold mapi. rewrite length_map, length_combine, length_seq. lia.
Qed.

Lemma nth_mapi {A B : Type} (f : nat -> A -> B) (l : list A) (a : A) (b : B)
    (i : nat) :
  (i < List.length l)%nat -> nth i (mapi f l) b = f i (nth i l a).
Proof.
  intros Hi. unfold mapi.
  rewrite (nth_map_in _ _ (0%nat, a))
    by (rewrite length_combine, length_seq; lia).
  rewrite combine_nth by (now rewrite length_seq).
  now rewrite seq_nth.
Qed.

Lemma length_map3 {A B C D : Type} (f : A -> B -> C -> D)
    (l : list A) (l' : list B) (l'' : list C) :
  List.length l = List.length l'' -> List.length l' = List.length l'' ->
  List.length (map3 f l l' l'') = List.length l''.
Proof.
  revert l' l''. induction l as [| a l IH]; intros [| b l'] [| c l''] H1 H2;
    cbn in *; try reflexivity; try discriminate.
  f_equal. apply IH; lia.
Qed.

Lemma nth_map3 {A B C D : Type} (f : A -> B -> C -> D)
    (l : list A) (l' : list B) (l'' : list C) (a : A) (b : B) (c : C) (d : D) :
  forall i : nat,
    (i < List.length l'')%nat ->
    List.length l = List.length l'' -> List.length l' = List.length l'' ->
    nth i (map3 f l l' l'') d = f (nth i l a) (nth i l' b) (nth i l'' c).
Proof.
  revert l' l''. induction l as [| u l IH]; intros [| u' l'] [| u'' l''] i Hi H1 H2;
    cbn in *; try lia; try discriminate.
  destruct i as [| i]; [reflexivity |].
  apply IH; lia.
Qed.

Lemma square_row {F : Type} (T : nat) (m : list (tensor F)) (i : nat) :
  square T m -> (i < T)%nat -> List.length (nth i m []) = T.
Proof.
  intros [Hl Hrows] Hi. rewrite Forall_forall in Hrows.
  apply Hrows. apply nth_In. lia.
Qed.

Ltac index_below Hi Hl := exact (eq_ind_r (fun n => (_ < n)%nat) Hi Hl).

Lemma nth_mapi_rows {A B : Type} (g : nat -> nat -> A -> B) (m : list (list A))
    (i : nat) :
  (i < List.length m)%nat ->
  nth i (mapi (fun i row => mapi (g i) row) m) [] = mapi (g i) (nth i m []).
Proof. intros Hi. now rewrite (nth_mapi _ _ []). Qed.

Lemma nth_mapi_entry {A B : Type} (g : nat -> nat -> A -> B) (m : list (list A))
    (i j : nat) (a : A) (b : B) :
  (i < List.length m)%nat -> (j < List.length (nth i m []))%nat ->
  nth j (nth i (mapi (fun i row => mapi (g i) row) m) []) b
  = g i j (nth j (nth i m []) a).
Proof.
  intros Hi Hj. rewrite nth_mapi_rows by exact Hi. now apply nth_mapi.
Qed.

Lemma nth_map2_rows {A B C : Type} (f : A -> B -> C) (m : list (list A))
    (m' : list (list B)) (i : nat) :
  (i < List.length m)%nat -> List.length m' = List.length m ->
  nth i (map2 (map2 f) m m') [] = map2 f (nth i m []) (nth i m' []).
Proof. intros Hi Hl. now apply nth_map2. Qed.

Lemma nth_map2_entry {A B C : Type} (f : A -> B -> C) (m : list (list A))
    (m' : list (list B)) (i j : nat) (a : A) (b : B) (c : C) :
  (i < List.length m)%nat -> List.length m' = List.length m ->
  (j < List.length (nth i m []))%nat ->
  List.length (nth i m' []) = List.length (nth i m []) ->
  nth j (nth i (map2 (map2 f) m m') []) c
  = f (nth j (nth i m []) a) (nth j (nth i m' []) b).
Proof.
  intros Hi Hl Hj Hl'. rewrite nth_map2_rows by assumption. now apply nth_map2.
Qed.

(** Matrices of [T] rows of [T] entries stay so under [mapi] and [map2]. *)
Lemma square_mapi {A B : Type} (g : nat -> nat -> A -> B) (T : nat)
    (m : list (list A)) :
  List.length m = T /\ Forall (fun row => List.length row = T) m ->
  List.length (mapi (fun i row => mapi (g i) row) m) = T
  /\ Forall (fun row => List.length row = T)
       (mapi (fun i row => mapi (g i) row) m).
Proof.
  intros [Hl Hrows]. split; [now rewrite length_mapi |].
  apply Forall_forall. intros row Hin.
  destruct (In_nth _ _ [] Hin) as (i & Hi & <-).
  rewrite length_mapi in Hi. rewrite nth_mapi_rows by exact Hi.
  rewrite length_mapi. rewrite Forall_forall in Hrows.
  apply Hrows. now apply nth_In.
Qed.

Lemma square_map2 {A B C : Type} (f : A -> B -> C) (T : nat)
    (m : list (list A)) (m' : list (list B)) :
  List.length m = T /\ Forall (fun row => List.length row = T) m ->
  List.length m' = T /\ Forall (fun row => List.length row = T) m' ->
  List.length (map2 (map2 f) m m') = T
  /\ Forall (fun row => List.length row = T) (map2 (map2 f) m m').
Proof.
  intros [Hl Hrows] [Hl' Hrows'].
  assert (Hlen : List.length (map2 (map2 f) m m') = T)
    by (rewrite map2_length; congruence).
  split; [exact Hlen |].
  apply Forall_forall. intros row Hin.
  destruct (In_nth _ _ [] Hin) as (i & Hi & <-).
  rewrite Hlen in Hi. rewrite nth_map2_rows by congruence.
  rewrite Forall_forall in Hrows, Hrows'.
  assert (H1 : List.length (nth i m []) = T) by (apply Hrows, nth_In; lia).
  assert (H2 : List.length (nth i m' []) = T) by (apply Hrows', nth_In; lia).
  rewrite map2_length; congruence.
Qed.

Section MaskedPSNMasks.
Context {F : Type} `{Scalar F}.
Local Open Scope scalar_scope.

Lemma mask1_square (c : MaskedPSN.config F) :
  square (MaskedPSN.T c) (MaskedPSN.mask1 c).
Proof.
  unfold square, MaskedPSN.mask1. rewrite repeat_length. split; [reflexivity |].
  apply Forall_forall. intros row Hin. apply repeat_spec in Hin. subst.
  apply repeat_length.
Qed.

Lemma mask1_entry (c : MaskedPSN.config F) (i j : nat) :
  (i < MaskedPSN.T c)%nat -> (j < MaskedPSN.T c)%nat ->
  nth j (nth i (MaskedPSN.mask1 c) []) s_zero = s_one.
Proof.
  intros Hi Hj. unfold MaskedPSN.mask1.
  rewrite (nth_repeat_lt _ [] Hi). now rewrite (nth_repeat_lt _ s_zero Hj).
Qed.

Lemma mask0_square (c : MaskedPSN.config F) :
  square (MaskedPSN.T c) (MaskedPSN.mask0 c).
Proof.
  apply (square_map2 (fun a b => a * b)).
  - apply (square_mapi (fun i j a => if (j <=? i)%nat then a else s_zero)).
    apply mask1_square.
  - apply (square_mapi
             (fun i j a =>
                if (- (Z.of_nat (MaskedPSN.k c) - 1) <=? Z.of_nat j - Z.of_nat i)%Z
                then a else s_zero)).
    apply mask1_square.
Qed.

(** The entry [(i, j)] of [mask0]: the product of the entries of the lower
    triangle and of the band above the diagonal [-(k - 1)]. *)
Lemma mask0_entry (c : MaskedPSN.config F) (i j : nat) :
  (i < MaskedPSN.T c)%nat -> (j < MaskedPSN.T c)%nat ->
  nth j (nth i (MaskedPSN.mask0 c) []) s_zero
  = (if (j <=? i)%nat then s_one else s_zero)
    * (if (- (Z.of_nat (MaskedPSN.k c) - 1) <=? Z.of_nat j - Z.of_nat i)%Z
       then s_one else s_zero).
Proof.
  intros Hi Hj.
  destruct (mask1_square c) as [Hl Hrows].
  pose proof (square_row _ _ i (mask1_square c) Hi) as Hrow.
  set (lower := fun (i j : nat) (a : F) => if (j <=? i)%nat then a else s_zero).
  set (band := fun (i j : nat) (a : F) =>
                 if (- (Z.of_nat (MaskedPSN.k c) - 1) <=? Z.of_nat j - Z.of_nat i)%Z
                 then a else s_zero).
  destruct (square_mapi lower _ _ (mask1_square c)) as [Htl Htrows].
  destruct (square_mapi band _ _ (mask1_square c)) as [Hul Hurows].
  assert (Hti : List.length
                  (nth i (mapi (fun i row => mapi (lower i) row) (MaskedPSN.mask1 c))
                     []) = MaskedPSN.T c).
  { rewrite Forall_forall in Htrows. apply Htrows, nth_In. now rewrite Htl. }
  assert (Hui : List.length
                  (nth i (mapi (fun i row => mapi (band i) row) (MaskedPSN.mask1 c))
                     []) = MaskedPSN.T c).
  { rewrite Forall_forall in Hurows. apply Hurows, nth_In. now rewrite Hul. }
  etransitivity.
  { apply (nth_map2_entry (fun a b => a * b) _ _ i j s_zero s_zero s_zero).
    - index_below Hi Htl.
    - exact (eq_trans Hul (eq_sym Htl)).
    - index_below Hj Hti.
    - exact (eq_trans Hui (eq_sym Hti)). }
  f_equal.
  - etransitivity.
    { apply (nth_mapi_entry lower _ i j s_zero s_zero);
        [index_below Hi Hl | index_below Hj Hrow]. }
    unfold lower. pose proof (mask1_entry c i j Hi Hj) as E.
    destruct (j <=? i)%nat; [exact E | reflexivity].
  - etransitivity.
    { apply (nth_mapi_entry band _ i j s_zero s_zero);
        [index_below Hi Hl | index_below Hj Hrow]. }
    unfold band. pose proof (mask1_entry c i j Hi Hj) as E.
    destruct (_ <=? _)%Z; [exact E | reflexivity].
Qed.

End MaskedPSNMasks.

Lemma map3_rows_id {A B C : Type} (g : A -> B -> C -> C) (T : nat)
    (m0 : list (list A)) (m1 : list (list B)) (W : list (list C))
    (a : A) (b : B) (c0 : C) :
  List.length m0 = T /\ Forall (fun row => List.length row = T) m0 ->
  List.length m1 = T /\ Forall (fun row => List.length row = T) m1 ->
  List.length W = T /\ Forall (fun row => List.length row = T) W ->
  (forall i j w,
      (i < T)%nat -> (j < T)%nat ->
      g (nth j (nth i m0 []) a) (nth j (nth i m1 []) b) w = w) ->
  map3 (map3 g) m0 m1 W = W.
Proof.
  intros [H0 R0] [H1 R1] [HW RW] Hg.
  rewrite Forall_forall in R0, R1, RW.
  apply (nth_ext _ _ [] []).
  - apply length_map3; congruence.
  - intros i Hi. rewrite length_map3 in Hi by congruence.
    rewrite (nth_map3 _ _ _ _ [] [] []) by congruence.
    assert (L0 : List.length (nth i m0 []) = T) by (apply R0, nth_In; lia).
    assert (L1 : List.length (nth i m1 []) = T) by (apply R1, nth_In; lia).
    assert (LW : List.length (nth i W []) = T) by (apply RW, nth_In; lia).
    apply (nth_ext _ _ c0 c0).
    + apply length_map3; congruence.
    + intros j Hj. rewrite length_map3 in Hj by congruence.
      rewrite (nth_map3 _ _ _ _ a b c0) by congruence.
      apply Hg; lia.
Qed.

Section MaskedPSNWithoutMask.
Local Open Scope float_scope.

Lemma mask0_zero_or_one (c : MaskedPSN.config float) (i j : nat) :
  (i < MaskedPSN.T c)%nat -> (j < MaskedPSN.T c)%nat ->
  zero_or_one (nth j (nth i (MaskedPSN.mask0 c) []) 0).
Proof.
  intros Hi Hj. change 0 with (s_zero (F := float)) at 1.
  rewrite (mask0_entry c i j Hi Hj).
  destruct (j <=? i)%nat, (_ <=? _)%Z; [right | left | left | left]; reflexivity.
Qed.

Lemma unmasked_entry (m0 w : float) :
  zero_or_one m0 -> ((0 * m0 + (1 - 0) * 1) * w = w)%float.
Proof.
  intros [-> | ->].
  - change ((0 * s_zero + (1 - 0) * 1)%float) with 1%float. apply mul_1_l.
  - change ((0 * s_one + (1 - 0) * 1)%float) with 1%float. apply mul_1_l.
Qed.

(** With [lambda_ = 0.] a [MaskedPSN] is a [PSN], bit for bit: the masked
    weight [(lambda_ * mask0 + (1. - lambda_) * mask1) * weight] of a
    [T x T] weight is the weight itself, and a multi-step call on [T]
    inputs returns what [PSN.forward] returns with the same weight, bias
    and surrogate function.  On an input that has not [T] steps the
    [MaskedPSN] raises [AssertionError], the [PSN] [RuntimeError]. *)
Theorem masked_psn_without_mask_is_psn :
  forall (c : MaskedPSN.config float) (x_seq : list (tensor float)),
    MaskedPSN.lambda_ c = 0 ->
    square (MaskedPSN.T c) (MaskedPSN.weight c) ->
    MaskedPSN.masked_weight c = MaskedPSN.weight c
    /\ (List.length x_seq = MaskedPSN.T c ->
        MaskedPSN.multi_step_forward c x_seq = PSN.forward (psn_of c) x_seq)
    /\ (List.length x_seq <> MaskedPSN.T c ->
        MaskedPSN.multi_step_forward c x_seq = Raise AssertionError
        /\ PSN.forward (psn_of c) x_seq = Raise RuntimeError).
Proof.
  intros c x_seq Hlam HW.
  assert (Hmw : MaskedPSN.masked_weight c = MaskedPSN.weight c).
  { unfold MaskedPSN.masked_weight, MaskedPSN.gen_masked_weight. rewrite Hlam.
    change (0 >=? s_one)%sc with false. cbv iota.
    apply (map3_rows_id _ (MaskedPSN.T c) _ _ _ 0 0 0).
    - apply mask0_square.
    - apply mask1_square.
    - exact HW.
    - intros i j w Hi Hj.
      change (nth j (nth i (MaskedPSN.mask1 c) []) 0)
        with (nth j (nth i (MaskedPSN.mask1 c) []) (s_zero (F := float))).
      rewrite (mask1_entry c i j Hi Hj).
      apply (unmasked_entry _ w (mask0_zero_or_one c i j Hi Hj)). }
  split; [exact Hmw | split].
  - intros Hlen. unfold MaskedPSN.multi_step_forward, PSN.forward.
    cbn [psn_of PSN.T PSN.bias PSN.weight PSN.surrogate_function].
    rewrite Hmw, Hlen, Nat.eqb_refl. reflexivity.
  - intros Hlen. unfold MaskedPSN.multi_step_forward, PSN.forward.
    cbn [psn_of PSN.T].
    now rewrite (proj2 (Nat.eqb_neq _ _) Hlen).
Qed.

End MaskedPSNWithoutMask.

Section MaskedPSNCausal.
Local Open Scope Q_scope.

Lemma zero_weight_element (a : Q) (x : tensor Q) (n : nat) :
  a == 0 -> nth n (map (fun b => (a * b)%sc) x) 0 == 0.
Proof.
  intros Ha.
  destruct (Nat.lt_ge_cases n (List.length x)) as [Hn | Hn].
  - rewrite (nth_map_in _ _ 0 0) by exact Hn. cbn [s_mul Exact]. rewrite Ha. ring.
  - rewrite nth_overflow by (now rewrite length_map). reflexivity.
Qed.

(** A weighted sum of rows depends only on the rows whose weight is not
    zero. *)
Lemma total_weighted_agree (n : nat) (row : tensor Q) :
  forall x x' : list (tensor Q),
    List.length x = List.length x' ->
    (forall j, (j < List.length row)%nat -> (j < List.length x)%nat ->
               nth j row 0 == 0 \/ nth j x [] = nth j x' []) ->
    total (weighted row x) n == total (weighted row x') n.
Proof.
  induction row as [| a row IH]; intros [| x0 x] [| x0' x'] Hl Hj;
    try discriminate Hl; try reflexivity.
  change (total (weighted (a :: row) (x0 :: x)) n)
    with (nth n (map (fun b => (a * b)%sc) x0) 0 + total (weighted row x) n).
  change (total (weighted (a :: row) (x0' :: x')) n)
    with (nth n (map (fun b => (a * b)%sc) x0') 0 + total (weighted row x') n).
  rewrite (IH x x').
  - destruct (Hj 0%nat) as [Ha | Hx]; cbn [List.length]; try lia.
    + cbn [nth] in Ha. now rewrite !zero_weight_element.
    + cbn [nth] in Hx. now subst.
  - cbn in Hl. lia.
  - intros j Hr Hx. apply (Hj (S j)); cbn [List.length]; lia.
Qed.

Lemma weighted_nonempty (T : nat) (w : tensor Q) (X : list (tensor Q)) :
  List.length w = T -> List.length X = T -> (0 < T)%nat ->
  exists (r : tensor Q) (rows : list (tensor Q)), weighted w X = r :: rows.
Proof.
  intros Hw HX HT. destruct w as [| a w], X as [| x X]; cbn in *; try lia.
  eexists _, _. reflexivity.
Qed.

(** With [lambda_ >= 1] the entries of the masked weight outside the band
    [j <= i < j + k] are zero. *)
Lemma masked_weight_outside_band (c : MaskedPSN.config Q) (i j : nat) :
  1 <= MaskedPSN.lambda_ c ->
  square (MaskedPSN.T c) (MaskedPSN.weight c) ->
  (i < MaskedPSN.T c)%nat -> (j < MaskedPSN.T c)%nat ->
  ~ (j <= i /\ i < j + MaskedPSN.k c)%nat ->
  nth j (nth i (MaskedPSN.masked_weight c) []) 0 == 0.
Proof.
  intros Hlam HW Hi Hj Hband.
  unfold MaskedPSN.masked_weight.
  replace (MaskedPSN.lambda_ c >=? s_one)%sc with true
    by (symmetry; apply Qle_bool_iff; exact Hlam).
  destruct HW as [HWl HWr].
  destruct (mask0_square c) as [H0l H0r].
  rewrite Forall_forall in HWr, H0r.
  assert (LW : List.length (nth i (MaskedPSN.weight c) []) = MaskedPSN.T c)
    by (apply HWr, nth_In; lia).
  assert (L0 : List.length (nth i (MaskedPSN.mask0 c) []) = MaskedPSN.T c).
  { apply H0r, nth_In. index_below Hi H0l. }
  rewrite (nth_map2_entry _ _ _ i j 0 0 0);
    [| index_below Hi HWl | exact (eq_trans H0l (eq_sym HWl))
     | index_below Hj LW | exact (eq_trans L0 (eq_sym LW))].
  change (nth j (nth i (MaskedPSN.mask0 c) []) 0)
    with (nth j (nth i (MaskedPSN.mask0 c) []) (s_zero (F := Q))).
  rewrite (mask0_entry c i j Hi Hj). cbn [s_mul s_one s_zero Exact].
  destruct (Nat.leb_spec j i) as [Hji | Hji];
    destruct (Z.leb_spec (- (Z.of_nat (MaskedPSN.k c) - 1))
                (Z.of_nat j - Z.of_nat i)) as [Hk | Hk];
    try ring.
  exfalso. apply Hband. lia.
Qed.

(** With [lambda_ >= 1] a [MaskedPSN] of order [k] is causal, in exact
    arithmetic: the row [t] of what a multi-step call returns depends only
    on the inputs of the steps [t - k + 1] to [t].  Two input sequences of
    [T] steps of one shape that agree on these steps give the same row
    [t].  The weight is [T x T], the bias has [T] entries, and the
    surrogate function is any function of the rationals. *)
Theorem masked_psn_is_causal :
  forall (c : MaskedPSN.config Q) (x_seq x_seq' : list (tensor Q)) (N t : nat),
    1 <= MaskedPSN.lambda_ c ->
    square (MaskedPSN.T c) (MaskedPSN.weight c) ->
    List.length (MaskedPSN.bias c) = MaskedPSN.T c ->
    (forall a b : Q,
        a == b ->
        MaskedPSN.surrogate_function c a == MaskedPSN.surrogate_function c b) ->
    List.length x_seq = MaskedPSN.T c -> List.length x_seq' = MaskedPSN.T c ->
    Forall (fun row => List.length row = N) x_seq ->
    Forall (fun row => List.length row = N) x_seq' ->
    (t < MaskedPSN.T c)%nat ->
    (forall j, (j <= t)%nat -> (t < j + MaskedPSN.k c)%nat ->
               nth j x_seq [] = nth j x_seq' []) ->
    exists y_seq y_seq' : list (tensor Q),
      MaskedPSN.multi_step_forward c x_seq = Ok y_seq
      /\ MaskedPSN.multi_step_forward c x_seq' = Ok y_seq'
      /\ Forall2 Qeq (nth t y_seq []) (nth t y_seq' []).
Proof.
  intros c x_seq x_seq' N t Hlam HW Hb Hsg Hx Hx' Hrows Hrows' Ht Hagree.
  set (MW := MaskedPSN.masked_weight c).
  exists (map (map (MaskedPSN.surrogate_function c))
            (addmm (MaskedPSN.bias c) MW x_seq)),
         (map (map (MaskedPSN.surrogate_function c))
            (addmm (MaskedPSN.bias c) MW x_seq')).
  split; [| split].
  1, 2: unfold MaskedPSN.multi_step_forward; rewrite ?Hx, ?Hx', Nat.eqb_refl;
    reflexivity.
  assert (HMW : List.length MW = MaskedPSN.T c).
  { unfold MW, MaskedPSN.masked_weight.
    replace (MaskedPSN.lambda_ c >=? s_one)%sc with true
      by (symmetry; apply Qle_bool_iff; exact Hlam).
    apply (square_map2 (fun w m0 => (w * m0)%sc)); [exact HW | apply mask0_square]. }
  assert (HMWt : List.length (nth t MW []) = MaskedPSN.T c).
  { unfold MW, MaskedPSN.masked_weight.
    replace (MaskedPSN.lambda_ c >=? s_one)%sc with true
      by (symmetry; apply Qle_bool_iff; exact Hlam).
    destruct (square_map2 (fun w m0 => (w * m0)%sc) (MaskedPSN.T c)
                (MaskedPSN.weight c) (MaskedPSN.mask0 c) HW (mask0_square c))
      as [Hl Hr].
    rewrite Forall_forall in Hr. apply Hr, nth_In. index_below Ht Hl. }
  assert (Hrow : forall X : list (tensor Q),
             List.length X = MaskedPSN.T c ->
             nth t (map (map (MaskedPSN.surrogate_function c))
                      (addmm (MaskedPSN.bias c) MW X)) []
             = map (MaskedPSN.surrogate_function c)
                 (map (fun a => (nth t (MaskedPSN.bias c) 0 + a)%sc)
                    (sum0 (weighted (nth t MW []) X)))).
  { intros X HX. unfold addmm, matmul.
    set (M := map (fun row =>
                     sum0 (map2 (fun w x_t => map (fun a => (w * a)%sc) x_t) row X))
                MW).
    assert (Hm : List.length M = MaskedPSN.T c)
      by (unfold M; now rewrite length_map).
    assert (Hl2 : List.length
                    (map2 (fun b h => map (fun a => (b + a)%sc) h)
                       (MaskedPSN.bias c) M) = MaskedPSN.T c).
    { etransitivity; [apply map2_length | exact Hb].
      exact (eq_trans Hb (eq_sym Hm)). }
    etransitivity; [apply (nth_map_in _ _ [] []); index_below Ht Hl2 |].
    f_equal.
    etransitivity;
      [apply (nth_map2 _ _ _ 0 [] []);
       [index_below Ht Hb | exact (eq_trans Hm (eq_sym Hb))] |].
    f_equal. unfold M.
    etransitivity; [apply (nth_map_in _ _ [] []); index_below Ht HMW |].
    reflexivity. }
  change (Forall2 Qeq
            (nth t (map (map (MaskedPSN.surrogate_function c))
                      (addmm (MaskedPSN.bias c) MW x_seq)) [])
            (nth t (map (map (MaskedPSN.surrogate_function c))
                      (addmm (MaskedPSN.bias c) MW x_seq')) [])).
  rewrite (Hrow x_seq Hx), (Hrow x_seq' Hx').
  assert (Hsum : Forall2 Qeq (sum0 (weighted (nth t MW []) x_seq))
                   (sum0 (weighted (nth t MW []) x_seq'))).
  { pose proof (length_weighted_rows N (nth t MW []) x_seq Hrows) as R.
    pose proof (length_weighted_rows N (nth t MW []) x_seq' Hrows') as R'.
    destruct (weighted_nonempty _ _ x_seq HMWt Hx ltac:(lia)) as (r & rows & E).
    destruct (weighted_nonempty _ _ x_seq' HMWt Hx' ltac:(lia)) as (r' & rows' & E').
    rewrite E in R |- *. rewrite E' in R' |- *.
    destruct (sum0_total N 0 rows r R) as [Hl _].
    destruct (sum0_total N 0 rows' r' R') as [Hl' _].
    apply Forall2_Qeq_nth; [congruence |].
    intros n Hn. rewrite Hl in Hn.
    rewrite (proj2 (sum0_total N n rows r R) Hn).
    rewrite (proj2 (sum0_total N n rows' r' R') Hn).
    rewrite <- E, <- E'.
    apply total_weighted_agree; [exact (eq_trans Hx (eq_sym Hx')) |].
    intros j Hj _.
    pose proof (eq_ind _ (fun n => (j < n)%nat) Hj _ HMWt) as Hj'.
    cbv beta in Hj'. clear Hj. rename Hj' into Hj.
    destruct (Nat.le_gt_cases j t) as [Hjt | Hjt];
      [destruct (Nat.lt_ge_cases t (j + MaskedPSN.k c)) as [Hk | Hk] |].
    - right. now apply Hagree.
    - left. apply (masked_weight_outside_band c t j Hlam HW Ht Hj). lia.
    - left. apply (masked_weight_outside_band c t j Hlam HW Ht Hj). lia. }
  rewrite !map_map.
  induction Hsum as [| a b l l' Hab Hsum IH]; cbn [map]; constructor.
  - apply Hsg. cbn [s_add Exact]. now rewrite Hab.
  - exact IH.
Qed.

End MaskedPSNCausal.

(** ** Instances of the further properties *)

Lemma eval_spikes_are_binary_witness :
  (BaseNode.training (fst (if_neuron "m" false)) = false
   /\ exists (y_seq : list (tensor float)) (s' : BaseNode.state float),
        IFNode.multi_step_forward (fst (if_neuron "m" false))
          (snd (if_neuron "m" false)) x_0_6 = Returns (y_seq, s')
        /\ List.length y_seq = 4%nat
        /\ Forall (Forall zero_or_one) y_seq)
  /\
  (BaseNode.training (LIFNode.base lif_eval) = false
   /\ exists (spike : tensor float) (s' : BaseNode.state float),
        LIFNode.single_step_forward lif_eval (snd (if_neuron "m" false)) [0.6%float]
        = Returns (spike, s')
        /\ Forall zero_or_one spike).
Proof.
  split.
  - assert (Htr : BaseNode.training (fst (if_neuron "m" false)) = false) by reflexivity.
    checked Htr.
    exact (proj2 (proj1 (@eval_spikes_are_binary float Float64)
                    (fst (if_neuron "m" false)) (snd (if_neuron "m" false))
                    [0.6%float] [[0.6%float]; [0.6%float]; [0.6%float]] Htr)).
  - assert (Htr : BaseNode.training (LIFNode.base lif_eval) = false) by reflexivity.
    checked Htr.
    exact (proj1 (proj2 (@eval_spikes_are_binary float Float64)
                    lif_eval (snd (if_neuron "m" false))
                    [0.6%float] [] Htr)).
Defined.

Lemma stored_trajectory_witness :
  let '(c, s) :=
    BaseNode.__init__ 1%float (Some 0%float) heaviside false "m" "torch" true in
  (BaseNode.training c = false \/ BaseNode.backend c = "torch"%string)
  /\ exists (y_seq : list (tensor float)) (s' : BaseNode.state float),
       IFNode.multi_step_forward c s x_0_6 = Returns (y_seq, s')
       /\ List.length y_seq = 4%nat
       /\ exists traj : list (tensor float),
            BaseNode.v_seq s' = Some traj
            /\ List.length traj = 4%nat
            /\ BaseNode.v s' = MTensor (last traj []).
Proof.
  cbn [BaseNode.__init__].
  match goal with
  | |- (BaseNode.training ?c = false \/ _) /\ _ =>
      assert (Hmode : BaseNode.training c = false
                      \/ BaseNode.backend c = "torch"%string)
        by (right; reflexivity);
      checked Hmode;
      exact (proj1 (@stored_trajectory float Float64) c _
               [0.6%float] [[0.6%float]; [0.6%float]; [0.6%float]] Hmode)
  end.
Defined.

Lemma soft_reset_subtracts_threshold_witness :
  let c := LIFNode.base (ottt_lif true) in
  BaseNode.v_reset c = None
  /\ (0 <? BaseNode.v_threshold c)%float = true
  /\ finite (BaseNode.v_threshold c)
  /\ soft_reset_elementwise [1.5%float; 0.25%float] [1%float; 0%float]
       (BaseNode.neuronal_reset c [1.5%float; 0.25%float] [1%float; 0%float])
       (BaseNode.v_threshold c).
Proof.
  intros c.
  assert (Hr : BaseNode.v_reset c = None) by reflexivity.
  assert (Hp : (0 <? BaseNode.v_threshold c)%float = true) by reflexivity.
  assert (Hf : finite (BaseNode.v_threshold c)) by reflexivity.
  checked Hr. checked Hp. checked Hf.
  exact (soft_reset_subtracts_threshold c [1.5%float; 0.25%float]
           [1%float; 0%float] Hr Hp Hf eq_refl).
Defined.

Lemma if_soft_reset_conserves_input_witness :
  let '(c, s) :=
    BaseNode.__init__ 1%Q None heaviside false "m" "torch" false in
  let x_seq := [[3 # 5]; [3 # 5]; [3 # 5]; [3 # 5]]%Q in
  (BaseNode.training c = false \/ BaseNode.backend c = "torch"%string)
  /\ BaseNode.v_reset c = None
  /\ Forall (fun x_t => List.length x_t = 1%nat) x_seq
  /\ exists (y_seq : list (tensor Q)) (s' : BaseNode.state Q) (v_last : tensor Q),
       IFNode.multi_step_forward c s x_seq = Returns (y_seq, s')
       /\ BaseNode.v s' = MTensor v_last
       /\ (nth 0 v_last 0 + BaseNode.v_threshold c * total y_seq 0
           == 0 + total x_seq 0)%Q.
Proof.
  cbn [BaseNode.__init__].
  match goal with
  | |- (BaseNode.training ?c = false \/ _) /\ _ /\ Forall _ ?x_seq /\ _ =>
      assert (Hmode : BaseNode.training c = false
                      \/ BaseNode.backend c = "torch"%string)
        by (right; reflexivity);
      assert (Hr : BaseNode.v_reset c = None) by reflexivity;
      assert (Hl : Forall (fun x_t : tensor Q => List.length x_t = 1%nat) x_seq)
        by (repeat constructor);
      checked Hmode; checked Hr; checked Hl;
      exact (if_soft_reset_conserves_input c
               {| BaseNode.v := MFloat 0%Q; BaseNode.v_seq := None |}
               [3 # 5]%Q [[3 # 5]; [3 # 5]; [3 # 5]]%Q 0%nat Hmode Hr Hl
               (le_n 1))
  end.
Defined.

Lemma simple_if_node_is_if_node_witness :
  let '(c, s) := if_neuron "s" true in
  BaseNode.training c = true
  /\ BaseNode.backend c = "torch"%string
  /\ exists spike v' : tensor float,
       SimpleIFNode.single_step_forward
         (fst (SimpleBaseNode.__init__ 1%float (Some 0%float) heaviside false "s"))
         (BaseNode.v s) [1.5%float; 0.25%float]
       = Ok (spike, MTensor v')
       /\ IFNode.single_step_forward c s [1.5%float; 0.25%float]
          = Returns (spike, {| BaseNode.v := MTensor v'; BaseNode.v_seq := None |}).
Proof.
  cbn [if_neuron BaseNode.__init__ BaseNode.set_training].
  match goal with
  | |- BaseNode.training ?c = true /\ _ =>
      assert (Htr : BaseNode.training c = true) by reflexivity;
      assert (Hb : BaseNode.backend c = "torch"%string) by reflexivity;
      checked Htr; checked Hb;
      exact (proj1 simple_if_node_is_if_node c
               {| BaseNode.v := MFloat 0%float; BaseNode.v_seq := None |}
               [1.5%float; 0.25%float] Htr Hb)
  end.
Defined.

Lemma izhikevich_without_adaptation_is_qif_witness :
  let '(c, s) := izhikevich in
  let q := {| QIFNode.base := IzhikevichNode.base c;
              QIFNode.tau := 2%float;
              QIFNode.v_c := 0.8%float;
              QIFNode.v_rest := 0%float;
              QIFNode.a0 := 1%float |} in
  IzhikevichNode.a c = 0%float
  /\ IzhikevichNode.b c = 0%float
  /\ finite (1 / IzhikevichNode.tau_w c)
  /\ exists (spike : tensor float) (s' : BaseNode.state float),
       QIFNode.single_step_forward q (IzhikevichNode.base_state s) [3%float]
       = Returns (spike, s')
       /\ IzhikevichNode.single_step_forward c s [3%float]
          = Returns (spike, {| IzhikevichNode.base_state := s';
                               IzhikevichNode.w := MTensor (zeros_like spike) |}).
Proof.
  cbn [izhikevich BaseNode.__init__].
  match goal with
  | |- IzhikevichNode.a ?c = _ /\ _ =>
      assert (Ha : IzhikevichNode.a c = 0%float) by reflexivity;
      assert (Hb : IzhikevichNode.b c = 0%float) by reflexivity;
      assert (Hf : finite (1 / IzhikevichNode.tau_w c)) by reflexivity;
      checked Ha; checked Hb; checked Hf;
      refine (izhikevich_without_adaptation_is_qif c
                {| IzhikevichNode.base_state :=
                     {| BaseNode.v := MFloat 0%float; BaseNode.v_seq := None |};
                   IzhikevichNode.w := MFloat 0%float |}
                [3%float] Ha Hb (or_introl eq_refl) Hf _ _);
      repeat constructor
  end.
Defined.

Lemma online_nodes_run_lif_forward_witness :
  let c := ottt_lif false in
  let s := {| BaseNode.v := MFloat 0%float; BaseNode.v_seq := None |} in
  (BaseNode.training (LIFNode.base c) = false
   \/ BaseNode.backend (LIFNode.base c) = "torch"%string)
  /\ same_potential c None (BaseNode.v s)
  /\ exists spike v' : tensor float,
       LIFNode.single_step_forward c s [1.5%float]
       = Returns (spike, {| BaseNode.v := MTensor v'; BaseNode.v_seq := None |})
       /\ SLTTLIFNode.single_step_forward c None [1.5%float] = Returns (spike, Some v')
       /\ forall trace : option (tensor float),
            exists (out : OTTTLIFNode.output float) (trace' : option (tensor float)),
              OTTTLIFNode.single_step_forward c
                {| OTTTLIFNode.v := None; OTTTLIFNode.trace := trace |} [1.5%float]
              = Returns (out, {| OTTTLIFNode.v := Some v';
                                 OTTTLIFNode.trace := trace' |})
              /\ spike_of_output out = spike.
Proof.
  intros c s.
  assert (Hmode : BaseNode.training (LIFNode.base c) = false
                  \/ BaseNode.backend (LIFNode.base c) = "torch"%string)
    by (left; reflexivity).
  assert (Hv : same_potential c None (BaseNode.v s)) by reflexivity.
  checked Hmode. checked Hv.
  exact (online_nodes_run_lif_forward c None s [1.5%float] Hmode Hv).
Defined.

Lemma gated_lif_runs_T_steps_witness :
  ((1 <= GatedLIFNode.T gated_lif <= 2)%nat
   /\ (GatedLIFNode.T gated_lif <= List.length (GatedLIFNode.conduct gated_lif))%nat
   /\ exists (y_seq : list (tensor float)) (s' : GatedLIFNode.state float),
        GatedLIFNode.multi_step_forward sigmoid_at_0 gated_lif GatedLIFNode.init
          [[2%float]; [2%float]]
        = Ok (y_seq, s')
        /\ List.length y_seq = 1%nat
        /\ GatedLIFNode.multi_step_forward sigmoid_at_0 gated_lif GatedLIFNode.init
             [[2%float]]
           = Ok (y_seq, s'))
  /\
  ((0 < GatedLIFNode.T gated_lif)%nat
   /\ GatedLIFNode.multi_step_forward sigmoid_at_0 gated_lif GatedLIFNode.init []
      = Raise IndexError).
Proof.
  split.
  - assert (HT : (1 <= GatedLIFNode.T gated_lif <= 2)%nat) by (cbn; lia).
    assert (Hc : (GatedLIFNode.T gated_lif
                  <= List.length (GatedLIFNode.conduct gated_lif))%nat)
      by (cbn; lia).
    checked HT. checked Hc.
    exact (proj1 (proj2 (@gated_lif_runs_T_steps float Float64 sigmoid_at_0 gated_lif
                           GatedLIFNode.init [[2%float]; [2%float]])) HT Hc).
  - assert (HT : (0 < GatedLIFNode.T gated_lif)%nat) by (cbn; lia).
    checked HT.
    exact (proj1 (@gated_lif_runs_T_steps float Float64 sigmoid_at_0 gated_lif
                    GatedLIFNode.init []) (or_introl HT)).
Defined.

Lemma dsr_if_output_follows_input_witness :
  let inp := [[3 # 5]; [3 # 5]; [3 # 5]]%Q in
  (0 < 1)%Q /\ (0 < 1 # 2)%Q /\ (1 # 2 <= 1)%Q
  /\ Forall (fun row => (0 <= nth 0 row 0 /\ nth 0 row 0 <= 1)%Q) inp
  /\ exists out : list (tensor Q),
       DSRIFNode.forward inp 3 1%Q (1 # 2)%Q 1%Q = Ok out
       /\ (total inp 0 - (1 # 2) * 1 < total out 0)%Q
       /\ (total out 0 <= total inp 0 + (1 - (1 # 2)) * 1)%Q.
Proof.
  intros inp.
  assert (H1 : (0 < 1)%Q) by reflexivity.
  assert (H2 : (0 < 1 # 2)%Q) by reflexivity.
  assert (H3 : (1 # 2 <= 1)%Q) by (unfold Qle; simpl; lia).
  assert (Hl : Forall (fun row : tensor Q => List.length row = 1%nat) inp)
    by (repeat constructor).
  assert (Hb : Forall (fun row => (0 <= nth 0 row 0 /\ nth 0 row 0 <= 1)%Q) inp)
    by (repeat constructor; unfold Qle; simpl; lia).
  checked H1. checked H2. checked H3. checked Hb.
  exact (dsr_if_output_follows_input [3 # 5]%Q [[3 # 5]; [3 # 5]]%Q 3%nat
           1%Q (1 # 2)%Q 1%Q 0%nat H1 H2 H3 Hl (le_n 1) Hb).
Defined.

Lemma dsr_threshold_is_clamped_witness :
  let c := {| DSRIFNode.T := 1; DSRIFNode.v_threshold := (1 # 100)%Q;
              DSRIFNode.alpha := (1 # 2)%Q;
              DSRIFNode.v_threshold_lower_bound := (1 # 10)%Q;
              DSRIFNode.v_threshold_grad_scaling := 1%Q;
              DSRIFNode.step_mode := "m"; DSRIFNode.backend := "torch" |} in
  (DSRIFNode.v_threshold c <= DSRIFNode.v_threshold_lower_bound c)%Q
  /\ exists (y_seq : list (tensor Q)) (c' : DSRIFNode.config Q),
       DSRIFNode.multi_step_forward c [[3 # 5]%Q] = Ok (y_seq, c')
       /\ (DSRIFNode.v_threshold c' == 1 # 10)%Q.
Proof.
  intros c.
  assert (Hle : (DSRIFNode.v_threshold c <= DSRIFNode.v_threshold_lower_bound c)%Q)
    by (unfold Qle; simpl; lia).
  checked Hle.
  destruct (dsr_threshold_is_clamped c [3 # 5]%Q [])
    as (y_seq & c' & Hrun & _ & _ & _ & Hlow).
  exists y_seq, c'. split; [exact Hrun | exact (Hlow Hle)].
Defined.

Lemma sliding_psn_exp_init_weight_witness :
  (1 <= 3)%nat
  /\ nth_error (SlidingPSN.exp_init_weight (F := Q) 3) 2 = Some 1%Q
  /\ (0 + 1 < 3)%nat
  /\ exists w_next : Q,
       nth_error (SlidingPSN.exp_init_weight 3) 1 = Some w_next
       /\ nth_error (SlidingPSN.exp_init_weight 3) 0 = Some (w_next / 2)%Q.
Proof.
  assert (Hk : (1 <= 3)%nat) by lia.
  assert (Hi : (0 + 1 < 3)%nat) by lia.
  checked Hk.
  split; [exact (proj1 (proj2 (@sliding_psn_exp_init_weight Q Exact 3%nat)) Hk) |].
  checked Hi.
  exact (proj2 (proj2 (@sliding_psn_exp_init_weight Q Exact 3%nat)) 0%nat Hi).
Defined.

Lemma sliding_psn_gemm_weight_is_banded_witness :
  List.length (SlidingPSN.weight sliding_psn) = SlidingPSN.k sliding_psn
  /\ exists gemm : list (tensor Q),
       SlidingPSN.gen_gemm_weight sliding_psn 3 = Ok gemm
       /\ List.length gemm = 3%nat
       /\ forall i j : nat,
            (i < 3)%nat -> (j < 3)%nat ->
            nth j (nth i gemm []) 0%Q
            = if (j <=? i)%nat && (i <? j + 2)%nat
              then nth (2 - 1 - (i - j)) [1 # 2; 1]%Q 0%Q
              else 0%Q.
Proof.
  assert (Hw : List.length (SlidingPSN.weight sliding_psn) = SlidingPSN.k sliding_psn)
    by reflexivity.
  checked Hw.
  exact (sliding_psn_gemm_weight_is_banded Q Exact sliding_psn 3%nat Hw).
Defined.

Lemma sliding_psn_queue_is_a_window_witness :
  let x_seq := [[1]; [2]; [3]]%Q in
  (1 <= SlidingPSN.k sliding_psn)%nat
  /\ exists y_seq : list (tensor Q),
       sequential (SlidingPSN.single_step_forward sliding_psn) [] x_seq
       = Returns (y_seq, [[2]; [3]]%Q)
       /\ List.length y_seq = 3%nat
       /\ (List.length (lastn 2 x_seq) <= 2)%nat.
Proof.
  intros x_seq.
  assert (Hk : (1 <= SlidingPSN.k sliding_psn)%nat) by (cbn; lia).
  checked Hk.
  exact (proj1 (@sliding_psn_queue_is_a_window Q Exact sliding_psn x_seq) Hk).
Defined.

Lemma heaviside_respects_Qeq (a b : Q) : (a == b -> heaviside a == heaviside b)%Q.
Proof.
  intros Hab. unfold heaviside. cbn.
  destruct (Qle_bool 0 a) eqn:Ea, (Qle_bool 0 b) eqn:Eb; try reflexivity.
  - apply Qle_bool_iff in Ea. rewrite Hab in Ea. apply Qle_bool_iff in Ea. congruence.
  - apply Qle_bool_iff in Eb. rewrite <- Hab in Eb. apply Qle_bool_iff in Eb. congruence.
Qed.

Lemma sliding_psn_single_step_is_gemm_witness :
  let x_seq := [[1; 0]; [2; 1 # 2]; [3; 0]]%Q in
  (1 <= SlidingPSN.k sliding_psn)%nat
  /\ List.length (SlidingPSN.weight sliding_psn) = SlidingPSN.k sliding_psn
  /\ SlidingPSN.backend sliding_psn = "gemm"%string
  /\ Forall (fun row => List.length row = 2%nat) x_seq
  /\ exists (y_multi y_single queue : list (tensor Q)),
       SlidingPSN.multi_step_forward sliding_psn x_seq = Ok y_multi
       /\ sequential (SlidingPSN.single_step_forward sliding_psn) [] x_seq
          = Returns (y_single, queue)
       /\ Forall2 (Forall2 Qeq) y_multi y_single.
Proof.
  intros x_seq.
  assert (Hk : (1 <= SlidingPSN.k sliding_psn)%nat) by (cbn; lia).
  assert (Hw : List.length (SlidingPSN.weight sliding_psn) = SlidingPSN.k sliding_psn)
    by reflexivity.
  assert (Hb : SlidingPSN.backend sliding_psn = "gemm"%string) by reflexivity.
  assert (Hl : Forall (fun row : tensor Q => List.length row = 2%nat) x_seq)
    by (repeat constructor).
  checked Hk. checked Hw. checked Hb. checked Hl.
  exact (sliding_psn_single_step_is_gemm sliding_psn x_seq 2%nat Hk Hw Hb
           heaviside_respects_Qeq Hl).
Defined.

Lemma non_spiking_decode_witness :
  ("mem"%string <> "max-mem"%string
   /\ "mem"%string <> "max-abs-mem"%string
   /\ "mem"%string <> "mean-mem"%string
   /\ NonSpikingBaseNode.forward NonSpikingIFNode.neuronal_charge "mem"
        [[1.5%float]; [0.25%float]]
      = NonSpikingBaseNode.forward NonSpikingIFNode.neuronal_charge "last-mem"
          [[1.5%float]; [0.25%float]]).
Proof.
  assert (H1 : "mem"%string <> "max-mem"%string) by discriminate.
  assert (H2 : "mem"%string <> "max-abs-mem"%string) by discriminate.
  assert (H3 : "mem"%string <> "mean-mem"%string) by discriminate.
  checked H1. checked H2. checked H3.
  exact (proj1 (proj2 (@non_spiking_decode float Float64))
           NonSpikingIFNode.neuronal_charge "mem"%string
           [[1.5%float]; [0.25%float]] H1 H2 H3).
Defined.

Lemma non_spiking_max_abs_mem_witness :
  let x_seq := [[-3]; [1]]%Q in
  Forall (fun row => List.length row = 1%nat) x_seq
  /\ exists mem : tensor Q,
       NonSpikingIFNode.forward "max-abs-mem" ([1]%Q :: x_seq) = Ok mem
       /\ (exists v, In v [[1]; [-2]; [-1]]%Q /\ (nth 0 mem 0 == nth 0 v 0)%Q)
       /\ (forall v, In v [[1]; [-2]; [-1]]%Q ->
                     (s_abs (nth 0 v 0) <= s_abs (nth 0 mem 0))%Q).
Proof.
  intros x_seq.
  assert (Hl : Forall (fun row : tensor Q => List.length row = 1%nat) x_seq)
    by (repeat constructor).
  checked Hl.
  exact (proj1 non_spiking_max_abs_mem [1]%Q x_seq 0%nat Hl (le_n 1)).
Defined.

Lemma training_forward_is_evaluation_forward_witness :
  (let '(c, s) := if_neuron "m" true in
   BaseNode.backend c = "torch"%string
   /\ finite (BaseNode.v_threshold c)
   /\ (forall a, BaseNode.surrogate_function c a = heaviside a)
   /\ IFNode.multi_step_forward (BaseNode.set_training c true) s x_0_6
      = IFNode.multi_step_forward (BaseNode.set_training c false) s x_0_6)
  /\
  (BaseNode.backend (LIFNode.base lif_eval) = "torch"%string
   /\ finite (BaseNode.v_threshold (LIFNode.base lif_eval))
   /\ (forall a, BaseNode.surrogate_function (LIFNode.base lif_eval) a = heaviside a)
   /\ BaseNode.v_reset (LIFNode.base lif_eval) = Some 0%float
   /\ LIFNode.decay_input lif_eval = true
   /\ LIFNode.single_step_forward (lif_in_mode lif_eval true)
        (snd (if_neuron "m" true)) [0.6%float]
      = LIFNode.single_step_forward (lif_in_mode lif_eval false)
          (snd (if_neuron "m" true)) [0.6%float]).
Proof.
  split.
  - cbn [if_neuron BaseNode.__init__ BaseNode.set_training].
    match goal with
    | |- BaseNode.backend ?c = _ /\ _ =>
        assert (Hb : BaseNode.backend c = "torch"%string) by reflexivity;
        assert (Hf : finite (BaseNode.v_threshold c)) by reflexivity;
        assert (Hsg : forall a, BaseNode.surrogate_function c a = heaviside a)
          by reflexivity;
        checked Hb; checked Hf; checked Hsg;
        exact (proj2 (proj1 training_forward_is_evaluation_forward c
                        (snd (if_neuron "m" true))
                        [0.6%float] [[0.6%float]; [0.6%float]; [0.6%float]]
                        Hb Hf Hsg))
    end.
  - assert (Hb : BaseNode.backend (LIFNode.base lif_eval) = "torch"%string)
      by reflexivity.
    assert (Hf : finite (BaseNode.v_threshold (LIFNode.base lif_eval))) by reflexivity.
    assert (Hsg : forall a,
               BaseNode.surrogate_function (LIFNode.base lif_eval) a = heaviside a)
      by reflexivity.
    assert (Hr : BaseNode.v_reset (LIFNode.base lif_eval) = Some 0%float)
      by reflexivity.
    assert (Hd : LIFNode.decay_input lif_eval = true) by reflexivity.
    checked Hb. checked Hf. checked Hsg. checked Hr. checked Hd.
    exact (proj1 (proj2 training_forward_is_evaluation_forward lif_eval
                    (snd (if_neuron "m" true)) [0.6%float] [] Hb Hf Hsg
                    (or_intror (conj eq_refl Hd)))).
Defined.

Lemma sliding_psn_backends_agree_witness :
  let x_seq := [[1; 0]; [2; 1 # 2]; [3; 0]]%Q in
  (1 <= SlidingPSN.k sliding_psn)%nat
  /\ List.length (SlidingPSN.weight sliding_psn) = SlidingPSN.k sliding_psn
  /\ Forall (fun row => List.length row = 2%nat) x_seq
  /\ exists (y_gemm y_conv : list (tensor Q)),
       SlidingPSN.multi_step_forward (sliding_psn_on sliding_psn "gemm") x_seq
       = Ok y_gemm
       /\ SlidingPSN.multi_step_forward (sliding_psn_on sliding_psn "conv") x_seq
          = Ok y_conv
       /\ Forall2 (Forall2 Qeq) y_gemm y_conv.
Proof.
  intros x_seq.
  assert (Hk : (1 <= SlidingPSN.k sliding_psn)%nat) by (cbn; lia).
  assert (Hw : List.length (SlidingPSN.weight sliding_psn) = SlidingPSN.k sliding_psn)
    by reflexivity.
  assert (Hl : Forall (fun row : tensor Q => List.length row = 2%nat) x_seq)
    by (repeat constructor).
  checked Hk. checked Hw. checked Hl.
  exact (proj1 (sliding_psn_backends_agree sliding_psn [1; 0]%Q
                  [[2; 1 # 2]; [3; 0]]%Q 2%nat Hk Hw heaviside_respects_Qeq Hl)).
Defined.

Lemma masked_psn_without_mask_is_psn_witness :
  let c := masked_psn 0%float [[0.5%float; 0.25%float]; [2%float; 1%float]] in
  MaskedPSN.lambda_ c = 0%float
  /\ square (MaskedPSN.T c) (MaskedPSN.weight c)
  /\ MaskedPSN.masked_weight c = MaskedPSN.weight c
  /\ MaskedPSN.multi_step_forward c [[1.5%float]; [0.25%float]]
     = PSN.forward (psn_of c) [[1.5%float]; [0.25%float]].
Proof.
  intros c.
  assert (Hlam : MaskedPSN.lambda_ c = 0%float) by reflexivity.
  assert (HW : square (MaskedPSN.T c) (MaskedPSN.weight c))
    by (split; [reflexivity | repeat constructor]).
  checked Hlam. checked HW.
  destruct (masked_psn_without_mask_is_psn c [[1.5%float]; [0.25%float]] Hlam HW)
    as (Hmw & Hrun & _).
  split; [exact Hmw | exact (Hrun eq_refl)].
Defined.

Lemma masked_psn_is_causal_witness :
  let c := masked_psn 1%Q [[1 # 2; 1 # 4]; [2; 1]]%Q in
  (1 <= MaskedPSN.lambda_ c)%Q
  /\ square (MaskedPSN.T c) (MaskedPSN.weight c)
  /\ (forall j, (j <= 1)%nat -> (1 < j + MaskedPSN.k c)%nat ->
                nth j [[1]; [2]]%Q [] = nth j [[5]; [2]]%Q [])
  /\ exists y_seq y_seq' : list (tensor Q),
       MaskedPSN.multi_step_forward c [[1]; [2]]%Q = Ok y_seq
       /\ MaskedPSN.multi_step_forward c [[5]; [2]]%Q = Ok y_seq'
       /\ Forall2 Qeq (nth 1 y_seq []) (nth 1 y_seq' []).
Proof.
  intros c.
  assert (Hlam : (1 <= MaskedPSN.lambda_ c)%Q) by (unfold Qle; simpl; lia).
  assert (HW : square (MaskedPSN.T c) (MaskedPSN.weight c))
    by (split; [reflexivity | repeat constructor]).
  assert (Hagree : forall j, (j <= 1)%nat -> (1 < j + MaskedPSN.k c)%nat ->
                             nth j [[1]; [2]]%Q [] = nth j [[5]; [2]]%Q []).
  { intros j Hj Hk. cbn in Hk. assert (j = 1%nat) as -> by lia. reflexivity. }
  checked Hlam. checked HW. checked Hagree.
  refine (masked_psn_is_causal c [[1]; [2]]%Q [[5]; [2]]%Q 1%nat 1%nat
            Hlam HW eq_refl heaviside_respects_Qeq eq_refl eq_refl _ _ _ Hagree).
  - repeat constructor.
  - repeat constructor.
  - cbn. lia.
Defined.
